(** * dblock: distributed locks over Redis and over a relational table

    A shallow embedding of [dblock.go], [redislock/redislock.go] and
    [rdblock/rdblock.go], and the properties of the lock protocol
    proved on it.

    Conventions.
    - Instants and durations are integers ([Z]): nanoseconds on the Go
      side ([time.Time], [time.Duration]), milliseconds on the Redis
      side.  One clock drives both; [ms_of] converts.  The code does
      no arithmetic of its own on them besides [ttl/time.Millisecond],
      so no 64-bit wrap-around arises.
    - Go strings are byte strings ([string]); [len] is [String.length].
      Where the code ranges over the runes of a string and builds a
      string from runes ([SingleQuote]), runes are integers and Go's
      UTF-8 decoding and encoding are written out ([utf8]).
    - Every backend round trip (one Lua script, one SQL statement) is
      one atomic step at one instant; transport faults are outside the
      model, so the only backend errors are the ones the store itself
      raises (duplicate key, invalid expire time, a statement that is
      no SQL).
    - The Redis keyspace is a finite map; the relational table is a
      list of rows.  The database gets the statement text and nothing
      else, and acts on what it reads there. *)

From Stdlib Require Import ZArith Lia Ascii DecimalString.
From stdpp Require Import base option list gmap strings.

Local Open Scope Z_scope.

(** ** Package dblock *)

Module dblock.

(** The errors a caller can see.  [ErrNotObtained] and
    [ErrLockNotHeld] are the package's own; [Canceled] and
    [DeadlineExceeded] are those of [context]; [ErrBackend] stands
    for an error of the store, [ErrRandom] for a failed read of the
    random source. *)
Inductive error : Type :=
| ErrNotObtained
| ErrLockNotHeld
| Canceled
| DeadlineExceeded
| ErrRandom
| ErrBackend (msg : string).

(** [RetryStrategy] is an interface with the single method
    [NextBackoff() time.Duration].  A strategy object is stateful; it
    is kept as the sequence of the values its successive calls
    return: [NextBackoff r k] is what call number [k] (from 0)
    yields. *)
Record RetryStrategy : Type := { NextBackoff : nat -> Z }.

(** Modelled from the spec: [NoRetry] is called by
    [Options.GetRetryStrategy] but is not among the sources.  The spec
    says: "Default RetryStrategy: no retry -- a single attempt,
    immediate failure if busy", the stop signal being a backoff of
    "less than one time unit".  So every call yields 0. *)
Definition NoRetry : RetryStrategy := {| NextBackoff := fun _ => 0 |}.

Record Options : Type := {
  opt_RetryStrategy : option RetryStrategy;  (* nil when unset *)
  Meta : string;
  Token : string
}.

Definition GetRetryStrategy (o : Options) : RetryStrategy :=
  match opt_RetryStrategy o with
  | Some r => r
  | None => NoRetry
  end.

(** [RandomToken]: 16 bytes of [crypto/rand], base64-encoded.  The
    outcome of the read is an input of the model: [None] when the
    reader fails, [Some t] for the encoded token. *)
Definition RandomToken (rnd : option string) : error + string :=
  match rnd with
  | None => inl ErrRandom
  | Some t => inr t
  end.

End dblock.

Export dblock.

(** ** context.Context *)

Module context.

(** What the loop observes of a context: its deadline, if any, and
    the instant at which its owner cancels it, if ever. *)
Record Context : Type := {
  Deadline : option Z;
  cancel_at : option Z
}.

Definition Background : Context :=
  {| Deadline := None; cancel_at := None |}.

(** [context.WithDeadline(ctx, d)]: the earlier deadline wins. *)
Definition WithDeadline (ctx : Context) (d : Z) : Context :=
  {| Deadline := Some (match Deadline ctx with
                       | Some d0 => Z.min d0 d
                       | None => d
                       end);
     cancel_at := cancel_at ctx |}.

(** The instant at which [ctx.Done()] becomes ready. *)
Definition done_at (ctx : Context) : option Z :=
  match Deadline ctx, cancel_at ctx with
  | Some d, Some c => Some (Z.min d c)
  | Some d, None => Some d
  | None, Some c => Some c
  | None, None => None
  end.

(** [ctx.Err()] once done: the cause that came first. *)
Definition Err (ctx : Context) : error :=
  match Deadline ctx, cancel_at ctx with
  | Some d, Some c => if c <=? d then Canceled else DeadlineExceeded
  | None, Some _ => Canceled
  | _, _ => DeadlineExceeded
  end.

End context.

(** ** The acquisition loop

    Both [Obtain] methods end in the same [for] loop; it is written
    once here over the backend call [attempt] and the handle [lock]
    that a success returns. *)

Module acquire.

Inductive Event : Type :=
| EvAttempt (t : Z)            (* one call of the backend's [obtain] *)
| EvSleep (t : Z) (backoff : Z).  (* one [select] on the ticker *)

(** What a [select] between [ctx.Done()] and [ticker.C] takes. *)
Inductive Wake : Type :=
| Tick (t : Z)
| Done (t : Z).

(** [select { case <-ctx.Done(): ...; case <-ticker.C: }] started at
    [now] with the ticker set to [backoff].  The channel that becomes
    ready first is taken; when both become ready at the same instant
    Go chooses, which is the input [tie] ([true]: the ticker). *)
Definition select (ctx : context.Context) (now backoff : Z) (tie : bool) : Wake :=
  let tick := now + backoff in
  match context.done_at ctx with
  | None => Tick tick
  | Some d =>
      if d <? tick then Done (Z.max now d)
      else if tick <? d then Tick tick
      else if tie then Tick tick else Done (Z.max now d)
  end.

(** [if _, ok := ctx.Deadline(); !ok { ctx, cancel = context.WithDeadline(ctx, until) }]:
    the context the loop runs under. *)
Definition bounded (ctx : context.Context) (until : Z) : context.Context :=
  match context.Deadline ctx with
  | Some _ => ctx
  | None => context.WithDeadline ctx until
  end.

Section Loop.
Context {Store Lock : Type}.

(** [c.obtain(ctx, ...)] with its arguments fixed, at an instant. *)
Variable attempt : Z -> Store -> Store * (error + bool).
Variable lock : Lock.
Variable retry : RetryStrategy.
Variable ctx : context.Context.
(** Go's choice at a tie in iteration [k]. *)
Variable tie : nat -> bool.

Record State : Type := {
  now : Z;
  store : Store;
  calls : nat;          (* calls of [NextBackoff] so far *)
  trace : list Event    (* newest first *)
}.

(** One iteration of the [for] loop: either the next state or the
    values [Obtain] returns. *)
Definition iter (s : State) : State + (error + Lock) * State :=
  let '(st, r) := attempt (now s) (store s) in
  let tr := EvAttempt (now s) :: trace s in
  let s1 := {| now := now s; store := st; calls := calls s; trace := tr |} in
  match r with
  | inl err => inr (inl err, s1)
  | inr true => inr (inr lock, s1)
  | inr false =>
      let backoff := NextBackoff retry (calls s) in
      let s2 := {| now := now s; store := st; calls := S (calls s); trace := tr |} in
      if backoff <? 1 then inr (inl ErrNotObtained, s2)
      else
        let tr' := EvSleep (now s) backoff :: tr in
        match select ctx (now s) backoff (tie (calls s)) with
        | Done t =>
            inr (inl (context.Err ctx),
                 {| now := t; store := st; calls := S (calls s); trace := tr' |})
        | Tick t =>
            inl {| now := t; store := st; calls := S (calls s); trace := tr' |}
        end
  end.

Fixpoint loop (fuel : nat) (s : State) : option ((error + Lock) * State) :=
  match fuel with
  | O => None
  | S fuel' =>
      match iter s with
      | inr out => Some out
      | inl s' => loop fuel' s'
      end
  end.

(** Iterations the loop can need from [s]: every completed sleep
    moves the clock by at least one unit and not past the instant
    the context is done. *)
Definition budget (s : State) : nat :=
  match context.done_at ctx with
  | Some d => Z.to_nat (d - now s) + 2
  | None => 0
  end.

Definition run (s : State) : option ((error + Lock) * State) :=
  loop (budget s) s.

(** The states in which the loop starts an iteration when it is
    entered in [s]: [s], and the state after every sleep that the
    ticker ended. *)
Inductive reaches (s : State) : State -> Prop :=
| reach_here : reaches s s
| reach_sleep (s1 s2 : State) : reaches s s1 -> iter s1 = inl s2 -> reaches s s2.

End Loop.

Arguments State : clear implicits.

(** The state in which [Obtain] enters the loop. *)
Definition initial {Store : Type} (start : Z) (s : Store) : State Store :=
  {| now := start; store := s; calls := O; trace := [] |}.

End acquire.

(** ** Package redislock: the key-value backend *)

Module redislock.

(** *** The Redis server, as far as the four scripts use it *)

Record entry : Type := {
  value : string;
  expire_at : option Z   (* milliseconds; [None]: no expiry set *)
}.

(** Server time in milliseconds for a Go instant in nanoseconds. *)
Definition ms_of (now : Z) : Z := now / 1000000.

(** A key is expired once the server clock is past its expiry; at the
    very millisecond of the expiry it is still there. *)
Definition live (now : Z) (e : entry) : bool :=
  match expire_at e with
  | Some t => now <=? t
  | None => true
  end.

(** The record of [key] that a command run at [now] sees. *)
Definition find (now : Z) (key : string) (s : gmap string entry) : option entry :=
  match s !! key with
  | Some e => if live now e then Some e else None
  | None => None
  end.

(** [GET key]. *)
Definition GET (now : Z) (key : string) (s : gmap string entry) : option string :=
  value <$> find now key s.

(** [GETRANGE key start end], both ends inclusive, negative indices
    counting from the end of the value; a missing key reads as the
    empty string. *)
Definition GETRANGE (now : Z) (key : string) (start stop : Z)
    (s : gmap string entry) : string :=
  let v := default EmptyString (GET now key s) in
  let len := Z.of_nat (String.length v) in
  if (start <? 0) && (stop <? 0) && (stop <? start) then EmptyString
  else
    let start := if start <? 0 then Z.max 0 (len + start) else start in
    let stop := if stop <? 0 then Z.max 0 (len + stop) else stop in
    let stop := if len <=? stop then len - 1 else stop in
    if (stop <? start) || (len =? 0) then EmptyString
    else String.substring (Z.to_nat start) (Z.to_nat (stop - start + 1)) v.

(** [SET key v PX px], with [NX] when [nx]: [inl] is the error the
    server raises, [inr (s', b)] the new keyspace and whether the key
    was written. *)
Definition SET (now : Z) (key v : string) (nx : bool) (px : Z)
    (s : gmap string entry) : string + gmap string entry * bool :=
  if px <=? 0 then inl "ERR invalid expire time in 'set' command"
  else if nx && bool_decide (is_Some (find now key s)) then inr (s, false)
  else inr (<[key := {| value := v; expire_at := Some (now + px) |}]> s, true).

(** [PEXPIRE key px]: 0 when the key is missing; an expiry that is
    not in the future removes the key. *)
Definition PEXPIRE (now : Z) (key : string) (px : Z)
    (s : gmap string entry) : gmap string entry * Z :=
  match find now key s with
  | None => (s, 0)
  | Some e =>
      if px <=? 0 then (delete key s, 1)
      else (<[key := {| value := value e; expire_at := Some (now + px) |}]> s, 1)
  end.

(** [DEL key]. *)
Definition DEL (now : Z) (key : string) (s : gmap string entry)
    : gmap string entry * Z :=
  match find now key s with
  | None => (s, 0)
  | Some _ => (delete key s, 1)
  end.

(** [PTTL key]: -2 for a missing key, -1 for a key without expiry. *)
Definition PTTL (now : Z) (key : string) (s : gmap string entry) : Z :=
  match find now key s with
  | None => -2
  | Some e =>
      match expire_at e with
      | None => -1
      | Some t => t - now
      end
  end.

(** Lua's [string.sub(s, i, j)]. *)
Definition string_sub (s : string) (i j : Z) : string :=
  let len := Z.of_nat (String.length s) in
  let i := if i <? 0 then Z.max (len + i + 1) 1 else if i =? 0 then 1 else i in
  let j := if j <? 0 then len + j + 1 else if len <? j then len else j in
  if j <? i then EmptyString
  else String.substring (Z.to_nat (i - 1)) (Z.to_nat (j - i + 1)) s.

(** What a script evaluation sends back. *)
Inductive Reply : Type :=
| RNil
| RStatus (s : string)
| RInt (n : Z)
| RError (msg : string).

(** *** The four scripts; [argv*] are [ARGV[*]], [key] is [KEYS[1]] *)

Definition luaRefresh (now : Z) (key argv1 : string) (argv2 : Z)
    (s : gmap string entry) : gmap string entry * Reply :=
  if bool_decide (GET now key s = Some argv1)
  then let '(s', n) := PEXPIRE now key argv2 s in (s', RInt n)
  else (s, RInt 0).

Definition luaRelease (now : Z) (key argv1 : string)
    (s : gmap string entry) : gmap string entry * Reply :=
  if bool_decide (GET now key s = Some argv1)
  then let '(s', n) := DEL now key s in (s', RInt n)
  else (s, RInt 0).

Definition luaPTTL (now : Z) (key argv1 : string)
    (s : gmap string entry) : gmap string entry * Reply :=
  if bool_decide (GET now key s = Some argv1)
  then (s, RInt (PTTL now key s))
  else (s, RInt (-3)).

Definition luaObtain (now : Z) (key argv1 : string) (argv2 argv3 : Z)
    (s : gmap string entry) : gmap string entry * Reply :=
  match SET now key argv1 true argv3 s with
  | inl msg => (s, RError msg)
  | inr (s', true) => (s', RStatus "OK")
  | inr (_, false) =>
      let offset := argv2 in
      if bool_decide (GETRANGE now key 0 (offset - 1) s = string_sub argv1 1 offset)
      then
        match SET now key argv1 false argv3 s with
        | inl msg => (s, RError msg)
        | inr (s', _) => (s', RStatus "OK")
        end
      else (s, RNil)
  end.

(** *** The Go side *)

(** [Lock]: the embedded [*Client] only carries the connection, which
    is the keyspace threaded through every call. *)
Record Lock : Type := {
  Key : string;
  lvalue : string;     (* field [value] *)
  tokenLen : nat
}.

(** [l.value[:l.tokenLen]] *)
Definition Token (l : Lock) : string :=
  String.substring 0 (tokenLen l) (lvalue l).

(** [l.value[l.tokenLen:]] *)
Definition Metadata (l : Lock) : string :=
  String.substring (tokenLen l) (String.length (lvalue l) - tokenLen l) (lvalue l).

(** [strconv.FormatInt(int64(ttl/time.Millisecond), 10)]: the decimal
    text is read back by the server as the same integer, which is
    what is kept. *)
Definition ttlVal (ttl : Z) : Z := Z.quot ttl 1000000.

Definition TTL (l : Lock) (now : Z) (s : gmap string entry)
    : gmap string entry * (error + Z) :=
  let '(s', res) := luaPTTL (ms_of now) (Key l) (lvalue l) s in
  match res with
  | RNil => (s', inr 0)
  | RError msg => (s', inl (ErrBackend msg))
  | RInt num => if 0 <? num then (s', inr (num * 1000000)) else (s', inr 0)
  | RStatus _ => (s', inr 0)   (* never sent by [luaPTTL] *)
  end.

(** [Refresh] returns [nil] ([None]) or an error. *)
Definition Refresh (l : Lock) (now ttl : Z) (s : gmap string entry)
    : gmap string entry * option error :=
  let '(s', status) := luaRefresh (ms_of now) (Key l) (lvalue l) (ttlVal ttl) s in
  match status with
  | RError msg => (s', Some (ErrBackend msg))
  | RNil => (s', Some (ErrBackend "redis: nil"))
  | RInt 1 => (s', None)
  | _ => (s', Some ErrNotObtained)
  end.

Definition Release (l : Lock) (now : Z) (s : gmap string entry)
    : gmap string entry * option error :=
  let '(s', res) := luaRelease (ms_of now) (Key l) (lvalue l) s in
  match res with
  | RNil => (s', Some ErrLockNotHeld)
  | RError msg => (s', Some (ErrBackend msg))
  | RInt 1 => (s', None)
  | _ => (s', Some ErrLockNotHeld)
  end.

(** [c.randomToken()] *)
Definition randomToken (rnd : option string) : error + string :=
  dblock.RandomToken rnd.

(** [c.obtain(ctx, key, value, tokenLen, ttlVal)] *)
Definition obtain (key val : string) (tokLen : nat) (ttlv : Z)
    (now : Z) (s : gmap string entry) : gmap string entry * (error + bool) :=
  let '(s', res) := luaObtain (ms_of now) key val (Z.of_nat tokLen) ttlv s in
  match res with
  | RNil => (s', inr false)
  | RError msg => (s', inl (ErrBackend msg))
  | _ => (s', inr true)
  end.

(** [if opt == nil { opt = &dblock.Options{} }] *)
Definition orEmpty (opt : option Options) : Options :=
  default {| opt_RetryStrategy := None; dblock.Meta := ""; dblock.Token := "" |} opt.

(** [token := opt.Token; if token == "" { token, err = c.randomToken() }] *)
Definition tokenFor (opt : Options) (rnd : option string) : error + string :=
  if bool_decide (dblock.Token opt = "") then randomToken rnd
  else inr (dblock.Token opt).

(** [Client.Obtain].  [rnd] is the outcome of the random source,
    [tie] Go's choices in [select], [start] the instant of the call.
    [None] would mean that the loop was cut short. *)
Definition Obtain (rnd : option string) (tie : nat -> bool)
    (ctx : context.Context) (start : Z) (key : string) (ttl : Z)
    (opt : option Options) (s : gmap string entry)
    : option ((error + Lock) * acquire.State (gmap string entry)) :=
  let opt := orEmpty opt in
  let s0 := acquire.initial start s in
  match tokenFor opt rnd with
  | inl err => Some (inl err, s0)
  | inr token =>
      let val := token +:+ dblock.Meta opt in
      let ttlv := ttlVal ttl in
      let retry := GetRetryStrategy opt in
      let ctx := acquire.bounded ctx (start + ttl) in
      acquire.run (obtain key val (String.length token) ttlv)
        {| Key := key; lvalue := val; tokenLen := String.length token |}
        retry ctx tie s0
  end.

End redislock.

(** ** Go's UTF-8: ranging over a string, and [string([]rune)] *)

Module utf8.

(** [utf8.RuneError], U+FFFD. *)
Definition RuneError : Z := 65533.

(** The value of a byte. *)
Definition code (c : ascii) : Z := Z.of_N (N_of_ascii c).

(** [byte(x)]: the low eight bits of [x]. *)
Definition byte (x : Z) : ascii :=
  Ascii (Z.testbit x 0) (Z.testbit x 1) (Z.testbit x 2) (Z.testbit x 3)
        (Z.testbit x 4) (Z.testbit x 5) (Z.testbit x 6) (Z.testbit x 7).

Definition within (lo hi x : Z) : bool := (lo <=? x) && (x <=? hi).

(** The table [first] with its [acceptRanges]: for the leading byte of
    a sequence of several bytes, the length of the sequence and the
    range its second byte must lie in. *)
Definition first (c0 : Z) : option (nat * Z * Z) :=
  if within 194 223 c0 then Some (2%nat, 128, 191)
  else if c0 =? 224 then Some (3%nat, 160, 191)
  else if within 225 236 c0 || within 238 239 c0 then Some (3%nat, 128, 191)
  else if c0 =? 237 then Some (3%nat, 128, 159)
  else if c0 =? 240 then Some (4%nat, 144, 191)
  else if within 241 243 c0 then Some (4%nat, 128, 191)
  else if c0 =? 244 then Some (4%nat, 128, 143)
  else None.

Definition rune2 (c0 c1 : Z) : Z :=
  Z.lor (Z.shiftl (Z.land c0 31) 6) (Z.land c1 63).

Definition rune3 (c0 c1 c2 : Z) : Z :=
  Z.lor (Z.lor (Z.shiftl (Z.land c0 15) 12) (Z.shiftl (Z.land c1 63) 6)) (Z.land c2 63).

Definition rune4 (c0 c1 c2 c3 : Z) : Z :=
  Z.lor (Z.lor (Z.lor (Z.shiftl (Z.land c0 7) 18) (Z.shiftl (Z.land c1 63) 12))
           (Z.shiftl (Z.land c2 63) 6)) (Z.land c3 63).

(** [for _, r := range s]: the runes the loop sees.  A byte that
    starts no well-formed sequence yields [RuneError] and the loop
    moves on by that one byte. *)
Fixpoint decode (s : string) : list Z :=
  match s with
  | EmptyString => []
  | String b0 s1 =>
      let c0 := code b0 in
      if c0 <? 128 then c0 :: decode s1
      else
        match first c0, s1 with
        | Some (sz, lo, hi), String b1 s2 =>
            let c1 := code b1 in
            if negb (within lo hi c1) then RuneError :: decode s1
            else
              match sz, s2 with
              | 2%nat, _ => rune2 c0 c1 :: decode s2
              | _, String b2 s3 =>
                  let c2 := code b2 in
                  if negb (within 128 191 c2) then RuneError :: decode s1
                  else
                    match sz, s3 with
                    | 3%nat, _ => rune3 c0 c1 c2 :: decode s3
                    | _, String b3 s4 =>
                        let c3 := code b3 in
                        if negb (within 128 191 c3) then RuneError :: decode s1
                        else rune4 c0 c1 c2 c3 :: decode s4
                    | _, EmptyString => RuneError :: decode s1
                    end
              | _, EmptyString => RuneError :: decode s1
              end
        | _, _ => RuneError :: decode s1
        end
  end.

(** [utf8.AppendRune]: a value that is no Unicode scalar value is
    written as [RuneError]. *)
Definition encodeRune (r : Z) : string :=
  let r := if (r <? 0) || (1114111 <? r) || within 55296 57343 r then RuneError else r in
  if r <? 128 then String (byte r) EmptyString
  else if r <? 2048 then
    String (byte (Z.lor 192 (Z.shiftr r 6)))
      (String (byte (Z.lor 128 (Z.land r 63))) EmptyString)
  else if r <? 65536 then
    String (byte (Z.lor 224 (Z.shiftr r 12)))
      (String (byte (Z.lor 128 (Z.land (Z.shiftr r 6) 63)))
         (String (byte (Z.lor 128 (Z.land r 63))) EmptyString))
  else
    String (byte (Z.lor 240 (Z.shiftr r 18)))
      (String (byte (Z.lor 128 (Z.land (Z.shiftr r 12) 63)))
         (String (byte (Z.lor 128 (Z.land (Z.shiftr r 6) 63)))
            (String (byte (Z.lor 128 (Z.land r 63))) EmptyString))).

(** [string(out)] for [out []rune]. *)
Fixpoint encode (rs : list Z) : string :=
  match rs with
  | [] => EmptyString
  | r :: rs' => encodeRune r +:+ encode rs'
  end.

End utf8.

(** ** Package rdblock: the relational backend *)

Module rdblock.

(** *** Building statement texts *)

Definition quote : ascii := "'"%char.
Definition escape : ascii := "\"%char.

(** The loop of [SingleQuote] over the runes of [s]: what it appends
    to [out]. *)
Fixpoint quoteLoop (rs : list Z) : list Z :=
  match rs with
  | [] => []
  | r :: rs' =>
      if r =? utf8.code quote then utf8.code escape :: r :: quoteLoop rs'
      else r :: quoteLoop rs'
  end.

(** [out := []rune{quote}; for _, r := range s {...}; out = append(out, quote);
    return string(out)] *)
Definition SingleQuote (s : string) : string :=
  utf8.encode ([utf8.code quote] ++ quoteLoop (utf8.decode s) ++ [utf8.code quote]).

(** [strings.ReplaceAll(s, old, new)] for a non-empty [old]: the
    non-overlapping occurrences of [old], leftmost first.  [skip]
    counts the characters of a matched occurrence still to drop. *)
Fixpoint replaceFrom (old new : string) (skip : nat) (s : string) : string :=
  match s with
  | EmptyString => EmptyString
  | String c s' =>
      match skip with
      | S k => replaceFrom old new k s'
      | O =>
          if String.prefix old s
          then new +:+ replaceFrom old new (Nat.pred (String.length old)) s'
          else String c (replaceFrom old new O s')
      end
  end.

Definition ReplaceAll (s old new : string) : string := replaceFrom old new O s.

(** *** The table *)

Record Row : Type := {
  lock_name : string;
  lock_until : Z;
  locked_at : Z;
  locked_by : string;
  token_value : string;
  meta_value : string;
  locked_pid : string
}.

(** The process-wide values the statements embed: [Hostname], [Pid],
    and [time.Time.Format(time.RFC3339Nano)].  A time is kept in a row
    as the instant it denotes; [ReadTime] is how the database reads the
    text of a time out of a statement, [None] for a text it does not
    take for a time. *)
Record Env : Type := {
  Hostname : string;
  Pid : string;
  Format : Z -> string;
  ReadTime : string -> option Z
}.

(** What the database makes of a statement text. *)
Inductive Sem : Type :=
| SemInsert (r : Row)
  (* INSERT INTO t (...) VALUES (...) *)
| SemClaim (name : string) (bound : Z) (r : Row)
  (* UPDATE t SET <all but lock_name> WHERE lock_name = name AND lock_until <= bound *)
| SemSetUntil (until : Z) (name token : string)
  (* UPDATE t SET lock_until = until WHERE lock_name = name AND token_value = token *)
| SemSelect (name token : string)
  (* SELECT ... FROM t WHERE lock_name = name AND token_value = token *)
| SemError (msg : string).
  (* a text the database rejects *)

(** A call of the [DB] interface: the query text and the bound
    arguments ([args ...any]); [sem] is what the database reads the
    text as. *)
Record Query : Type := {
  text : string;
  args : list string;
  sem : Sem
}.

(** *** The database reading a statement

    The database gets a text and nothing else.  It is modelled as far
    as the four statements of this package go: it reads a text that has
    the shape of one of them, with any string literals in the places of
    the values, and rejects every other text.  String literals are read
    by the rules of MySQL, for which [SingleQuote] is written: the
    literal ends at the first quote that is neither doubled nor behind
    a backslash, a doubled quote stands for one quote, a backslash
    with the character behind it for what [unescape] gives. *)

Definition unescape (c : ascii) : string :=
  if Ascii.eqb c "0" then String "000" EmptyString
  else if Ascii.eqb c "b" then String "008" EmptyString
  else if Ascii.eqb c "n" then String "010" EmptyString
  else if Ascii.eqb c "r" then String "013" EmptyString
  else if Ascii.eqb c "t" then String "009" EmptyString
  else if Ascii.eqb c "Z" then String "026" EmptyString
  else if Ascii.eqb c "%" then String escape (String c EmptyString)
  else if Ascii.eqb c "_" then String escape (String c EmptyString)
  else String c EmptyString.

(** The literal whose opening quote has been read: its value and the
    text behind its closing quote. *)
Fixpoint literalBody (s : string) : option (string * string) :=
  match s with
  | EmptyString => None
  | String c s1 =>
      if Ascii.eqb c escape then
        match s1 with
        | EmptyString => None
        | String d s2 =>
            match literalBody s2 with
            | Some (v, rest) => Some (unescape d +:+ v, rest)
            | None => None
            end
        end
      else if Ascii.eqb c quote then
        match s1 with
        | EmptyString => Some (EmptyString, EmptyString)
        | String d s2 =>
            if Ascii.eqb d quote then
              match literalBody s2 with
              | Some (v, rest) => Some (String quote v, rest)
              | None => None
              end
            else Some (EmptyString, s1)
        end
      else
        match literalBody s1 with
        | Some (v, rest) => Some (String c v, rest)
        | None => None
        end
  end.

Definition literal (s : string) : option (string * string) :=
  match s with
  | EmptyString => None
  | String c s1 => if Ascii.eqb c quote then literalBody s1 else None
  end.

(** The text behind the fixed text [kw], if [s] starts with it. *)
Fixpoint keyword (kw s : string) : option string :=
  match kw with
  | EmptyString => Some s
  | String a kw' =>
      match s with
      | EmptyString => None
      | String b s' => if Ascii.eqb a b then keyword kw' s' else None
      end
  end.

(** Characters of a table name written without quotes. *)
Definition isIdent (c : ascii) : bool :=
  let n := utf8.code c in
  utf8.within 97 122 n || utf8.within 65 90 n || utf8.within 48 57 n
  || (n =? 95) || (n =? 36).

Fixpoint identBody (s : string) : string * string :=
  match s with
  | EmptyString => (EmptyString, EmptyString)
  | String c s' =>
      if isIdent c then let '(i, rest) := identBody s' in (String c i, rest)
      else (EmptyString, s)
  end.

Definition ident (s : string) : option (string * string) :=
  match identBody s with
  | (EmptyString, _) => None
  | p => Some p
  end.

Definition atEnd (s : string) : option unit :=
  match s with
  | EmptyString => Some tt
  | String _ _ => None
  end.

Definition syntaxError : Sem := SemError "You have an error in your SQL syntax".

(** Behind [select ... from ]. *)
Definition readSelect (s : string) : option Sem :=
  '(_, s) ← ident s;
  s ← keyword " WHERE lock_name = " s;
  '(name, s) ← literal s;
  s ← keyword " AND token_value = " s;
  '(token, s) ← literal s;
  _ ← atEnd s;
  Some (SemSelect name token).

(** A query: no time is read. *)
Definition readQuery (s : string) : Sem :=
  default syntaxError
    (s ← keyword "select lock_until, locked_at, locked_by, token_value, meta_value, locked_pid from " s;
     readSelect s).

Section Reading.
Variable env : Env.

(** Behind [INSERT INTO ]. *)
Definition readInsert (s : string) : option Sem :=
  '(_, s) ← ident s;
  s ← keyword " (lock_name, lock_until, locked_at, locked_by, token_value, meta_value, locked_pid) VALUES (" s;
  '(name, s) ← literal s;
  s ← keyword ", " s;
  '(until, s) ← literal s;
  s ← keyword ", " s;
  '(lockedAt, s) ← literal s;
  s ← keyword ", " s;
  '(lockedBy, s) ← literal s;
  s ← keyword ", " s;
  '(token, s) ← literal s;
  s ← keyword ", " s;
  '(meta, s) ← literal s;
  s ← keyword ", " s;
  '(pid, s) ← literal s;
  s ← keyword ")" s;
  _ ← atEnd s;
  until ← ReadTime env until;
  lockedAt ← ReadTime env lockedAt;
  Some (SemInsert {| lock_name := name; lock_until := until; locked_at := lockedAt;
                     locked_by := lockedBy; token_value := token;
                     meta_value := meta; locked_pid := pid |}).

(** Behind [UPDATE t SET lock_until = 'until', locked_at = ]. *)
Definition readClaim (until s : string) : option Sem :=
  '(lockedAt, s) ← literal s;
  s ← keyword ", locked_by = " s;
  '(lockedBy, s) ← literal s;
  s ← keyword ", token_value = " s;
  '(token, s) ← literal s;
  s ← keyword ", meta_value = " s;
  '(meta, s) ← literal s;
  s ← keyword ", locked_pid = " s;
  '(pid, s) ← literal s;
  s ← keyword " WHERE lock_name = " s;
  '(name, s) ← literal s;
  s ← keyword " AND lock_until <= " s;
  '(bound, s) ← literal s;
  _ ← atEnd s;
  until ← ReadTime env until;
  lockedAt ← ReadTime env lockedAt;
  bound ← ReadTime env bound;
  Some (SemClaim name bound
          {| lock_name := name; lock_until := until; locked_at := lockedAt;
             locked_by := lockedBy; token_value := token;
             meta_value := meta; locked_pid := pid |}).

(** Behind [UPDATE t SET lock_until = 'until' WHERE lock_name = ]. *)
Definition readSetUntil (until s : string) : option Sem :=
  '(name, s) ← literal s;
  s ← keyword " AND token_value = " s;
  '(token, s) ← literal s;
  _ ← atEnd s;
  until ← ReadTime env until;
  Some (SemSetUntil until name token).

(** Behind [UPDATE ]. *)
Definition readUpdate (s : string) : option Sem :=
  '(_, s) ← ident s;
  s ← keyword " SET lock_until = " s;
  '(until, s) ← literal s;
  match keyword ", locked_at = " s with
  | Some s => readClaim until s
  | None => s ← keyword " WHERE lock_name = " s; readSetUntil until s
  end.

Definition readSQL (s : string) : Sem :=
  match keyword "INSERT INTO " s with
  | Some s => default syntaxError (readInsert s)
  | None =>
      match keyword "UPDATE " s with
      | Some s => default syntaxError (readUpdate s)
      | None => readQuery s
      end
  end.

End Reading.

(** *** The database running a statement *)

(** Column values are compared byte for byte. *)
Definition named (name : string) (r : Row) : bool :=
  bool_decide (lock_name r = name).

Definition owned (name token : string) (r : Row) : bool :=
  named name r && bool_decide (token_value r = token).

Definition claimable (name : string) (bound : Z) (r : Row) : bool :=
  named name r && (lock_until r <=? bound).

Definition count (p : Row -> bool) (t : list Row) : Z :=
  Z.of_nat (length (filter (fun r => p r = true) t)).

Definition setUntil (until : Z) (r : Row) : Row :=
  {| lock_name := lock_name r; lock_until := until; locked_at := locked_at r;
     locked_by := locked_by r; token_value := token_value r;
     meta_value := meta_value r; locked_pid := locked_pid r |}.

Definition setClaim (new : Row) (r : Row) : Row :=
  {| lock_name := lock_name r; lock_until := lock_until new;
     locked_at := locked_at new; locked_by := locked_by new;
     token_value := token_value new; meta_value := meta_value new;
     locked_pid := locked_pid new |}.

(** [db.ExecContext]: the database reads the text; the result is the
    new table and the rows affected, or the error of the database.
    [lock_name] is the primary key, so an INSERT for a name already
    present is rejected.  Rows affected are the rows the WHERE clause
    matches. *)
Definition ExecContext (env : Env) (t : list Row) (q : Query) : list Row * (string + Z) :=
  match readSQL env (text q) with
  | SemInsert r =>
      if existsb (named (lock_name r)) t
      then (t, inl "duplicate key")
      else (t ++ [r], inr 1)
  | SemClaim name bound r =>
      (map (fun x => if claimable name bound x then setClaim r x else x) t,
       inr (count (claimable name bound) t))
  | SemSetUntil until name token =>
      (map (fun x => if owned name token x then setUntil until x else x) t,
       inr (count (owned name token) t))
  | SemSelect _ _ => (t, inr 0)
  | SemError msg => (t, inl msg)
  end.

(** [db.QueryRowContext] followed by [row.Scan]: the database reads
    the text as a query; the result is the first row, [None] for
    [sql.ErrNoRows], or the error of the database. *)
Definition QueryRowContext (t : list Row) (q : Query) : string + option Row :=
  match readQuery (text q) with
  | SemSelect name token => inr (List.find (owned name token) t)
  | SemError msg => inl msg
  | _ => inr None
  end.

(** *** The Go side *)

Record shedLock : Type := {
  Table : string;
  Name : string;
  At : Z;
  Until : Z;
  By : string;
  shToken : string;   (* field [Token] *)
  Meta : string;
  shPid : string      (* field [Pid] *)
}.

Definition mkShedLock (table name : string) (until : Z) (token meta : string)
    : shedLock :=
  {| Table := table; Name := name; At := 0; Until := until; By := "";
     shToken := token; Meta := meta; shPid := "" |}.

Section Statements.
Variable env : Env.

(** The row an INSERT or a claiming UPDATE is meant to write at [now]. *)
Definition rowOf (now : Z) (l : shedLock) : Row :=
  {| lock_name := Name l; lock_until := Until l; locked_at := now;
     locked_by := Hostname env; token_value := shToken l;
     meta_value := Meta l; locked_pid := Pid env |}.

Definition queryText (l : shedLock) : string :=
  let s := "select lock_until, locked_at, locked_by, token_value, meta_value, locked_pid from {Table} " +:+
           "WHERE lock_name = {Name} AND token_value = {Token}" in
  let s := ReplaceAll s "{Table}" (Table l) in
  let s := ReplaceAll s "{Name}" (SingleQuote (Name l)) in
  let s := ReplaceAll s "{Token}" (SingleQuote (shToken l)) in
  s.

Definition insertText (now : Z) (l : shedLock) : string :=
  let s := "INSERT INTO {Table} (lock_name, lock_until, locked_at, locked_by, token_value, meta_value, locked_pid) " +:+
           "VALUES ({Name}, {Until}, {At}, {By}, {Token}, {Meta}, {LockedPid})" in
  let s := ReplaceAll s "{Table}" (Table l) in
  let s := ReplaceAll s "{Name}" (SingleQuote (Name l)) in
  let s := ReplaceAll s "{Until}" (SingleQuote (Format env (Until l))) in
  let s := ReplaceAll s "{At}" (SingleQuote (Format env now)) in
  let s := ReplaceAll s "{By}" (SingleQuote (Hostname env)) in
  let s := ReplaceAll s "{Token}" (SingleQuote (shToken l)) in
  let s := ReplaceAll s "{Meta}" (SingleQuote (Meta l)) in
  let s := ReplaceAll s "{LockedPid}" (SingleQuote (Pid env)) in
  s.

Definition updateText (now : Z) (l : shedLock) : string :=
  let s := "UPDATE {Table} SET lock_until = {Until}, " +:+
           "locked_at = {At}, locked_by = {By}, " +:+
           "token_value = {Token}, meta_value = {Meta}, locked_pid = {LockedPid} " +:+
           "WHERE lock_name = {Name} AND lock_until <= {Until}" in
  let s := ReplaceAll s "{Table}" (Table l) in
  let s := ReplaceAll s "{Name}" (SingleQuote (Name l)) in
  let s := ReplaceAll s "{Until}" (SingleQuote (Format env (Until l))) in
  let s := ReplaceAll s "{At}" (SingleQuote (Format env now)) in
  let s := ReplaceAll s "{By}" (SingleQuote (Hostname env)) in
  let s := ReplaceAll s "{Token}" (SingleQuote (shToken l)) in
  let s := ReplaceAll s "{Meta}" (SingleQuote (Meta l)) in
  let s := ReplaceAll s "{LockedPid}" (SingleQuote (Pid env)) in
  s.

(** The text of [extend] and of [unlock]. *)
Definition extendText (l : shedLock) : string :=
  let s := "UPDATE {Table} SET lock_until = {Until} " +:+
           "WHERE lock_name = {Name} AND token_value = {Token}" in
  let s := ReplaceAll s "{Table}" (Table l) in
  let s := ReplaceAll s "{Name}" (SingleQuote (Name l)) in
  let s := ReplaceAll s "{Until}" (SingleQuote (Format env (Until l))) in
  let s := ReplaceAll s "{Token}" (SingleQuote (shToken l)) in
  s.

(** The statements as handed to the [DB]: the text after the
    [ReplaceAll] passes, no bound arguments. *)
Definition queryStmt (l : shedLock) : Query :=
  let s := queryText l in
  {| text := s; args := []; sem := readQuery s |}.

Definition insertStmt (now : Z) (l : shedLock) : Query :=
  let s := insertText now l in
  {| text := s; args := []; sem := readSQL env s |}.

Definition updateStmt (now : Z) (l : shedLock) : Query :=
  let s := updateText now l in
  {| text := s; args := []; sem := readSQL env s |}.

Definition extendStmt (l : shedLock) : Query :=
  let s := extendText l in
  {| text := s; args := []; sem := readSQL env s |}.

(** [(l *shedLock) query]: the lock as filled by [Scan], and
    whether a row was found. *)
Definition query (l : shedLock) (db : list Row) : shedLock * (error + bool) :=
  match QueryRowContext db (queryStmt l) with
  | inl msg => (l, inl (ErrBackend msg))
  | inr None => (l, inr false)
  | inr (Some r) =>
      ({| Table := Table l; Name := Name l; At := locked_at r;
          Until := lock_until r; By := locked_by r; shToken := token_value r;
          Meta := meta_value r; shPid := locked_pid r |}, inr true)
  end.

Definition insert (now : Z) (l : shedLock) (db : list Row) : list Row * bool :=
  match ExecContext env db (insertStmt now l) with
  | (db', inr _) => (db', true)
  | (db', inl _) => (db', false)
  end.

Definition update (now : Z) (l : shedLock) (db : list Row)
    : list Row * (error + bool) :=
  match ExecContext env db (updateStmt now l) with
  | (db', inl msg) => (db', inl (ErrBackend msg))
  | (db', inr rowsAffected) => (db', inr (0 <? rowsAffected))
  end.

Definition extend (l : shedLock) (db : list Row) : list Row * (error + bool) :=
  match ExecContext env db (extendStmt l) with
  | (db', inl msg) => (db', inl (ErrBackend msg))
  | (db', inr rowsAffected) => (db', inr (0 <? rowsAffected))
  end.

(** [unlock] first sets [l.Until] to one second ago. *)
Definition unlock (now : Z) (l : shedLock) (db : list Row)
    : list Row * (error + bool) :=
  let l := {| Table := Table l; Name := Name l; At := At l;
              Until := now - 1000000000; By := By l; shToken := shToken l;
              Meta := Meta l; shPid := shPid l |} in
  match ExecContext env db (extendStmt l) with
  | (db', inl msg) => (db', inl (ErrBackend msg))
  | (db', inr rowsAffected) => (db', inr (0 <? rowsAffected))
  end.

Record Client : Type := { cTable : string }.   (* field [Table] *)

Record Lock : Type := {
  lClient : Client;    (* the embedded [*Client] *)
  Key : string;
  token : string;
  metadata : string;
  lUntil : Z           (* field [Until] *)
}.

Definition Token (l : Lock) : string := token l.
Definition Metadata (l : Lock) : string := metadata l.

(** [c.obtain(ctx, key, token, meta, lockUntil)] *)
Definition obtain (c : Client) (key tok meta : string) (lockUntil : Z)
    (now : Z) (db : list Row) : list Row * (error + bool) :=
  let sh := mkShedLock (cTable c) key lockUntil tok meta in
  match insert now sh db with
  | (db', true) => (db', inr true)
  | (db', false) => update now sh db'
  end.

(** [Lock.TTL]: the handle (its [Until] refreshed when the row is
    found) and the remaining time. *)
Definition TTL (l : Lock) (now : Z) (db : list Row) : Lock * (error + Z) :=
  let sh := mkShedLock (cTable (lClient l)) (Key l) 0 (token l) "" in
  match query sh db with
  | (_, inl err) => (l, inl err)
  | (_, inr false) => (l, inr 0)
  | (sh', inr true) =>
      let l' := {| lClient := lClient l; Key := Key l; token := token l;
                   metadata := metadata l; lUntil := Until sh' |} in
      let ttl := Until sh' - now in
      if 0 <? ttl then (l', inr ttl) else (l', inr 0)
  end.

Definition Refresh (l : Lock) (now ttl : Z) (db : list Row)
    : list Row * option error :=
  let sh := mkShedLock (cTable (lClient l)) (Key l) (now + ttl) (token l) "" in
  match extend sh db with
  | (db', inl err) => (db', Some err)
  | (db', inr true) => (db', None)
  | (db', inr false) => (db', Some ErrNotObtained)
  end.

Definition Release (l : Lock) (now : Z) (db : list Row)
    : list Row * option error :=
  let sh := mkShedLock (cTable (lClient l)) (Key l) 0 (token l) "" in
  match unlock now sh db with
  | (db', inl err) => (db', Some err)
  | (db', inr false) => (db', Some ErrLockNotHeld)
  | (db', inr true) => (db', None)
  end.

(** [token := opt.Token; if token == "" { token, err = dblock.RandomToken() }] *)
Definition tokenFor (opt : Options) (rnd : option string) : error + string :=
  if bool_decide (dblock.Token opt = "") then dblock.RandomToken rnd
  else inr (dblock.Token opt).

(** [for _, f := range optionsFns { f(opt) }] on an empty [Options]. *)
Definition applyOptions (optionsFns : list (Options -> Options)) : Options :=
  foldl (fun o f => f o)
    {| opt_RetryStrategy := None; dblock.Meta := ""; dblock.Token := "" |}
    optionsFns.

(** [if c.Table == "" { c.Table = "shedlock" }] *)
Definition withTable (c : Client) : Client :=
  if bool_decide (cTable c = "") then {| cTable := "shedlock" |} else c.

(** [Client.Obtain].  The options are functions applied in turn to
    an empty [Options]; an empty [Table] becomes "shedlock". *)
Definition Obtain (rnd : option string) (tie : nat -> bool)
    (c : Client) (ctx : context.Context) (start : Z) (key : string) (ttl : Z)
    (optionsFns : list (Options -> Options)) (db : list Row)
    : option ((error + Lock) * acquire.State (list Row)) :=
  let opt := applyOptions optionsFns in
  let c := withTable c in
  let s0 := acquire.initial start db in
  match tokenFor opt rnd with
  | inl err => Some (inl err, s0)
  | inr tok =>
      let retry := GetRetryStrategy opt in
      let lockUntil := start + ttl in
      let ctx := acquire.bounded ctx lockUntil in
      acquire.run (obtain c key tok (dblock.Meta opt) lockUntil)
        {| lClient := c; Key := key; token := tok;
           metadata := dblock.Meta opt; lUntil := lockUntil |}
        retry ctx tie s0
  end.

End Statements.

End rdblock.

(** ** util.go: the random token *)

Module util.

(** The alphabet of [base64.RawURLEncoding]. *)
Definition encodeURL : string :=
  "ABCDEFGHIJKLMNOPQRSTUVWXYZabcdefghijklmnopqrstuvwxyz0123456789-_".

(** [enc.encode[v]] *)
Definition encodeChar (v : Z) : ascii :=
  default "A"%char (String.get (Z.to_nat v) encodeURL).

(** [base64.RawURLEncoding.EncodeToString(src)], bytes as integers:
    three bytes make the 24-bit [val] and four characters; a rest of
    one or two bytes makes two or three characters, without padding. *)
Fixpoint EncodeToString (src : list Z) : string :=
  match src with
  | [] => EmptyString
  | [a] =>
      let val := Z.shiftl a 16 in
      String (encodeChar (Z.land (Z.shiftr val 18) 63))
        (String (encodeChar (Z.land (Z.shiftr val 12) 63)) EmptyString)
  | [a; b] =>
      let val := Z.lor (Z.shiftl a 16) (Z.shiftl b 8) in
      String (encodeChar (Z.land (Z.shiftr val 18) 63))
        (String (encodeChar (Z.land (Z.shiftr val 12) 63))
           (String (encodeChar (Z.land (Z.shiftr val 6) 63)) EmptyString))
  | a :: b :: c :: rest =>
      let val := Z.lor (Z.lor (Z.shiftl a 16) (Z.shiftl b 8)) c in
      String (encodeChar (Z.land (Z.shiftr val 18) 63))
        (String (encodeChar (Z.land (Z.shiftr val 12) 63))
           (String (encodeChar (Z.land (Z.shiftr val 6) 63))
              (String (encodeChar (Z.land val 63)) (EncodeToString rest))))
  end.

(** [RandomToken(tmp)]: [io.ReadFull(rand.Reader, tmp)] either fails
    ([None]) or fills [tmp] with the bytes read ([Some tmp]), which are
    then encoded. *)
Definition RandomToken (read : option (list Z)) : error + string :=
  match read with
  | None => inl ErrRandom
  | Some tmp => inr (EncodeToString tmp)
  end.

End util.

(** No character of [s] is a single quote. *)
Fixpoint quoteFree (s : string) : bool :=
  match s with
  | EmptyString => true
  | String c s' => negb (Ascii.eqb c rdblock.quote) && quoteFree s'
  end.

(** ** Strings without a placeholder *)

(** No character of [s] is an opening brace, so no placeholder of a
    statement template starts in [s]. *)
Fixpoint braceFree (s : string) : bool :=
  match s with
  | EmptyString => true
  | String c s' => negb (Ascii.eqb c "{"%char) && braceFree s'
  end.

(** ** Values that a statement text carries unchanged *)

(** [s] has no byte [a]. *)
Fixpoint lacks (a : ascii) (s : string) : bool :=
  match s with
  | EmptyString => true
  | String c s' => negb (Ascii.eqb c a) && lacks a s'
  end.

(** Every byte of [s] is below 128. *)
Fixpoint isASCII (s : string) : bool :=
  match s with
  | EmptyString => true
  | String c s' => (utf8.code c <? 128) && isASCII s'
  end.

(** [SingleQuote] read byte by byte, behind the opening quote: a
    backslash before every quote, and the closing quote.  On ASCII
    strings this is what [SingleQuote] does (lemma [SingleQuote_ASCII]). *)
Fixpoint quoteBytes (s : string) : string :=
  match s with
  | EmptyString => String rdblock.quote EmptyString
  | String r s' =>
      if Ascii.eqb r rdblock.quote
      then String rdblock.escape (String r (quoteBytes s'))
      else String r (quoteBytes s')
  end.

(** ASCII without quote, backslash and opening brace: such a value is
    not touched by a later [ReplaceAll], [SingleQuote] only wraps it,
    and a database reads the literal as the value, whatever its rules
    for escapes. *)
Definition plainChar (c : ascii) : bool :=
  (utf8.code c <? 128) && negb (Ascii.eqb c rdblock.quote)
  && negb (Ascii.eqb c rdblock.escape) && negb (Ascii.eqb c "{"%char).

Fixpoint plain (s : string) : bool :=
  match s with
  | EmptyString => true
  | String c s' => plainChar c && plain s'
  end.

Fixpoint allIdent (s : string) : bool :=
  match s with
  | EmptyString => true
  | String c s' => rdblock.isIdent c && allIdent s'
  end.

(** A table name the database reads as one name. *)
Definition identifier (s : string) : bool :=
  match s with
  | EmptyString => false
  | String _ _ => allIdent s
  end.

(** The text [Format] gives for the instant [t] is plain and the
    database reads it back as [t]. *)
Definition readable (env : rdblock.Env) (t : Z) : Prop :=
  plain (rdblock.Format env t) = true /\
  rdblock.ReadTime env (rdblock.Format env t) = Some t.

(** Host name and process id are plain. *)
Definition tidy (env : rdblock.Env) : Prop :=
  plain (rdblock.Hostname env) = true /\ plain (rdblock.Pid env) = true.

(** A handle whose statements carry its key and token unchanged: the
    table name is an identifier, key and token are plain. *)
Definition plainLock (l : rdblock.Lock) : Prop :=
  identifier (rdblock.cTable (rdblock.lClient l)) = true /\
  plain (rdblock.Key l) = true /\
  plain (rdblock.token l) = true.

(** The same for an [obtain]: everything its INSERT and its UPDATE
    embed is plain, and the database reads back the two times. *)
Definition plainObtain (env : rdblock.Env) (c : rdblock.Client)
    (key tok meta : string) (until now : Z) : Prop :=
  tidy env /\
  identifier (rdblock.cTable c) = true /\
  plain key = true /\ plain tok = true /\ plain meta = true /\
  readable env until /\ readable env now.

(** ** Small stores used as examples *)

Module sample.

(** A process on "host" with pid 42.  Its clock counts from an epoch
    of its own, and a time is written as the decimal number of its
    nanoseconds, which the database reads back; the layout of
    RFC 3339 plays no part in any statement. *)
Definition env : rdblock.Env :=
  {| rdblock.Hostname := "host"; rdblock.Pid := "42";
     rdblock.Format := fun t => NilZero.string_of_int (Z.to_int t);
     rdblock.ReadTime := fun s => Z.of_int <$> NilZero.int_of_string s |}.

Definition client : rdblock.Client := {| rdblock.cTable := "shedlock" |}.

Definition rowA (until : Z) : rdblock.Row :=
  {| rdblock.lock_name := "k3"; rdblock.lock_until := until;
     rdblock.locked_at := 0; rdblock.locked_by := "host";
     rdblock.token_value := "A"; rdblock.meta_value := "";
     rdblock.locked_pid := "42" |}.

(** The table after caller A obtained "k3" until instant 100. *)
Definition held : list rdblock.Row := [rowA 100].

(** The same table after A released at [t]. *)
Definition released (t : Z) : list rdblock.Row := [rowA (t - 1000000000)].

Definition lockA : rdblock.Lock :=
  {| rdblock.lClient := client; rdblock.Key := "k3"; rdblock.token := "A";
     rdblock.metadata := ""; rdblock.lUntil := 100 |}.

(** A keyspace in which "k" is held with token "A" until millisecond 1000. *)
Definition kvHeld : gmap string redislock.entry :=
  {[ "k" := {| redislock.value := "Am"; redislock.expire_at := Some 1000 |} ]}.


(** Options with a fixed token and a metadata string that contains the
    characters the statements and templates reserve. *)
Definition optM : Options :=
  {| opt_RetryStrategy := None; dblock.Meta := "it's {m}"; dblock.Token := "tok" |}.

(** A strategy that always waits ten nanoseconds. *)
Definition everyTen : RetryStrategy := {| NextBackoff := fun _ => 10 |}.

Definition optB : Options :=
  {| opt_RetryStrategy := Some everyTen; dblock.Meta := "m"; dblock.Token := "B" |}.

(** A context with deadline 100 that its owner cancels at instant 5. *)
Definition ctxCancelled : context.Context :=
  {| context.Deadline := Some 100; context.cancel_at := Some 5 |}.

End sample.

(** The handle after [TTL] has read [until] from the row. *)
Definition withUntil (l : rdblock.Lock) (until : Z) : rdblock.Lock :=
  {| rdblock.lClient := rdblock.lClient l; rdblock.Key := rdblock.Key l;
     rdblock.token := rdblock.token l; rdblock.metadata := rdblock.metadata l;
     rdblock.lUntil := until |}.

(** ** More example data *)

Module fixture.

(** The handle of the caller that holds "k" in [sample.kvHeld]. *)
Definition kvLockA : redislock.Lock :=
  {| redislock.Key := "k"; redislock.lvalue := "Am"; redislock.tokenLen := 1 |}.

(** The handle of caller B for "k3" in the relational backend. *)
Definition lockB : rdblock.Lock :=
  {| rdblock.lClient := sample.client; rdblock.Key := "k3"; rdblock.token := "B";
     rdblock.metadata := ""; rdblock.lUntil := 300 |}.

(** Sixteen bytes as the random source may deliver them. *)
Definition entropy : list Z := [255; 255; 254; 251; 240; 0; 1; 2; 3; 4; 5; 6; 7; 8; 9; 10].

End fixture.

(** * Properties *)

(** ** Byte strings *)

Lemma length_append (a b : string) :
  String.length (a +:+ b) = (String.length a + String.length b)%nat.
Proof. induction a as [|c a IH]; simpl; [done | by rewrite IH]. Qed.

Lemma substring_prefix_append (a b : string) :
  String.substring 0 (String.length a) (a +:+ b) = a.
Proof. induction a as [|c a IH]; simpl; [by destruct b | by rewrite IH]. Qed.

Lemma substring_all (b : string) :
  String.substring 0 (String.length b) b = b.
Proof. induction b as [|c b IH]; simpl; [done | by rewrite IH]. Qed.

Lemma substring_suffix_append (a b : string) :
  String.substring (String.length a) (String.length b) (a +:+ b) = b.
Proof.
  induction a as [|c a IH]; [apply substring_all | exact IH].
Qed.

(** Taking more than there is takes everything there is. *)
Lemma substring_clamp (n : nat) (v : string) :
  String.substring 0 (Nat.min n (String.length v)) v = String.substring 0 n v.
Proof.
  revert n; induction v as [|c v IH]; intros [|n]; simpl; try done.
  by rewrite IH.
Qed.

(** ** The key-value backend: what the obtain script does *)

Lemma string_sub_token (tok meta : string) :
  tok ≠ EmptyString ->
  redislock.string_sub (tok +:+ meta) 1 (Z.of_nat (String.length tok)) = tok.
Proof.
  intros Hne. unfold redislock.string_sub.
  rewrite length_append.
  assert (0 < String.length tok)%nat by (destruct tok; simpl; [done | lia]).
  replace (1 <? 0) with false by done.
  replace (1 =? 0) with false by done.
  destruct (Z.ltb_spec (Z.of_nat (String.length tok)) 0); [lia|].
  destruct (Z.ltb_spec (Z.of_nat (String.length tok + String.length meta))
              (Z.of_nat (String.length tok))); [lia|].
  destruct (Z.ltb_spec (Z.of_nat (String.length tok)) 1); [lia|].
  replace (Z.to_nat (1 - 1)) with 0%nat by lia.
  replace (Z.to_nat (Z.of_nat (String.length tok) - 1 + 1))
    with (String.length tok) by lia.
  apply substring_prefix_append.
Qed.

Lemma GETRANGE_head (now : Z) (key : string) (n : nat) (s : gmap string redislock.entry)
    (v : string) :
  redislock.GET now key s = Some v ->
  (0 < n)%nat ->
  redislock.GETRANGE now key 0 (Z.of_nat n - 1) s = String.substring 0 n v.
Proof.
  intros Hget Hn. unfold redislock.GETRANGE. rewrite Hget. simpl.
  replace (0 <? 0) with false by done. simpl.
  destruct (Z.ltb_spec (Z.of_nat n - 1) 0); [lia|].
  destruct (Z.leb_spec (Z.of_nat (String.length v)) (Z.of_nat n - 1)).
  - destruct (Z.eqb_spec (Z.of_nat (String.length v)) 0) as [Hv|Hv].
    + rewrite orb_true_r. destruct v; [by destruct n | simpl in Hv; lia].
    + destruct (Z.ltb_spec (Z.of_nat (String.length v) - 1) 0); [lia|]. simpl.
      replace (Z.to_nat (Z.of_nat (String.length v) - 1 - 0 + 1))
        with (Nat.min n (String.length v)) by lia.
      apply substring_clamp.
  - destruct (Z.eqb_spec (Z.of_nat (String.length v)) 0) as [Hv|Hv]; [lia|].
    destruct (Z.ltb_spec (Z.of_nat n - 1) 0); [lia|]. simpl.
    by replace (Z.to_nat (Z.of_nat n - 1 - 0 + 1)) with n by lia.
Qed.

Lemma GET_find (now : Z) (key : string) (s : gmap string redislock.entry) (e : redislock.entry) :
  redislock.find now key s = Some e -> redislock.GET now key s = Some (redislock.value e).
Proof. intros H. unfold redislock.GET. by rewrite H. Qed.

Lemma obtain_absent (key val : string) (n : nat) (ttlv now : Z)
    (s : gmap string redislock.entry) :
  1 <= ttlv ->
  redislock.find (redislock.ms_of now) key s = None ->
  redislock.obtain key val n ttlv now s =
    (<[key := {| redislock.value := val;
                 redislock.expire_at := Some (redislock.ms_of now + ttlv) |}]> s,
     inr true).
Proof.
  intros Httl Hnone.
  unfold redislock.obtain, redislock.luaObtain, redislock.SET.
  destruct (Z.leb_spec ttlv 0); [lia|].
  rewrite Hnone. rewrite bool_decide_eq_false_2 by (by intros [? ?]).
  done.
Qed.

Lemma obtain_present (key tok meta : string) (ttlv now : Z)
    (s : gmap string redislock.entry) (e : redislock.entry) :
  1 <= ttlv ->
  tok ≠ EmptyString ->
  redislock.find (redislock.ms_of now) key s = Some e ->
  redislock.obtain key (tok +:+ meta) (String.length tok) ttlv now s =
    if bool_decide (String.substring 0 (String.length tok) (redislock.value e) = tok)
    then (<[key := {| redislock.value := tok +:+ meta;
                      redislock.expire_at := Some (redislock.ms_of now + ttlv) |}]> s,
          inr true)
    else (s, inr false).
Proof.
  intros Httl Hne Hsome.
  assert (0 < String.length tok)%nat by (destruct tok; simpl; [done | lia]).
  unfold redislock.obtain, redislock.luaObtain, redislock.SET.
  destruct (Z.leb_spec ttlv 0); [lia|].
  rewrite Hsome. rewrite bool_decide_eq_true_2 by eauto.
  simpl.
  rewrite (GETRANGE_head _ _ _ _ _ (GET_find _ _ _ _ Hsome)) by done.
  rewrite string_sub_token by done.
  by case_bool_decide.
Qed.

(** ** The acquisition loop *)

Section LoopFacts.
Context {Store Lock : Type}.
Variable attempt : Z -> Store -> Store * (error + bool).
Variable lock : Lock.
Variable retry : RetryStrategy.
Variable ctx : context.Context.
Variable tie : nat -> bool.

Local Abbreviation iter := (acquire.iter attempt lock retry ctx tie).
Local Abbreviation loop := (acquire.loop attempt lock retry ctx tie).
Local Abbreviation run := (acquire.run attempt lock retry ctx tie).

(** A sleep that the ticker ends moves the clock forward, and not
    past the instant the context is done. *)
Lemma select_tick (now backoff : Z) (b : bool) (t : Z) :
  1 <= backoff ->
  acquire.select ctx now backoff b = acquire.Tick t ->
  t = now + backoff /\
  forall d, context.done_at ctx = Some d -> t <= d.
Proof.
  unfold acquire.select. intros Hb.
  destruct (context.done_at ctx) as [d|].
  - destruct (Z.ltb_spec d (now + backoff)); [done|].
    destruct (Z.ltb_spec (now + backoff) d).
    + intros [= <-]. split; [done|]. intros ? [= <-]. lia.
    + destruct b; [|done]. intros [= <-]. split; [done|]. intros ? [= <-]. lia.
  - intros [= <-]. split; [done|]. done.
Qed.


(** The signal comes first: the [select] takes [ctx.Done()]. *)
Lemma select_interrupted (now backoff d : Z) (b : bool) :
  context.done_at ctx = Some d ->
  d < now + backoff ->
  acquire.select ctx now backoff b = acquire.Done (Z.max now d).
Proof.
  intros Hd Hlt. unfold acquire.select. rewrite Hd.
  by destruct (Z.ltb_spec d (now + backoff)); [|lia].
Qed.

Lemma iter_continue (s s' : acquire.State Store) :
  iter s = inl s' ->
  exists st,
    attempt (acquire.now s) (acquire.store s) = (st, inr false) /\
    1 <= NextBackoff retry (acquire.calls s) /\
    acquire.now s' = acquire.now s + NextBackoff retry (acquire.calls s) /\
    (forall d, context.done_at ctx = Some d -> acquire.now s' <= d) /\
    acquire.store s' = st /\
    acquire.calls s' = S (acquire.calls s) /\
    acquire.trace s' =
      acquire.EvSleep (acquire.now s) (NextBackoff retry (acquire.calls s))
        :: acquire.EvAttempt (acquire.now s) :: acquire.trace s.
Proof.
  unfold acquire.iter.
  destruct (attempt (acquire.now s) (acquire.store s)) as [st [err|[|]]]; try done.
  destruct (Z.ltb_spec (NextBackoff retry (acquire.calls s)) 1); [done|].
  destruct (acquire.select ctx _ _ _) as [t|t] eqn:Hsel; [|done].
  intros [= <-]. apply select_tick in Hsel as [-> Hle]; [|lia].
  exists st. by split_and!.
Qed.

(** Fuel that covers the time left to the context always suffices. *)
Lemma loop_enough (d : Z) (fuel : nat) (s : acquire.State Store) :
  context.done_at ctx = Some d ->
  (Z.to_nat (d - acquire.now s) + 1 <= fuel)%nat ->
  is_Some (loop fuel s).
Proof.
  intros Hd. revert s. induction fuel as [|fuel IH]; intros s Hfuel; [lia|].
  simpl. destruct (iter s) as [s'|out] eqn:Hit; [|by eexists].
  apply iter_continue in Hit as (st & _ & Hb & Hnow & Hle & _).
  specialize (Hle d Hd). apply IH. lia.
Qed.

Lemma run_total (d : Z) (s : acquire.State Store) :
  context.done_at ctx = Some d -> is_Some (run s).
Proof.
  intros Hd. unfold acquire.run, acquire.budget. rewrite Hd.
  apply (loop_enough d); [done | lia].
Qed.


(** A busy backend and a backoff below one unit end the loop at once. *)
Lemma iter_stop (s : acquire.State Store) (st : Store) :
  attempt (acquire.now s) (acquire.store s) = (st, inr false) ->
  NextBackoff retry (acquire.calls s) < 1 ->
  iter s =
    inr (inl ErrNotObtained,
         {| acquire.now := acquire.now s; acquire.store := st;
            acquire.calls := S (acquire.calls s);
            acquire.trace := acquire.EvAttempt (acquire.now s) :: acquire.trace s |}).
Proof.
  intros Ha Hb. unfold acquire.iter. rewrite Ha.
  by destruct (Z.ltb_spec (NextBackoff retry (acquire.calls s)) 1); [|lia].
Qed.

(** The loop hands out no other handle than [lock], and only after a
    successful attempt, whose store it returns. *)
Lemma loop_obtained (fuel : nat) (s fin : acquire.State Store) (l : Lock) :
  loop fuel s = Some (inr l, fin) ->
  l = lock /\
  exists t st, attempt t st = (acquire.store fin, inr true) /\ acquire.now fin = t.
Proof.
  revert s. induction fuel as [|fuel IH]; intros s; [done|].
  simpl. destruct (iter s) as [s'|out] eqn:Hit; [apply IH|].
  intros [= ->]. revert Hit. unfold acquire.iter.
  destruct (attempt (acquire.now s) (acquire.store s)) as [st [err|[|]]] eqn:Ha.
  - done.
  - intros [= <- <-]. split; [done|]. by exists (acquire.now s), (acquire.store s).
  - destruct (Z.ltb_spec (NextBackoff retry (acquire.calls s)) 1); [done|].
    by destruct (acquire.select ctx _ _ _).
Qed.

Lemma run_one (d : Z) (s : acquire.State Store) (out : (error + Lock) * acquire.State Store) :
  context.done_at ctx = Some d ->
  iter s = inr out ->
  run s = Some out.
Proof.
  intros Hd Hit. unfold acquire.run, acquire.budget. rewrite Hd.
  replace (Z.to_nat (d - acquire.now s) + 2)%nat
    with (S (Z.to_nat (d - acquire.now s) + 1)) by lia.
  simpl. by rewrite Hit.
Qed.

(** The signal comes during the sleep: the iteration returns the
    error of the context. *)
Lemma iter_interrupted (s : acquire.State Store) (st : Store) (b d : Z) :
  attempt (acquire.now s) (acquire.store s) = (st, inr false) ->
  NextBackoff retry (acquire.calls s) = b ->
  1 <= b ->
  context.done_at ctx = Some d ->
  d < acquire.now s + b ->
  iter s =
    inr (inl (context.Err ctx),
         {| acquire.now := Z.max (acquire.now s) d; acquire.store := st;
            acquire.calls := S (acquire.calls s);
            acquire.trace := acquire.EvSleep (acquire.now s) b
                               :: acquire.EvAttempt (acquire.now s) :: acquire.trace s |}).
Proof.
  intros Ha Hb Hb1 Hd Hlt. unfold acquire.iter. rewrite Ha, Hb.
  destruct (Z.ltb_spec b 1); [lia|].
  by rewrite (select_interrupted _ _ d).
Qed.

(** What the loop returns is what it returns from any state it passes
    through. *)
Lemma loop_reaches (fuel : nat) (s st : acquire.State Store)
    (out : (error + Lock) * acquire.State Store) :
  acquire.reaches attempt lock retry ctx tie s st ->
  loop fuel s = Some out ->
  exists fuel', loop fuel' st = Some out.
Proof.
  intros Hr. revert fuel. induction Hr as [|s1 s2 _ IH Hit]; intros fuel Hl.
  - by exists fuel.
  - destruct (IH _ Hl) as ([|fuel'] & Hl'); [done|].
    simpl in Hl'. rewrite Hit in Hl'. by exists fuel'.
Qed.

Lemma run_reaches (d : Z) (s st : acquire.State Store)
    (out : (error + Lock) * acquire.State Store) :
  context.done_at ctx = Some d ->
  acquire.reaches attempt lock retry ctx tie s st ->
  iter st = inr out ->
  run s = Some out.
Proof.
  intros Hd Hr Hit. destruct (run_total d s Hd) as [out' Hrun].
  rewrite Hrun. unfold acquire.run in Hrun.
  destruct (loop_reaches _ _ _ _ Hr Hrun) as ([|fuel'] & Hl); [done|].
  simpl in Hl. rewrite Hit in Hl. done.
Qed.

End LoopFacts.

Lemma bounded_done_at (ctx : context.Context) (until : Z) :
  is_Some (context.done_at (acquire.bounded ctx until)).
Proof.
  unfold acquire.bounded, context.done_at, context.WithDeadline.
  destruct (context.Deadline ctx) as [d|] eqn:Hd; simpl; rewrite ?Hd;
    by destruct (context.cancel_at ctx).
Qed.

(** ** [Obtain] of either backend is the loop, once the token is chosen *)

Lemma redis_Obtain_run (rnd : option string) (tie : nat -> bool) (ctx : context.Context)
    (start : Z) (key : string) (ttl : Z) (opt : option Options)
    (s : gmap string redislock.entry) (tok : string) :
  redislock.tokenFor (redislock.orEmpty opt) rnd = inr tok ->
  redislock.Obtain rnd tie ctx start key ttl opt s =
    acquire.run
      (redislock.obtain key (tok +:+ dblock.Meta (redislock.orEmpty opt))
         (String.length tok) (redislock.ttlVal ttl))
      {| redislock.Key := key;
         redislock.lvalue := tok +:+ dblock.Meta (redislock.orEmpty opt);
         redislock.tokenLen := String.length tok |}
      (GetRetryStrategy (redislock.orEmpty opt))
      (acquire.bounded ctx (start + ttl)) tie (acquire.initial start s).
Proof. intros Htok. unfold redislock.Obtain. by rewrite Htok. Qed.

Lemma rdb_Obtain_run (env : rdblock.Env) (rnd : option string) (tie : nat -> bool)
    (c : rdblock.Client) (ctx : context.Context) (start : Z) (key : string) (ttl : Z)
    (fns : list (Options -> Options)) (db : list rdblock.Row) (tok : string) :
  rdblock.tokenFor (rdblock.applyOptions fns) rnd = inr tok ->
  rdblock.Obtain env rnd tie c ctx start key ttl fns db =
    acquire.run
      (rdblock.obtain env (rdblock.withTable c) key tok
         (dblock.Meta (rdblock.applyOptions fns)) (start + ttl))
      {| rdblock.lClient := rdblock.withTable c; rdblock.Key := key;
         rdblock.token := tok;
         rdblock.metadata := dblock.Meta (rdblock.applyOptions fns);
         rdblock.lUntil := start + ttl |}
      (GetRetryStrategy (rdblock.applyOptions fns))
      (acquire.bounded ctx (start + ttl)) tie (acquire.initial start db).
Proof. intros Htok. unfold rdblock.Obtain. by rewrite Htok. Qed.



(** A busy store and a strategy that stops at once: one attempt, no
    sleep, [ErrNotObtained]. *)
Lemma redis_Obtain_stops (rnd : option string) (tie : nat -> bool) (ctx : context.Context)
    (start : Z) (key : string) (ttl : Z) (opt : option Options)
    (s s' : gmap string redislock.entry) (tok : string) :
  redislock.tokenFor (redislock.orEmpty opt) rnd = inr tok ->
  redislock.obtain key (tok +:+ dblock.Meta (redislock.orEmpty opt))
    (String.length tok) (redislock.ttlVal ttl) start s = (s', inr false) ->
  NextBackoff (GetRetryStrategy (redislock.orEmpty opt)) 0 < 1 ->
  redislock.Obtain rnd tie ctx start key ttl opt s =
    Some (inl ErrNotObtained,
          {| acquire.now := start; acquire.store := s'; acquire.calls := 1;
             acquire.trace := [acquire.EvAttempt start] |}).
Proof.
  intros Htok Hbusy Hstop. rewrite (redis_Obtain_run _ _ _ _ _ _ _ _ _ Htok).
  destruct (bounded_done_at ctx (start + ttl)) as [d Hd].
  apply (run_one _ _ _ _ _ d); [done|].
  by apply iter_stop.
Qed.

Lemma rdb_Obtain_stops (env : rdblock.Env) (rnd : option string) (tie : nat -> bool)
    (c : rdblock.Client) (ctx : context.Context) (start : Z) (key : string) (ttl : Z)
    (fns : list (Options -> Options)) (db db' : list rdblock.Row) (tok : string) :
  rdblock.tokenFor (rdblock.applyOptions fns) rnd = inr tok ->
  rdblock.obtain env (rdblock.withTable c) key tok
    (dblock.Meta (rdblock.applyOptions fns)) (start + ttl) start db = (db', inr false) ->
  NextBackoff (GetRetryStrategy (rdblock.applyOptions fns)) 0 < 1 ->
  rdblock.Obtain env rnd tie c ctx start key ttl fns db =
    Some (inl ErrNotObtained,
          {| acquire.now := start; acquire.store := db'; acquire.calls := 1;
             acquire.trace := [acquire.EvAttempt start] |}).
Proof.
  intros Htok Hbusy Hstop. rewrite (rdb_Obtain_run _ _ _ _ _ _ _ _ _ _ _ Htok).
  destruct (bounded_done_at ctx (start + ttl)) as [d Hd].
  apply (run_one _ _ _ _ _ d); [done|].
  by apply iter_stop.
Qed.

(** ** The key-value store *)

Lemma obtain_stores (key val : string) (n : nat) (ttlv now : Z)
    (s s' : gmap string redislock.entry) :
  redislock.obtain key val n ttlv now s = (s', inr true) ->
  s' !! key = Some {| redislock.value := val;
                      redislock.expire_at := Some (redislock.ms_of now + ttlv) |}.
Proof.
  unfold redislock.obtain, redislock.luaObtain, redislock.SET.
  destruct (ttlv <=? 0); [done|].
  destruct (true && bool_decide (is_Some (redislock.find (redislock.ms_of now) key s))).
  - case_bool_decide; [|done]. simpl. intros [= <-]. apply lookup_insert_eq.
  - intros [= <-]. apply lookup_insert_eq.
Qed.

(** A handle whose token is not the prefix of the live value does not
    carry that value. *)
Lemma GET_not_owner (l : redislock.Lock) (now : Z) (s : gmap string redislock.entry) :
  (forall e, redislock.find now (redislock.Key l) s = Some e ->
     String.substring 0 (redislock.tokenLen l) (redislock.value e) ≠ redislock.Token l) ->
  redislock.GET now (redislock.Key l) s ≠ Some (redislock.lvalue l).
Proof.
  intros Hno. unfold redislock.GET.
  destruct (redislock.find now (redislock.Key l) s) as [e|] eqn:He; [|done].
  simpl. intros [= Hv]. apply (Hno e eq_refl). by rewrite Hv.
Qed.



Lemma redis_no_match (l : redislock.Lock) (now ttl : Z) (s : gmap string redislock.entry) :
  redislock.GET (redislock.ms_of now) (redislock.Key l) s ≠ Some (redislock.lvalue l) ->
  redislock.Refresh l now ttl s = (s, Some ErrNotObtained) /\
  redislock.Release l now s = (s, Some ErrLockNotHeld) /\
  redislock.TTL l now s = (s, inr 0).
Proof.
  intros Hno.
  unfold redislock.Refresh, redislock.Release, redislock.TTL,
    redislock.luaRefresh, redislock.luaRelease, redislock.luaPTTL.
  by rewrite !bool_decide_eq_false_2.
Qed.

Lemma GET_owner_find (now : Z) (key v : string) (s : gmap string redislock.entry) :
  redislock.GET now key s = Some v ->
  exists e, redislock.find now key s = Some e /\ redislock.value e = v /\
            s !! key = Some e.
Proof.
  unfold redislock.GET, redislock.find.
  destruct (s !! key) as [e|]; [|done].
  destruct (redislock.live now e); [|done].
  intros [= <-]. by exists e.
Qed.

Lemma find_deleted (now : Z) (key : string) (s : gmap string redislock.entry) :
  redislock.find now key (delete key s) = None.
Proof. unfold redislock.find. by rewrite lookup_delete_eq. Qed.

Lemma find_written (t : Z) (key v : string) (x : Z) (s : gmap string redislock.entry) :
  redislock.find t key
    (<[key := {| redislock.value := v; redislock.expire_at := Some x |}]> s)
  = if t <=? x then Some {| redislock.value := v; redislock.expire_at := Some x |}
    else None.
Proof. unfold redislock.find, redislock.live. by rewrite lookup_insert_eq. Qed.

Lemma find_stored (t : Z) (key v : string) (x : Z) (s : gmap string redislock.entry) :
  s !! key = Some {| redislock.value := v; redislock.expire_at := Some x |} ->
  redislock.find t key s
  = if t <=? x then Some {| redislock.value := v; redislock.expire_at := Some x |}
    else None.
Proof. intros H. unfold redislock.find, redislock.live. by rewrite H. Qed.

Lemma ttlVal_small (ttl : Z) : ttl < 1000000 -> redislock.ttlVal ttl <= 0.
Proof.
  intros H. unfold redislock.ttlVal.
  change 0 with (Z.quot 999999 1000000). apply Z.quot_le_mono; lia.
Qed.

Lemma append_inv_head (a b c : string) : a +:+ b = a +:+ c -> b = c.
Proof.
  induction a as [|x a IH]; [done|].
  change (String x (a +:+ b) = String x (a +:+ c) -> b = c).
  intros [= H]. by apply IH.
Qed.

(** ** Bytes and runes *)

Lemma byte_code (c : ascii) : utf8.byte (utf8.code c) = c.
Proof. by destruct c as [[] [] [] [] [] [] [] []]. Qed.

Lemma code_range (c : ascii) : 0 <= utf8.code c < 256.
Proof. unfold utf8.code. pose proof (N_ascii_bounded c). lia. Qed.

Lemma code_inj (c d : ascii) : utf8.code c = utf8.code d -> c = d.
Proof. intros H. by rewrite <- (byte_code c), H, byte_code. Qed.

Lemma code_eqb (c d : ascii) : (utf8.code c =? utf8.code d) = Ascii.eqb c d.
Proof.
  destruct (Ascii.eqb_spec c d) as [->|Hne]; [apply Z.eqb_refl|].
  apply Z.eqb_neq. intros H. by apply Hne, code_inj.
Qed.

(** A byte with its top bit set is no ASCII character. *)
Lemma byte_high (k y : Z) (a : ascii) :
  Z.testbit k 7 = true -> utf8.code a < 128 ->
  Ascii.eqb (utf8.byte (Z.lor k y)) a = false.
Proof.
  intros Hk Ha. apply Ascii.eqb_neq. intros <-.
  revert Ha. unfold utf8.byte. rewrite !Z.lor_spec, Hk.
  do 7 (destruct (_ || _)); vm_compute; congruence.
Qed.

Lemma byte_low (x : Z) (a : ascii) :
  0 <= x < 128 -> x ≠ utf8.code a -> Ascii.eqb (utf8.byte x) a = false.
Proof.
  intros Hx Hne. apply Ascii.eqb_neq. intros <-. apply Hne. clear Hne.
  replace x with (Z.of_nat (Z.to_nat x)) by lia.
  assert (Hn : (Z.to_nat x < 128)%nat) by lia.
  revert Hn. generalize (Z.to_nat x). intros n Hn.
  do 128 (destruct n as [|n]; [reflexivity|]). lia.
Qed.

Lemma braceFree_lacks (s : string) : braceFree s = lacks "{"%char s.
Proof. induction s as [|c s IH]; [done|]. simpl. by rewrite IH. Qed.

Lemma lacks_app (a : ascii) (x y : string) :
  lacks a (x +:+ y) = lacks a x && lacks a y.
Proof.
  induction x as [|c x IH]; [done|].
  change (lacks a (String c (x +:+ y)) = lacks a (String c x) && lacks a y).
  simpl. by rewrite IH, andb_assoc.
Qed.

(** What [string(out)] writes for a rune that is not the ASCII
    character [a] has no byte [a]. *)
Lemma encodeRune_lacks (a : ascii) (r : Z) :
  utf8.code a < 128 -> r ≠ utf8.code a -> lacks a (utf8.encodeRune r) = true.
Proof.
  intros Ha Hr. unfold utf8.encodeRune. cbv zeta.
  match goal with
  | |- context [if ?c then utf8.RuneError else r] =>
      set (r' := if c then utf8.RuneError else r)
  end.
  assert (Hr' : 0 <= r' /\ r' ≠ utf8.code a).
  { unfold r', utf8.RuneError, utf8.within.
    destruct (Z.ltb_spec r 0); simpl; [lia|].
    destruct (Z.ltb_spec 1114111 r); simpl; [lia|].
    destruct (_ && _); lia. }
  clearbody r'. destruct Hr' as [H0 Hne].
  destruct (Z.ltb_spec r' 128).
  - cbn [lacks]. by rewrite byte_low.
  - destruct (r' <? 2048); [|destruct (r' <? 65536)]; cbn [lacks];
      by rewrite !byte_high.
Qed.

Lemma encode_lacks (a : ascii) (rs : list Z) :
  utf8.code a < 128 -> Forall (fun r => r ≠ utf8.code a) rs ->
  lacks a (utf8.encode rs) = true.
Proof.
  intros Ha. induction 1 as [|r rs Hr _ IH]; [done|].
  cbn [utf8.encode]. by rewrite lacks_app, encodeRune_lacks, IH.
Qed.

(** The runes that sequences of several bytes decode to are no ASCII. *)
Lemma lor_high (a b : Z) :
  0 <= a -> 0 <= b -> 128 <= a \/ 128 <= b -> 128 <= Z.lor a b.
Proof.
  intros Ha Hb H.
  assert (Hlog : 7 <= Z.log2 (Z.lor a b)).
  { rewrite Z.log2_lor by done.
    destruct H as [H|H]; apply Z.log2_le_mono in H;
      change (Z.log2 128) with 7 in H; lia. }
  destruct (Z.le_gt_cases (Z.lor a b) 0) as [Hle|Hpos].
  - rewrite Z.log2_nonpos in Hlog by done. lia.
  - destruct (Z.lt_ge_cases (Z.lor a b) (2 ^ 7)) as [Hlt|Hge]; [|exact Hge].
    apply Z.log2_lt_pow2 in Hlt; [lia | done].
Qed.

Ltac masks :=
  change 63 with (Z.ones 6); change 31 with (Z.ones 5);
  change 15 with (Z.ones 4); change 7 with (Z.ones 3);
  rewrite !Z.land_ones by lia;
  rewrite !Z.shiftl_mul_pow2 by lia.

Ltac cases_first Hf :=
  revert Hf; unfold utf8.first, utf8.within;
  repeat match goal with
         | |- context [?a <=? ?b] => destruct (Z.leb_spec a b)
         | |- context [?a =? ?b] => destruct (Z.eqb_spec a b)
         end; simpl; intros Hf; try discriminate Hf;
  injection Hf as <- <-.

Lemma rune2_high (c0 c1 lo hi : Z) :
  utf8.first c0 = Some (2%nat, lo, hi) -> 128 <= utf8.rune2 c0 c1.
Proof.
  intros Hf. unfold utf8.rune2. masks.
  pose proof (Z.mod_pos_bound c0 (2 ^ 5) ltac:(lia)).
  pose proof (Z.mod_pos_bound c1 (2 ^ 6) ltac:(lia)).
  apply lor_high; [lia | lia |]. left.
  cases_first Hf; Z.div_mod_to_equations; lia.
Qed.

Lemma rune3_high (c0 c1 c2 lo hi : Z) :
  utf8.first c0 = Some (3%nat, lo, hi) -> utf8.within lo hi c1 = true ->
  128 <= utf8.rune3 c0 c1 c2.
Proof.
  unfold utf8.rune3.
  intros Hf [H1%Z.leb_le H2%Z.leb_le]%andb_true_iff. masks.
  pose proof (Z.mod_pos_bound c0 (2 ^ 4) ltac:(lia)).
  pose proof (Z.mod_pos_bound c1 (2 ^ 6) ltac:(lia)).
  pose proof (Z.mod_pos_bound c2 (2 ^ 6) ltac:(lia)).
  apply lor_high; [apply Z.lor_nonneg; lia | lia |]. left.
  apply lor_high; [lia | lia |].
  cases_first Hf; Z.div_mod_to_equations; lia.
Qed.

Lemma rune4_high (c0 c1 c2 c3 lo hi : Z) :
  utf8.first c0 = Some (4%nat, lo, hi) -> utf8.within lo hi c1 = true ->
  128 <= utf8.rune4 c0 c1 c2 c3.
Proof.
  unfold utf8.rune4.
  intros Hf [H1%Z.leb_le H2%Z.leb_le]%andb_true_iff. masks.
  pose proof (Z.mod_pos_bound c0 (2 ^ 3) ltac:(lia)).
  pose proof (Z.mod_pos_bound c1 (2 ^ 6) ltac:(lia)).
  pose proof (Z.mod_pos_bound c2 (2 ^ 6) ltac:(lia)).
  pose proof (Z.mod_pos_bound c3 (2 ^ 6) ltac:(lia)).
  apply lor_high; [repeat (apply Z.lor_nonneg; split); lia | lia |]. left.
  apply lor_high; [apply Z.lor_nonneg; lia | lia |]. left.
  apply lor_high; [lia | lia |].
  cases_first Hf; Z.div_mod_to_equations; lia.
Qed.

Lemma first_size (c0 lo hi : Z) (sz : nat) :
  utf8.first c0 = Some (sz, lo, hi) -> sz = 2%nat \/ sz = 3%nat \/ sz = 4%nat.
Proof.
  unfold utf8.first.
  repeat match goal with
         | |- context [if ?b then _ else _] => destruct b
         end; intros [= <- _ _]; auto.
Qed.

Lemma lacks_tail (a c : ascii) (s : string) :
  lacks a (String c s) = true -> lacks a s = true.
Proof. cbn [lacks]. by intros [_ ?]%andb_true_iff. Qed.

(** Ranging over a string without the ASCII character [a] never
    yields the rune [a]. *)
Lemma decode_lacks (a : ascii) (s : string) :
  utf8.code a < 128 -> lacks a s = true ->
  Forall (fun r => r ≠ utf8.code a) (utf8.decode s).
Proof.
  intros Ha.
  assert (H : forall (n : nat) s, (String.length s <= n)%nat -> lacks a s = true ->
            Forall (fun r => r ≠ utf8.code a) (utf8.decode s)); [|by apply (H (String.length s))].
  clear s. induction n as [|n IH]; intros [|b0 s1] Hlen Hl; try (by constructor).
  { simpl in Hlen. lia. }
  simpl in Hlen. pose proof (lacks_tail _ _ _ Hl) as Hs1.
  cbn [lacks] in Hl. apply andb_true_iff in Hl as [Hb0 _].
  pose proof (IH s1 ltac:(lia) Hs1) as IH1.
  assert (He : forall rs, Forall (fun r => r ≠ utf8.code a) rs ->
            Forall (fun r => r ≠ utf8.code a) (utf8.RuneError :: rs))
    by (intros rs Hrs; constructor; [unfold utf8.RuneError; lia | done]).
  cbn [utf8.decode].
  set (d1 := utf8.decode s1) in *. clearbody d1.
  destruct (Z.ltb_spec (utf8.code b0) 128).
  { constructor; [|done]. intros Heq%code_inj. subst.
    by rewrite Ascii.eqb_refl in Hb0. }
  destruct (utf8.first (utf8.code b0)) as [[[sz lo] hi]|] eqn:Hf; [|by apply He].
  destruct s1 as [|b1 s2]; [by apply He|].
  pose proof (lacks_tail _ _ _ Hs1) as Hs2. simpl in Hlen.
  destruct (utf8.within lo hi (utf8.code b1)) eqn:Hw; cbn [negb]; [|by apply He].
  destruct (first_size _ _ _ _ Hf) as [-> | [-> | ->]].
  - constructor; [pose proof (rune2_high _ (utf8.code b1) _ _ Hf); lia|].
    apply IH; [lia | done].
  - destruct s2 as [|b2 s3]; [by apply He|].
    pose proof (lacks_tail _ _ _ Hs2) as Hs3. simpl in Hlen.
    destruct (utf8.within 128 191 (utf8.code b2)); cbn [negb]; [|by apply He].
    constructor; [pose proof (rune3_high _ _ (utf8.code b2) _ _ Hf Hw); lia|].
    apply IH; [lia | done].
  - destruct s2 as [|b2 s3]; [by apply He|].
    pose proof (lacks_tail _ _ _ Hs2) as Hs3. simpl in Hlen.
    destruct (utf8.within 128 191 (utf8.code b2)); cbn [negb]; [|by apply He].
    destruct s3 as [|b3 s4]; [by apply He|].
    pose proof (lacks_tail _ _ _ Hs3) as Hs4. simpl in Hlen.
    destruct (utf8.within 128 191 (utf8.code b3)); cbn [negb]; [|by apply He].
    constructor;
      [pose proof (rune4_high _ _ (utf8.code b2) (utf8.code b3) _ _ Hf Hw); lia|].
    apply IH; [lia | done].
Qed.

Lemma quoteLoop_lacks (a : ascii) (rs : list Z) :
  a ≠ rdblock.escape ->
  Forall (fun r => r ≠ utf8.code a) rs ->
  Forall (fun r => r ≠ utf8.code a) (rdblock.quoteLoop rs).
Proof.
  intros Hne. induction 1 as [|r rs Hr _ IH]; [constructor|].
  cbn [rdblock.quoteLoop].
  destruct (r =? utf8.code rdblock.quote); repeat constructor; try done.
  intros Heq%code_inj. by apply Hne.
Qed.

(** [SingleQuote] brings in no ASCII character but quote and
    backslash. *)
Lemma SingleQuote_lacks (a : ascii) (s : string) :
  utf8.code a < 128 -> a ≠ rdblock.escape -> a ≠ rdblock.quote ->
  lacks a s = true -> lacks a (rdblock.SingleQuote s) = true.
Proof.
  intros Ha He Hq Hs. unfold rdblock.SingleQuote.
  apply encode_lacks; [done|].
  assert (Hquote : utf8.code rdblock.quote ≠ utf8.code a)
    by (intros Heq%code_inj; by apply Hq).
  apply Forall_app. split; [by repeat constructor|].
  apply Forall_app. split; [|by repeat constructor].
  by apply quoteLoop_lacks, decode_lacks.
Qed.

Lemma braceFree_SingleQuote (s : string) :
  braceFree s = true -> braceFree (rdblock.SingleQuote s) = true.
Proof.
  rewrite !braceFree_lacks. by apply SingleQuote_lacks.
Qed.

(** *** ASCII strings *)

Lemma encodeRune_ASCII (c : ascii) :
  utf8.code c < 128 -> utf8.encodeRune (utf8.code c) = String c EmptyString.
Proof.
  intros Hc. pose proof (code_range c). unfold utf8.encodeRune, utf8.within.
  destruct (Z.ltb_spec (utf8.code c) 0); [lia|].
  destruct (Z.ltb_spec 1114111 (utf8.code c)); [lia|].
  destruct (Z.leb_spec 55296 (utf8.code c)); [lia|]. simpl.
  destruct (Z.ltb_spec (utf8.code c) 128); [|lia].
  by rewrite byte_code.
Qed.

Lemma decode_ASCII (c : ascii) (s : string) :
  utf8.code c < 128 -> utf8.decode (String c s) = utf8.code c :: utf8.decode s.
Proof.
  intros Hc. cbn [utf8.decode].
  by destruct (Z.ltb_spec (utf8.code c) 128); [|lia].
Qed.

Lemma SingleQuote_ASCII (s : string) :
  isASCII s = true -> rdblock.SingleQuote s = String rdblock.quote (quoteBytes s).
Proof.
  intros Hs. unfold rdblock.SingleQuote.
  change (utf8.encode ([utf8.code rdblock.quote] ++ ?x))
    with (utf8.encodeRune (utf8.code rdblock.quote) +:+ utf8.encode x).
  rewrite encodeRune_ASCII by done.
  change (String rdblock.quote EmptyString +:+ ?x) with (String rdblock.quote x).
  f_equal. induction s as [|c s IH].
  - simpl. by rewrite (encodeRune_ASCII rdblock.quote).
  - cbn [isASCII] in Hs. apply andb_true_iff in Hs as [Hc%Z.ltb_lt Hs].
    rewrite decode_ASCII by done. cbn [rdblock.quoteLoop quoteBytes].
    rewrite code_eqb. destruct (Ascii.eqb c rdblock.quote).
    + change (rdblock.quoteLoop (utf8.decode s) ++ [utf8.code rdblock.quote])
        with (rdblock.quoteLoop (utf8.decode s) ++ [utf8.code rdblock.quote]).
      cbn [app utf8.encode].
      rewrite (encodeRune_ASCII rdblock.escape), encodeRune_ASCII, IH by done.
      done.
    + cbn [app utf8.encode]. by rewrite encodeRune_ASCII, IH.
Qed.

Lemma quoteBytes_free (s : string) :
  quoteFree s = true -> quoteBytes s = s +:+ String rdblock.quote EmptyString.
Proof.
  induction s as [|c s IH]; [done|]. simpl.
  intros [Hc Hs]%andb_true_iff. apply negb_true_iff in Hc. rewrite Hc.
  change (String c s +:+ String rdblock.quote EmptyString)
    with (String c (s +:+ String rdblock.quote EmptyString)).
  by rewrite IH.
Qed.

Lemma plain_parts (s : string) :
  plain s = true ->
  isASCII s = true /\ quoteFree s = true /\ braceFree s = true /\
  lacks rdblock.escape s = true.
Proof.
  induction s as [|c s IH]; [done|].
  cbn [plain isASCII quoteFree braceFree lacks]. unfold plainChar.
  intros [[[[H1 H2]%andb_true_iff H3]%andb_true_iff H4]%andb_true_iff
            (? & ? & ? & ?)%IH]%andb_true_iff.
  rewrite H1, H2, H3, H4. by split_and!.
Qed.

Lemma plain_braceFree (s : string) : plain s = true -> braceFree s = true.
Proof. intros H. by apply plain_parts in H as (_ & _ & ? & _). Qed.

(** A plain value is only wrapped. *)
Lemma SingleQuote_plain (s : string) :
  plain s = true ->
  rdblock.SingleQuote s = String rdblock.quote (s +:+ String rdblock.quote EmptyString).
Proof.
  intros (Ha & Hq & _)%plain_parts.
  by rewrite SingleQuote_ASCII, quoteBytes_free.
Qed.

(** ** Statement texts *)

Lemma append_empty_r (s : string) : s +:+ EmptyString = s.
Proof.
  induction s as [|c s IH]; [done|].
  change (String c (s +:+ EmptyString) = String c s). by rewrite IH.
Qed.

Lemma prefix_append (a b : string) : String.prefix a (a +:+ b) = true.
Proof.
  induction a as [|c a IH]; simpl; [by destruct b|].
  by destruct (ascii_dec c c).
Qed.

Lemma replaceFrom_skip (old new x rest : string) :
  rdblock.replaceFrom old new (String.length x) (x +:+ rest)
  = rdblock.replaceFrom old new 0 rest.
Proof. induction x as [|c x IH]; simpl; [by destruct rest | exact IH]. Qed.

(** An occurrence at the head is replaced. *)
Lemma pass_hit (old new rest : string) :
  old ≠ EmptyString ->
  rdblock.replaceFrom old new 0 (old +:+ rest)
  = new +:+ rdblock.replaceFrom old new 0 rest.
Proof.
  destruct old as [|c old]; [done|]. intros _.
  change (String c old +:+ rest) with (String c (old +:+ rest)).
  cbn [rdblock.replaceFrom].
  assert (Hp : String.prefix (String c old) (String c (old +:+ rest)) = true)
    by exact (prefix_append (String c old) rest).
  rewrite Hp. cbn [String.length Nat.pred]. by rewrite replaceFrom_skip.
Qed.

(** Text without a brace goes through unchanged. *)
Lemma pass_free (old new x rest : string) :
  braceFree x = true ->
  rdblock.replaceFrom (String "{" old) new 0 (x +:+ rest)
  = x +:+ rdblock.replaceFrom (String "{" old) new 0 rest.
Proof.
  induction x as [|c x IH]; [done|].
  cbn [braceFree]. intros [Hc Hx]%andb_true_iff.
  change (String c x +:+ rest) with (String c (x +:+ rest)).
  change (String c x +:+ rdblock.replaceFrom (String "{" old) new 0 rest)
    with (String c (x +:+ rdblock.replaceFrom (String "{" old) new 0 rest)).
  rewrite <- (IH Hx). cbn [rdblock.replaceFrom String.prefix].
  destruct (ascii_dec "{" c) as [<-|]; [done|]. done.
Qed.

(** So does another placeholder. *)
Lemma pass_miss (old new ph rest : string) :
  braceFree ph = true ->
  String.prefix (String "{" old) (String "{" ph +:+ rest) = false ->
  rdblock.replaceFrom (String "{" old) new 0 (String "{" ph +:+ rest)
  = String "{" ph +:+ rdblock.replaceFrom (String "{" old) new 0 rest.
Proof.
  intros Hph Hpre.
  change (String "{" ph +:+ rest) with (String "{" (ph +:+ rest)) in *.
  cbn [rdblock.replaceFrom]. rewrite Hpre.
  by rewrite pass_free.
Qed.

(** One [ReplaceAll] over a text cut into brace-free pieces and
    placeholders. *)
Ltac pass :=
  repeat first
    [ rewrite pass_hit by discriminate
    | rewrite pass_free
        by first [ reflexivity | assumption | apply braceFree_SingleQuote; assumption ]
    | rewrite pass_miss by reflexivity ].

Lemma extendText_eq (env : rdblock.Env) (l : rdblock.shedLock) :
  braceFree (rdblock.Table l) = true ->
  braceFree (rdblock.Name l) = true ->
  braceFree (rdblock.Format env (rdblock.Until l)) = true ->
  braceFree (rdblock.shToken l) = true ->
  rdblock.extendText env l =
    "UPDATE " +:+ rdblock.Table l +:+
    " SET lock_until = " +:+ rdblock.SingleQuote (rdblock.Format env (rdblock.Until l)) +:+
    " WHERE lock_name = " +:+ rdblock.SingleQuote (rdblock.Name l) +:+
    " AND token_value = " +:+ rdblock.SingleQuote (rdblock.shToken l).
Proof.
  intros HT HN HU HK. unfold rdblock.extendText, rdblock.ReplaceAll.
  change ("UPDATE {Table} SET lock_until = {Until} " +:+
          "WHERE lock_name = {Name} AND token_value = {Token}")
    with ("UPDATE " +:+ "{Table}" +:+ " SET lock_until = " +:+ "{Until}" +:+
          " WHERE lock_name = " +:+ "{Name}" +:+ " AND token_value = " +:+ "{Token}" +:+ "").
  pass. cbn [rdblock.replaceFrom].
  pass. cbn [rdblock.replaceFrom].
  pass. cbn [rdblock.replaceFrom].
  pass. cbn [rdblock.replaceFrom].
  by rewrite append_empty_r.
Qed.

Lemma queryText_eq (l : rdblock.shedLock) :
  braceFree (rdblock.Table l) = true ->
  braceFree (rdblock.Name l) = true ->
  rdblock.queryText l =
    "select lock_until, locked_at, locked_by, token_value, meta_value, locked_pid from " +:+
    rdblock.Table l +:+
    " WHERE lock_name = " +:+ rdblock.SingleQuote (rdblock.Name l) +:+
    " AND token_value = " +:+ rdblock.SingleQuote (rdblock.shToken l).
Proof.
  intros HT HN. unfold rdblock.queryText, rdblock.ReplaceAll.
  change ("select lock_until, locked_at, locked_by, token_value, meta_value, locked_pid from {Table} " +:+
          "WHERE lock_name = {Name} AND token_value = {Token}")
    with ("select lock_until, locked_at, locked_by, token_value, meta_value, locked_pid from " +:+
          "{Table}" +:+ " WHERE lock_name = " +:+ "{Name}" +:+
          " AND token_value = " +:+ "{Token}" +:+ "").
  pass. cbn [rdblock.replaceFrom].
  pass. cbn [rdblock.replaceFrom].
  pass. cbn [rdblock.replaceFrom].
  by rewrite append_empty_r.
Qed.

Section ClaimingTexts.
Variable env : rdblock.Env.
Variable now : Z.
Variable l : rdblock.shedLock.
Hypothesis HT : braceFree (rdblock.Table l) = true.
Hypothesis HN : braceFree (rdblock.Name l) = true.
Hypothesis HU : braceFree (rdblock.Format env (rdblock.Until l)) = true.
Hypothesis HA : braceFree (rdblock.Format env now) = true.
Hypothesis HB : braceFree (rdblock.Hostname env) = true.
Hypothesis HK : braceFree (rdblock.shToken l) = true.
Hypothesis HM : braceFree (rdblock.Meta l) = true.

Lemma insertText_eq :
  rdblock.insertText env now l =
    "INSERT INTO " +:+ rdblock.Table l +:+
    " (lock_name, lock_until, locked_at, locked_by, token_value, meta_value, locked_pid) VALUES (" +:+
    rdblock.SingleQuote (rdblock.Name l) +:+ ", " +:+
    rdblock.SingleQuote (rdblock.Format env (rdblock.Until l)) +:+ ", " +:+
    rdblock.SingleQuote (rdblock.Format env now) +:+ ", " +:+
    rdblock.SingleQuote (rdblock.Hostname env) +:+ ", " +:+
    rdblock.SingleQuote (rdblock.shToken l) +:+ ", " +:+
    rdblock.SingleQuote (rdblock.Meta l) +:+ ", " +:+
    rdblock.SingleQuote (rdblock.Pid env) +:+ ")".
Proof.
  unfold rdblock.insertText, rdblock.ReplaceAll.
  change ("INSERT INTO {Table} (lock_name, lock_until, locked_at, locked_by, token_value, meta_value, locked_pid) " +:+
          "VALUES ({Name}, {Until}, {At}, {By}, {Token}, {Meta}, {LockedPid})")
    with ("INSERT INTO " +:+ "{Table}" +:+
          " (lock_name, lock_until, locked_at, locked_by, token_value, meta_value, locked_pid) VALUES (" +:+
          "{Name}" +:+ ", " +:+ "{Until}" +:+ ", " +:+ "{At}" +:+ ", " +:+ "{By}" +:+ ", " +:+
          "{Token}" +:+ ", " +:+ "{Meta}" +:+ ", " +:+ "{LockedPid}" +:+ ")" +:+ "").
  do 8 (pass; cbn [rdblock.replaceFrom]).
  by rewrite append_empty_r.
Qed.

Lemma updateText_eq :
  rdblock.updateText env now l =
    "UPDATE " +:+ rdblock.Table l +:+
    " SET lock_until = " +:+ rdblock.SingleQuote (rdblock.Format env (rdblock.Until l)) +:+
    ", locked_at = " +:+ rdblock.SingleQuote (rdblock.Format env now) +:+
    ", locked_by = " +:+ rdblock.SingleQuote (rdblock.Hostname env) +:+
    ", token_value = " +:+ rdblock.SingleQuote (rdblock.shToken l) +:+
    ", meta_value = " +:+ rdblock.SingleQuote (rdblock.Meta l) +:+
    ", locked_pid = " +:+ rdblock.SingleQuote (rdblock.Pid env) +:+
    " WHERE lock_name = " +:+ rdblock.SingleQuote (rdblock.Name l) +:+
    " AND lock_until <= " +:+ rdblock.SingleQuote (rdblock.Format env (rdblock.Until l)).
Proof.
  unfold rdblock.updateText, rdblock.ReplaceAll.
  change ("UPDATE {Table} SET lock_until = {Until}, " +:+
          "locked_at = {At}, locked_by = {By}, " +:+
          "token_value = {Token}, meta_value = {Meta}, locked_pid = {LockedPid} " +:+
          "WHERE lock_name = {Name} AND lock_until <= {Until}")
    with ("UPDATE " +:+ "{Table}" +:+ " SET lock_until = " +:+ "{Until}" +:+
          ", locked_at = " +:+ "{At}" +:+ ", locked_by = " +:+ "{By}" +:+
          ", token_value = " +:+ "{Token}" +:+ ", meta_value = " +:+ "{Meta}" +:+
          ", locked_pid = " +:+ "{LockedPid}" +:+ " WHERE lock_name = " +:+ "{Name}" +:+
          " AND lock_until <= " +:+ "{Until}" +:+ "").
  do 8 (pass; cbn [rdblock.replaceFrom]).
  by rewrite append_empty_r.
Qed.

End ClaimingTexts.

(** ** The database reads what the statements write *)

Lemma append_assoc (x y z : string) : (x +:+ y) +:+ z = x +:+ (y +:+ z).
Proof.
  induction x as [|c x IH]; [done|].
  change (String c ((x +:+ y) +:+ z) = String c (x +:+ (y +:+ z))). by rewrite IH.
Qed.

Lemma keyword_app (kw rest : string) : rdblock.keyword kw (kw +:+ rest) = Some rest.
Proof.
  induction kw as [|c kw IH]; [done|].
  change (String c kw +:+ rest) with (String c (kw +:+ rest)).
  cbn [rdblock.keyword]. by rewrite Ascii.eqb_refl.
Qed.

Lemma literalBody_plain (v : string) (d : ascii) (rest : string) :
  plain v = true -> Ascii.eqb d rdblock.quote = false ->
  rdblock.literalBody (v +:+ String rdblock.quote (String d rest))
  = Some (v, String d rest).
Proof.
  intros Hv Hd. induction v as [|c v IH].
  - change (rdblock.literalBody (String rdblock.quote (String d rest))
            = Some (EmptyString, String d rest)).
    cbn [rdblock.literalBody].
    change (Ascii.eqb rdblock.quote rdblock.escape) with false.
    rewrite Ascii.eqb_refl. cbv iota. by rewrite Hd.
  - cbn [plain] in Hv. apply andb_true_iff in Hv as [Hc Hv].
    unfold plainChar in Hc.
    apply andb_true_iff in Hc as [[[_ Hq]%andb_true_iff He]%andb_true_iff _].
    apply negb_true_iff in Hq, He.
    change (String c v +:+ ?x) with (String c (v +:+ x)).
    cbn [rdblock.literalBody]. by rewrite He, Hq, IH.
Qed.

Lemma literalBody_plain_end (v : string) :
  plain v = true ->
  rdblock.literalBody (v +:+ String rdblock.quote EmptyString) = Some (v, EmptyString).
Proof.
  intros Hv. induction v as [|c v IH]; [done|].
  cbn [plain] in Hv. apply andb_true_iff in Hv as [Hc Hv].
  unfold plainChar in Hc.
  apply andb_true_iff in Hc as [[[_ Hq]%andb_true_iff He]%andb_true_iff _].
  apply negb_true_iff in Hq, He.
  change (String c v +:+ ?x) with (String c (v +:+ x)).
  cbn [rdblock.literalBody]. by rewrite He, Hq, IH.
Qed.

(** The literal of a plain value, followed by text that does not
    begin with a quote, reads as the value. *)
Lemma literal_then (v kw rest : string) :
  plain v = true ->
  match kw with
  | String d _ => Ascii.eqb d rdblock.quote = false
  | EmptyString => False
  end ->
  rdblock.literal (rdblock.SingleQuote v +:+ kw +:+ rest) = Some (v, kw +:+ rest).
Proof.
  intros Hv Hkw. destruct kw as [|d kw]; [done|].
  rewrite SingleQuote_plain by done.
  change (String rdblock.quote ?x +:+ ?y) with (String rdblock.quote (x +:+ y)).
  cbn [rdblock.literal]. rewrite Ascii.eqb_refl, append_assoc.
  by apply literalBody_plain.
Qed.

Lemma literal_end (v : string) :
  plain v = true -> rdblock.literal (rdblock.SingleQuote v) = Some (v, EmptyString).
Proof.
  intros Hv. rewrite SingleQuote_plain by done.
  cbn [rdblock.literal]. rewrite Ascii.eqb_refl. by apply literalBody_plain_end.
Qed.

Lemma identBody_app (t : string) (d : ascii) (rest : string) :
  allIdent t = true -> rdblock.isIdent d = false ->
  rdblock.identBody (t +:+ String d rest) = (t, String d rest).
Proof.
  intros Ht Hd. induction t as [|c t IH].
  - change (rdblock.identBody (String d rest) = (EmptyString, String d rest)).
    cbn [rdblock.identBody]. by rewrite Hd.
  - cbn [allIdent] in Ht. apply andb_true_iff in Ht as [Hc Ht].
    change (String c t +:+ ?x) with (String c (t +:+ x)).
    cbn [rdblock.identBody]. by rewrite Hc, IH.
Qed.

(** A table name, followed by text that begins with a blank, reads as
    the name. *)
Lemma ident_then (t kw rest : string) :
  identifier t = true ->
  match kw with
  | String d _ => rdblock.isIdent d = false
  | EmptyString => False
  end ->
  rdblock.ident (t +:+ kw +:+ rest) = Some (t, kw +:+ rest).
Proof.
  intros Ht Hkw. destruct kw as [|d kw]; [done|].
  destruct t as [|c t]; [done|]. unfold rdblock.ident.
  change (String d kw +:+ rest) with (String d (kw +:+ rest)).
  by rewrite identBody_app.
Qed.

Lemma isIdent_brace (c : ascii) : rdblock.isIdent c = true -> Ascii.eqb c "{" = false.
Proof. destruct (Ascii.eqb_spec c "{") as [->|]; [by vm_compute | done]. Qed.

Lemma identifier_braceFree (t : string) : identifier t = true -> braceFree t = true.
Proof.
  intros Ht. assert (H : allIdent t = true) by (by destruct t). clear Ht.
  induction t as [|c t IH]; [done|].
  cbn [allIdent] in H. apply andb_true_iff in H as [Hc Ht].
  cbn [braceFree]. by rewrite (isIdent_brace c), IH.
Qed.

(** *** The four statements, read back *)

Lemma not_insert_update (r : string) : rdblock.keyword "INSERT INTO " ("UPDATE " +:+ r) = None.
Proof. reflexivity. Qed.

Lemma not_claim (r : string) :
  rdblock.keyword ", locked_at = " (" WHERE lock_name = " +:+ r) = None.
Proof. reflexivity. Qed.

Lemma literal_last (v kw : string) :
  plain v = true ->
  match kw with
  | String d _ => Ascii.eqb d rdblock.quote = false
  | EmptyString => False
  end ->
  rdblock.literal (rdblock.SingleQuote v +:+ kw) = Some (v, kw).
Proof.
  intros Hv Hkw. rewrite <- (append_empty_r kw) at 1.
  rewrite literal_then by done. by rewrite append_empty_r.
Qed.

Lemma keyword_all (kw : string) : rdblock.keyword kw kw = Some EmptyString.
Proof. rewrite <- (append_empty_r kw) at 2. apply keyword_app. Qed.

Ltac reading :=
  repeat first
    [ rewrite keyword_app
    | rewrite keyword_all
    | rewrite literal_then by first [assumption | reflexivity]
    | rewrite literal_last by first [assumption | reflexivity]
    | rewrite literal_end by assumption
    | rewrite ident_then by first [assumption | reflexivity]
    | progress cbn [mbind option_bind rdblock.atEnd default] ].

Section Reads.
Variable env : rdblock.Env.
Variable l : rdblock.shedLock.
Hypothesis HT : identifier (rdblock.Table l) = true.
Hypothesis HN : plain (rdblock.Name l) = true.
Hypothesis HK : plain (rdblock.shToken l) = true.

Lemma read_query :
  rdblock.readQuery (rdblock.queryText l) = rdblock.SemSelect (rdblock.Name l) (rdblock.shToken l).
Proof.
  rewrite queryText_eq by auto using identifier_braceFree, plain_braceFree.
  unfold rdblock.readQuery, rdblock.readSelect. by reading.
Qed.

Lemma read_extend :
  readable env (rdblock.Until l) ->
  rdblock.readSQL env (rdblock.extendText env l)
  = rdblock.SemSetUntil (rdblock.Until l) (rdblock.Name l) (rdblock.shToken l).
Proof.
  intros [HU HR].
  rewrite extendText_eq by auto using identifier_braceFree, plain_braceFree.
  unfold rdblock.readSQL. rewrite not_insert_update. reading.
  unfold rdblock.readUpdate. reading. rewrite not_claim. reading.
  unfold rdblock.readSetUntil. reading. by rewrite HR.
Qed.

Section Claiming.
Variable now : Z.
Hypothesis Henv : tidy env.
Hypothesis HM : plain (rdblock.Meta l) = true.
Hypothesis HU : readable env (rdblock.Until l).
Hypothesis HA : readable env now.

Lemma read_insert :
  rdblock.readSQL env (rdblock.insertText env now l)
  = rdblock.SemInsert (rdblock.rowOf env now l).
Proof.
  destruct Henv as [HB HP], HU as [HU1 HU2], HA as [HA1 HA2].
  rewrite insertText_eq by auto using identifier_braceFree, plain_braceFree.
  unfold rdblock.readSQL. reading. unfold rdblock.readInsert. reading.
  by rewrite HU2, HA2.
Qed.

Lemma read_update :
  rdblock.readSQL env (rdblock.updateText env now l)
  = rdblock.SemClaim (rdblock.Name l) (rdblock.Until l) (rdblock.rowOf env now l).
Proof.
  destruct Henv as [HB HP], HU as [HU1 HU2], HA as [HA1 HA2].
  rewrite updateText_eq by auto using identifier_braceFree, plain_braceFree.
  unfold rdblock.readSQL. rewrite not_insert_update. reading.
  unfold rdblock.readUpdate. reading. unfold rdblock.readClaim. reading.
  by rewrite HU2, HA2.
Qed.

End Claiming.
End Reads.

(** ** The relational table *)

Lemma map_untouched (p : rdblock.Row -> bool) (f : rdblock.Row -> rdblock.Row)
    (t : list rdblock.Row) :
  (forall r, r ∈ t -> p r = false) ->
  map (fun x => if p x then f x else x) t = t.
Proof.
  induction t as [|r t IH]; intros Hp; [done|]. simpl.
  rewrite (Hp r) by apply list_elem_of_here.
  f_equal. apply IH. intros r' Hin. apply Hp. by apply list_elem_of_further.
Qed.

Lemma count_none (p : rdblock.Row -> bool) (t : list rdblock.Row) :
  (forall r, r ∈ t -> p r = false) ->
  rdblock.count p t = 0.
Proof.
  unfold rdblock.count.
  induction t as [|r t IH]; intros Hp; [done|].
  rewrite filter_cons_False by (rewrite (Hp r) by apply list_elem_of_here; done).
  apply IH. intros r' Hin. apply Hp. by apply list_elem_of_further.
Qed.

Lemma count_pos (p : rdblock.Row -> bool) (t : list rdblock.Row) :
  0 < rdblock.count p t <-> exists r, r ∈ t /\ p r = true.
Proof.
  unfold rdblock.count. split.
  - intros Hpos.
    destruct (filter (fun r => p r = true) t) as [|r rest] eqn:Hf; [simpl in Hpos; lia|].
    assert (Hr : r ∈ filter (fun r => p r = true) t)
      by (rewrite Hf; apply list_elem_of_here).
    apply list_elem_of_filter in Hr as [Hp Hin]. by exists r.
  - intros (r & Hin & Hp).
    assert (Hr : r ∈ filter (fun r => p r = true) t) by (by apply list_elem_of_filter).
    destruct (filter (fun r => p r = true) t); [by apply elem_of_nil in Hr | simpl; lia].
Qed.

Lemma count_zero (p : rdblock.Row -> bool) (t : list rdblock.Row) :
  (0 <? rdblock.count p t) = false -> forall r, r ∈ t -> p r = false.
Proof.
  intros Hz r Hin. destruct (p r) eqn:Hp; [|done].
  apply Z.ltb_ge in Hz. assert (0 < rdblock.count p t); [|lia].
  apply count_pos. by exists r.
Qed.

Lemma find_none (p : rdblock.Row -> bool) (t : list rdblock.Row) :
  (forall r, r ∈ t -> p r = false) ->
  List.find p t = None.
Proof.
  induction t as [|r t IH]; intros Hp; [done|]. simpl.
  rewrite (Hp r) by apply list_elem_of_here.
  apply IH. intros r' Hin. apply Hp. by apply list_elem_of_further.
Qed.


(** Rows that a release or a refresh touched are still owned. *)
Lemma owned_setUntil (name token : string) (until : Z) (r : rdblock.Row) :
  rdblock.owned name token (rdblock.setUntil until r) = rdblock.owned name token r.
Proof. done. Qed.

Lemma names_setUntil (p : rdblock.Row -> bool) (until : Z) (t : list rdblock.Row) :
  map rdblock.lock_name (map (fun x => if p x then rdblock.setUntil until x else x) t)
  = map rdblock.lock_name t.
Proof.
  induction t as [|r t IH]; [done|]. simpl. rewrite IH. by destruct (p r).
Qed.

Lemma names_setClaim (p : rdblock.Row -> bool) (new : rdblock.Row) (t : list rdblock.Row) :
  map rdblock.lock_name (map (fun x => if p x then rdblock.setClaim new x else x) t)
  = map rdblock.lock_name t.
Proof.
  induction t as [|r t IH]; [done|]. simpl. rewrite IH. by destruct (p r).
Qed.

Lemma existsb_named (name : string) (t : list rdblock.Row) :
  existsb (rdblock.named name) t = false -> name ∉ map rdblock.lock_name t.
Proof.
  induction t as [|r t IH]; simpl; [intros _; apply not_elem_of_nil|].
  intros [Hr Ht]%orb_false_iff. apply not_elem_of_cons. split; [|by apply IH].
  unfold rdblock.named in Hr. apply bool_decide_eq_false_1 in Hr. congruence.
Qed.

Lemma existsb_named_false (name : string) (t : list rdblock.Row) :
  (forall r, r ∈ t -> rdblock.lock_name r ≠ name) ->
  existsb (rdblock.named name) t = false.
Proof.
  induction t as [|r t IH]; intros Hno; [done|]. simpl.
  rewrite IH by (intros r' Hin; apply Hno; by apply list_elem_of_further).
  unfold rdblock.named. rewrite bool_decide_eq_false_2; [done|].
  apply Hno, list_elem_of_here.
Qed.

Lemma existsb_named_true (name : string) (t : list rdblock.Row) (r : rdblock.Row) :
  r ∈ t -> rdblock.lock_name r = name ->
  existsb (rdblock.named name) t = true.
Proof.
  intros Hin Hname. apply existsb_exists. exists r. split.
  - by apply list_elem_of_In.
  - unfold rdblock.named. by apply bool_decide_eq_true_2.
Qed.

(** *** Whatever the text *)

(** The primary key stays one: no statement makes two rows of one
    name. *)
Lemma ExecContext_unique (env : rdblock.Env) (t : list rdblock.Row) (q : rdblock.Query) :
  NoDup (map rdblock.lock_name t) ->
  NoDup (map rdblock.lock_name (rdblock.ExecContext env t q).1).
Proof.
  intros Hnd. unfold rdblock.ExecContext.
  destruct (rdblock.readSQL env (rdblock.text q))
    as [r|name bound r|until name token|name token|msg]; simpl.
  - destruct (existsb _ t) eqn:Hex; simpl; [done|].
    rewrite map_app. simpl. apply NoDup_app. split_and!; [done | | apply NoDup_singleton].
    intros x Hx ->%list_elem_of_singleton. by apply existsb_named in Hex.
  - by rewrite names_setClaim.
  - by rewrite names_setUntil.
  - done.
  - done.
Qed.

(** A statement that fails, or that affects no row, leaves the table
    as it is. *)
Lemma ExecContext_kept (env : rdblock.Env) (t t' : list rdblock.Row) (q : rdblock.Query)
    (r : string + Z) :
  rdblock.ExecContext env t q = (t', r) ->
  match r with inl _ => True | inr n => (0 <? n) = false end ->
  t' = t.
Proof.
  unfold rdblock.ExecContext.
  destruct (rdblock.readSQL env (rdblock.text q))
    as [row|name bound row|until name token|name token|msg].
  - destruct (existsb _ t); intros [= <- <-]; done.
  - intros [= <- <-] Hz. apply map_untouched. by apply count_zero.
  - intros [= <- <-] Hz. apply map_untouched. by apply count_zero.
  - by intros [= <- <-].
  - by intros [= <- <-].
Qed.

Lemma rdb_obtain_error (env : rdblock.Env) (c : rdblock.Client) (key tok meta : string)
    (until now : Z) (db db' : list rdblock.Row) :
  rdblock.obtain env c key tok meta until now db ≠ (db', inl ErrNotObtained).
Proof.
  unfold rdblock.obtain, rdblock.insert, rdblock.update.
  destruct (rdblock.ExecContext env db _) as [db1 [msg|k]]; [|congruence].
  destruct (rdblock.ExecContext env db1 _) as [db2 [msg'|k]]; congruence.
Qed.

Lemma rdb_obtain_failed_unchanged (env : rdblock.Env) (c : rdblock.Client)
    (key tok meta : string) (until now : Z) (db db' : list rdblock.Row) (r : error + bool) :
  rdblock.obtain env c key tok meta until now db = (db', r) -> r ≠ inr true -> db' = db.
Proof.
  unfold rdblock.obtain, rdblock.insert, rdblock.update.
  destruct (rdblock.ExecContext env db _) as [db1 [msg|k]] eqn:H1;
    [|by intros [= _ <-]].
  apply ExecContext_kept in H1 as ->; [|done].
  destruct (rdblock.ExecContext env db _) as [db2 [msg'|k]] eqn:H2.
  - intros [= <- _] _. by apply ExecContext_kept in H2.
  - intros [= <- <-] Hr. apply ExecContext_kept in H2; [done|].
    destruct (0 <? k); [by destruct Hr | done].
Qed.

(** *** Plain values: the statements do what they are written for *)

Lemma extend_plain (env : rdblock.Env) (sh : rdblock.shedLock) (db : list rdblock.Row) :
  identifier (rdblock.Table sh) = true ->
  plain (rdblock.Name sh) = true ->
  plain (rdblock.shToken sh) = true ->
  readable env (rdblock.Until sh) ->
  rdblock.extend env sh db =
    (map (fun x => if rdblock.owned (rdblock.Name sh) (rdblock.shToken sh) x
                   then rdblock.setUntil (rdblock.Until sh) x else x) db,
     inr (0 <? rdblock.count (rdblock.owned (rdblock.Name sh) (rdblock.shToken sh)) db)).
Proof.
  intros HT HN HK HU. unfold rdblock.extend, rdblock.ExecContext, rdblock.extendStmt.
  cbn [rdblock.text]. by rewrite read_extend.
Qed.

Lemma unlock_plain (env : rdblock.Env) (now : Z) (sh : rdblock.shedLock)
    (db : list rdblock.Row) :
  identifier (rdblock.Table sh) = true ->
  plain (rdblock.Name sh) = true ->
  plain (rdblock.shToken sh) = true ->
  readable env (now - 1000000000) ->
  rdblock.unlock env now sh db =
    (map (fun x => if rdblock.owned (rdblock.Name sh) (rdblock.shToken sh) x
                   then rdblock.setUntil (now - 1000000000) x else x) db,
     inr (0 <? rdblock.count (rdblock.owned (rdblock.Name sh) (rdblock.shToken sh)) db)).
Proof.
  intros HT HN HK HU. unfold rdblock.unlock, rdblock.ExecContext, rdblock.extendStmt.
  cbn [rdblock.text]. by rewrite read_extend.
Qed.

Lemma Refresh_plain (env : rdblock.Env) (l : rdblock.Lock) (now ttl : Z)
    (db : list rdblock.Row) :
  plainLock l -> readable env (now + ttl) ->
  rdblock.Refresh env l now ttl db =
    (map (fun x => if rdblock.owned (rdblock.Key l) (rdblock.token l) x
                   then rdblock.setUntil (now + ttl) x else x) db,
     if 0 <? rdblock.count (rdblock.owned (rdblock.Key l) (rdblock.token l)) db
     then None else Some ErrNotObtained).
Proof.
  intros (HT & HN & HK) HU. unfold rdblock.Refresh.
  rewrite extend_plain by done. simpl. by destruct (0 <? _).
Qed.

Lemma Release_plain (env : rdblock.Env) (l : rdblock.Lock) (now : Z)
    (db : list rdblock.Row) :
  plainLock l -> readable env (now - 1000000000) ->
  rdblock.Release env l now db =
    (map (fun x => if rdblock.owned (rdblock.Key l) (rdblock.token l) x
                   then rdblock.setUntil (now - 1000000000) x else x) db,
     if 0 <? rdblock.count (rdblock.owned (rdblock.Key l) (rdblock.token l)) db
     then None else Some ErrLockNotHeld).
Proof.
  intros (HT & HN & HK) HU. unfold rdblock.Release.
  rewrite unlock_plain by done. simpl. by destruct (0 <? _).
Qed.

Lemma TTL_plain (l : rdblock.Lock) (t : Z) (db : list rdblock.Row) :
  plainLock l ->
  rdblock.TTL l t db =
    match List.find (rdblock.owned (rdblock.Key l) (rdblock.token l)) db with
    | Some r =>
        (withUntil l (rdblock.lock_until r),
         inr (if 0 <? rdblock.lock_until r - t then rdblock.lock_until r - t else 0))
    | None => (l, inr 0)
    end.
Proof.
  intros (HT & HN & HK).
  unfold rdblock.TTL, rdblock.query, rdblock.QueryRowContext, rdblock.queryStmt.
  cbn [rdblock.text]. rewrite read_query by done. simpl.
  destruct (List.find _ db) as [r|]; [|done]. simpl.
  by destruct (0 <? rdblock.lock_until r - t).
Qed.

Lemma rdb_obtain_fresh (env : rdblock.Env) (c : rdblock.Client) (key tok meta : string)
    (until now : Z) (db : list rdblock.Row) :
  plainObtain env c key tok meta until now ->
  (forall r, r ∈ db -> rdblock.lock_name r ≠ key) ->
  rdblock.obtain env c key tok meta until now db =
    (db ++ [rdblock.rowOf env now (rdblock.mkShedLock (rdblock.cTable c) key until tok meta)],
     inr true).
Proof.
  intros (He & HT & HN & HK & HM & HU & HA) Hno.
  unfold rdblock.obtain, rdblock.insert, rdblock.ExecContext, rdblock.insertStmt.
  cbn [rdblock.text]. rewrite read_insert by done. simpl.
  by rewrite existsb_named_false.
Qed.

Lemma rdb_obtain_taken (env : rdblock.Env) (c : rdblock.Client) (key tok meta : string)
    (until now : Z) (db : list rdblock.Row) (r : rdblock.Row) :
  plainObtain env c key tok meta until now ->
  r ∈ db -> rdblock.lock_name r = key ->
  rdblock.obtain env c key tok meta until now db =
    (map (fun x => if rdblock.claimable key until x
                   then rdblock.setClaim
                          (rdblock.rowOf env now
                             (rdblock.mkShedLock (rdblock.cTable c) key until tok meta)) x
                   else x) db,
     inr (0 <? rdblock.count (rdblock.claimable key until) db)).
Proof.
  intros (He & HT & HN & HK & HM & HU & HA) Hin Hname.
  unfold rdblock.obtain, rdblock.insert, rdblock.update, rdblock.ExecContext,
    rdblock.insertStmt, rdblock.updateStmt.
  cbn [rdblock.text]. rewrite read_insert by done. simpl.
  rewrite (existsb_named_true _ _ r) by done.
  by rewrite read_update.
Qed.

Lemma NoDup_names_eq (t : list rdblock.Row) (r r' : rdblock.Row) :
  NoDup (map rdblock.lock_name t) ->
  r ∈ t -> r' ∈ t -> rdblock.lock_name r = rdblock.lock_name r' -> r = r'.
Proof.
  induction t as [|x t IH]; simpl; [by intros _ ?%elem_of_nil|].
  intros [Hx Hnd]%NoDup_cons [->|Hr]%elem_of_cons [->|Hr']%elem_of_cons Hname.
  - done.
  - exfalso. apply Hx. rewrite Hname. apply list_elem_of_In, in_map, list_elem_of_In, Hr'.
  - exfalso. apply Hx. rewrite <- Hname. apply list_elem_of_In, in_map, list_elem_of_In, Hr.
  - by apply IH.
Qed.

Lemma find_owned_unique (name tok : string) (t : list rdblock.Row) (r : rdblock.Row) :
  NoDup (map rdblock.lock_name t) ->
  r ∈ t -> rdblock.owned name tok r = true ->
  List.find (rdblock.owned name tok) t = Some r.
Proof.
  intros Hnd Hin Hown.
  destruct (List.find (rdblock.owned name tok) t) as [r'|] eqn:Hf.
  - apply find_some in Hf as [Hin'%list_elem_of_In Hown']. f_equal.
    apply (NoDup_names_eq t); try done.
    unfold rdblock.owned, rdblock.named in *.
    apply andb_true_iff in Hown as [Hn%bool_decide_eq_true_1 _].
    apply andb_true_iff in Hown' as [Hn'%bool_decide_eq_true_1 _]. congruence.
  - exfalso. pose proof (List.find_none _ _ Hf r) as Hnone.
    rewrite Hnone in Hown; [done|]. by apply list_elem_of_In.
Qed.

Lemma find_setUntil (name tok : string) (until : Z) (t : list rdblock.Row) :
  List.find (rdblock.owned name tok)
    (map (fun x => if rdblock.owned name tok x then rdblock.setUntil until x else x) t)
  = rdblock.setUntil until <$> List.find (rdblock.owned name tok) t.
Proof.
  induction t as [|x t IH]; [done|]. simpl.
  destruct (rdblock.owned name tok x) eqn:Hx.
  - by rewrite owned_setUntil, Hx.
  - by rewrite Hx.
Qed.

Lemma rdb_named_or_not (key : string) (db : list rdblock.Row) :
  (forall r, r ∈ db -> rdblock.lock_name r ≠ key) \/
  (exists r, r ∈ db /\ rdblock.lock_name r = key).
Proof.
  destruct (existsb (rdblock.named key) db) eqn:Hex.
  - right. apply existsb_exists in Hex as (r & Hin & Hn).
    exists r. split; [by apply list_elem_of_In|].
    by apply bool_decide_eq_true_1 in Hn.
  - left. intros r Hin Hn. apply existsb_named in Hex. apply Hex.
    rewrite <- Hn. by apply list_elem_of_In, in_map, list_elem_of_In.
Qed.

Lemma find_owned_some (name tok : string) (t : list rdblock.Row) (r : rdblock.Row) :
  r ∈ t -> rdblock.owned name tok r = true ->
  exists r0, List.find (rdblock.owned name tok) t = Some r0 /\ r0 ∈ t /\
             rdblock.owned name tok r0 = true.
Proof.
  intros Hin Hown.
  destruct (List.find (rdblock.owned name tok) t) as [r0|] eqn:Hf.
  - exists r0. apply find_some in Hf as [Hin0%list_elem_of_In Hown0]. done.
  - pose proof (List.find_none _ _ Hf r) as Hnone.
    rewrite Hnone in Hown; [done|]. by apply list_elem_of_In.
Qed.

Lemma owned_named (name tok : string) (x : rdblock.Row) :
  rdblock.owned name tok x = true -> rdblock.lock_name x = name.
Proof.
  unfold rdblock.owned, rdblock.named.
  by intros [?%bool_decide_eq_true_1 _]%andb_true_iff.
Qed.

Lemma claimable_named (name : string) (until : Z) (x : rdblock.Row) :
  rdblock.claimable name until x = true -> rdblock.lock_name x = name.
Proof.
  unfold rdblock.claimable, rdblock.named.
  by intros [?%bool_decide_eq_true_1 _]%andb_true_iff.
Qed.

Lemma count_owned (name tok : string) (t : list rdblock.Row) (r : rdblock.Row) :
  r ∈ t -> rdblock.owned name tok r = true ->
  (0 <? rdblock.count (rdblock.owned name tok) t) = true.
Proof. intros Hin Hown. apply Z.ltb_lt, count_pos. by exists r. Qed.

(** ** Claims about the key-value backend *)

(** C3.  The obtain script of the key-value backend, run with a token
    that is not empty and a TTL of at least one millisecond: on an
    absent key it stores token++metadata with the TTL and succeeds; on
    a key whose value starts with the token it overwrites value and TTL
    and succeeds; on any other key it changes nothing and reports that
    the lock was not obtained, which [Obtain] under a strategy that
    stops returns as [ErrNotObtained].  Hence obtaining again with the same
    token before expiry succeeds and leaves the new metadata and the
    new TTL. *)
Theorem C3_kv_obtain_script (key tok meta : string) (ttlv now : Z)
    (s : gmap string redislock.entry) :
  1 <= ttlv ->
  tok ≠ EmptyString ->
  let val := tok +:+ meta in
  let n := String.length tok in
  let written :=
    <[key := {| redislock.value := val;
                redislock.expire_at := Some (redislock.ms_of now + ttlv) |}]> s in
  (redislock.GET (redislock.ms_of now) key s = None ->
   redislock.obtain key val n ttlv now s = (written, inr true)) /\
  (forall v, redislock.GET (redislock.ms_of now) key s = Some v ->
     String.substring 0 n v = tok ->
     redislock.obtain key val n ttlv now s = (written, inr true)) /\
  (forall v, redislock.GET (redislock.ms_of now) key s = Some v ->
     String.substring 0 n v ≠ tok ->
     redislock.obtain key val n ttlv now s = (s, inr false) /\
     forall rnd tie ctx ttl retry,
       redislock.ttlVal ttl = ttlv ->
       NextBackoff retry 0 < 1 ->
       redislock.Obtain rnd tie ctx now key ttl
         (Some {| opt_RetryStrategy := Some retry; dblock.Meta := meta;
                  dblock.Token := tok |}) s
       = Some (inl ErrNotObtained,
               {| acquire.now := now; acquire.store := s; acquire.calls := 1;
                  acquire.trace := [acquire.EvAttempt now] |})) /\
  (forall meta' ttlv' now',
     1 <= ttlv' ->
     redislock.ms_of now' < redislock.ms_of now + ttlv ->
     let l' := {| redislock.Key := key; redislock.lvalue := tok +:+ meta';
                  redislock.tokenLen := n |} in
     let again :=
       <[key := {| redislock.value := tok +:+ meta';
                   redislock.expire_at := Some (redislock.ms_of now' + ttlv') |}]> written in
     redislock.obtain key (tok +:+ meta') n ttlv' now' written = (again, inr true) /\
     redislock.Metadata l' = meta' /\
     redislock.TTL l' now' again = (again, inr (ttlv' * 1000000))).
Proof.
  intros Httl Hne val n written.
  assert (Hfind : forall v, redislock.GET (redislock.ms_of now) key s = Some v ->
            exists e, redislock.find (redislock.ms_of now) key s = Some e /\
                      redislock.value e = v).
  { unfold redislock.GET. intros v.
    destruct (redislock.find _ _ _) as [e|]; [|done]. intros [= <-]. by exists e. }
  split_and!.
  - unfold redislock.GET. intros Hget. apply obtain_absent; [done|].
    by destruct (redislock.find _ _ _).
  - intros v (e & He & <-)%Hfind Hpre. unfold val, n.
    rewrite (obtain_present _ _ _ _ _ _ e) by done.
    by rewrite bool_decide_eq_true_2.
  - intros v (e & He & <-)%Hfind Hpre.
    assert (Hbusy : redislock.obtain key val n ttlv now s = (s, inr false)).
    { unfold val, n. rewrite (obtain_present _ _ _ _ _ _ e) by done.
      by rewrite bool_decide_eq_false_2. }
    split; [done|]. intros rnd tie ctx ttl retry Httlv Hstop.
    apply (redis_Obtain_stops _ _ _ _ _ _ _ _ _ tok).
    + unfold redislock.tokenFor. simpl. by rewrite bool_decide_eq_false_2.
    + simpl. by rewrite Httlv.
    + done.
  - intros meta' ttlv' now' Httl' Hlive l' again.
    assert (Hf : redislock.find (redislock.ms_of now') key written =
                 Some {| redislock.value := val;
                         redislock.expire_at := Some (redislock.ms_of now + ttlv) |}).
    { unfold redislock.find, redislock.live, written. rewrite lookup_insert_eq. simpl.
      by destruct (Z.leb_spec (redislock.ms_of now') (redislock.ms_of now + ttlv)); [|lia]. }
    split_and!.
    + unfold n. rewrite (obtain_present _ _ _ _ _ _ _ Httl' Hne Hf). simpl.
      unfold val. rewrite substring_prefix_append.
      by rewrite bool_decide_eq_true_2.
    + unfold redislock.Metadata, l', n. simpl.
      rewrite length_append.
      replace (String.length tok + String.length meta' - String.length tok)%nat
        with (String.length meta') by lia.
      apply substring_suffix_append.
    + unfold redislock.TTL, redislock.luaPTTL, redislock.GET, redislock.PTTL,
        redislock.find, redislock.live, again, l'. simpl.
      rewrite lookup_insert_eq. simpl.
      destruct (Z.leb_spec (redislock.ms_of now') (redislock.ms_of now' + ttlv')); [|lia].
      simpl. rewrite bool_decide_eq_true_2 by done.
      replace (redislock.ms_of now' + ttlv' - redislock.ms_of now') with ttlv' by lia.
      by destruct (Z.ltb_spec 0 ttlv'); [|lia].
Qed.

Lemma C3_kv_obtain_script_witness :
  1 <= 2000 /\ "A" ≠ EmptyString /\
  redislock.obtain "k2" ("A" +:+ "m") 1 2000 0 ∅ =
    (<[ "k2" := {| redislock.value := "Am"; redislock.expire_at := Some 2000 |} ]> ∅,
     inr true).
Proof.
  split; [lia|]. split; [done|].
  apply (C3_kv_obtain_script "k2" "A" "m" 2000 0 ∅); [lia | done | reflexivity].
Defined.

(** C3 as stated fails for a TTL below one millisecond: the key is
    absent, the TTL reaches the server as 0, the server rejects the
    [SET], and [obtain] returns that error instead of storing the
    value. *)
Lemma C3_short_ttl_is_an_error :
  redislock.GET (redislock.ms_of 0) "k2" ∅ = None /\
  redislock.ttlVal 999999 = 0 /\
  redislock.obtain "k2" ("A" +:+ "m") 1 (redislock.ttlVal 999999) 0 ∅ =
    (∅, inl (ErrBackend "ERR invalid expire time in 'set' command")).
Proof. by split_and!. Qed.

(** ** Claims about the handles *)

Lemma redis_not_owner (l : redislock.Lock) (now ttl : Z) (s : gmap string redislock.entry) :
  (forall e, redislock.find (redislock.ms_of now) (redislock.Key l) s = Some e ->
     String.substring 0 (redislock.tokenLen l) (redislock.value e) ≠ redislock.Token l) ->
  redislock.Refresh l now ttl s = (s, Some ErrNotObtained) /\
  redislock.Release l now s = (s, Some ErrLockNotHeld) /\
  redislock.TTL l now s = (s, inr 0).
Proof. intros Hno. by apply redis_no_match, GET_not_owner. Qed.









Lemma rdb_Obtain_handle (env : rdblock.Env) (rnd : option string) (tie : nat -> bool)
    (c : rdblock.Client) (ctx : context.Context) (start : Z) (key : string) (ttl : Z)
    (fns : list (Options -> Options)) (db : list rdblock.Row) (l : rdblock.Lock)
    (fin : acquire.State (list rdblock.Row)) :
  rdblock.Obtain env rnd tie c ctx start key ttl fns db = Some (inr l, fin) ->
  exists tok,
    rdblock.tokenFor (rdblock.applyOptions fns) rnd = inr tok /\
    l = {| rdblock.lClient := rdblock.withTable c; rdblock.Key := key;
           rdblock.token := tok;
           rdblock.metadata := dblock.Meta (rdblock.applyOptions fns);
           rdblock.lUntil := start + ttl |}.
Proof.
  destruct (rdblock.tokenFor (rdblock.applyOptions fns) rnd) as [err|tok] eqn:Htok.
  - unfold rdblock.Obtain. by rewrite Htok.
  - rewrite (rdb_Obtain_run _ _ _ _ _ _ _ _ _ _ _ Htok). unfold acquire.run.
    intros (-> & _)%loop_obtained. by exists tok.
Qed.

(** C9.  The handle of a successful [Obtain] gives back the metadata
    the caller passed, whatever string it is, and the token that was
    used: the one of the options, or the random one when that is
    empty.  In the key-value backend the options are passed as they
    are, and the handle's token and metadata, put together again, are
    the value the loop left under the key.  In the relational backend
    the options are functions applied in turn to an empty [Options]:
    the metadata of the handle is the one the last of them that sets it
    has set. *)
Theorem C9_metadata_roundtrip :
  (forall rnd tie ctx start key ttl opt (s : gmap string redislock.entry) tok l fin,
     redislock.tokenFor (redislock.orEmpty opt) rnd = inr tok ->
     redislock.Obtain rnd tie ctx start key ttl opt s = Some (inr l, fin) ->
     redislock.Metadata l = match opt with
                            | Some o => dblock.Meta o
                            | None => EmptyString
                            end /\
     redislock.Token l = tok /\
     (forall o, opt = Some o -> dblock.Token o ≠ EmptyString ->
        redislock.Token l = dblock.Token o) /\
     redislock.value <$> (acquire.store fin !! key)
       = Some (redislock.Token l +:+ redislock.Metadata l)) /\
  (forall env rnd tie c ctx start key ttl fns m t (db : list rdblock.Row) l fin,
     rdblock.Obtain env rnd tie c ctx start key ttl
       (fns ++ [fun o => {| opt_RetryStrategy := opt_RetryStrategy o;
                            dblock.Meta := m; dblock.Token := t |}]) db
       = Some (inr l, fin) ->
     rdblock.Metadata l = m /\
     (t ≠ EmptyString -> rdblock.Token l = t)) /\
  (forall env rnd tie c ctx start key ttl fns (db : list rdblock.Row) tok l fin,
     let opt := foldl (fun o f => f o)
                  {| opt_RetryStrategy := None; dblock.Meta := EmptyString;
                     dblock.Token := EmptyString |} fns in
     rdblock.tokenFor opt rnd = inr tok ->
     rdblock.Obtain env rnd tie c ctx start key ttl fns db = Some (inr l, fin) ->
     rdblock.Metadata l = dblock.Meta opt /\
     rdblock.Token l = tok).
Proof.
  split_and!.
  - intros rnd tie ctx start key ttl opt s tok l fin Htok.
    rewrite (redis_Obtain_run _ _ _ _ _ _ _ _ _ Htok). unfold acquire.run.
    intros (-> & t & st & Hat & _)%loop_obtained.
    apply obtain_stores in Hat. rewrite Hat.
    assert (Hm : redislock.Metadata
                   {| redislock.Key := key;
                      redislock.lvalue := tok +:+ dblock.Meta (redislock.orEmpty opt);
                      redislock.tokenLen := String.length tok |}
                 = dblock.Meta (redislock.orEmpty opt)).
    { unfold redislock.Metadata. simpl. rewrite length_append.
      replace (String.length tok + String.length (dblock.Meta (redislock.orEmpty opt))
               - String.length tok)%nat
        with (String.length (dblock.Meta (redislock.orEmpty opt))) by lia.
      apply substring_suffix_append. }
    assert (Ht : redislock.Token
                   {| redislock.Key := key;
                      redislock.lvalue := tok +:+ dblock.Meta (redislock.orEmpty opt);
                      redislock.tokenLen := String.length tok |} = tok)
      by apply substring_prefix_append.
    rewrite Hm, Ht. split_and!; [by destruct opt | done | | done].
    intros o -> Hne. revert Htok. unfold redislock.tokenFor. simpl.
    rewrite bool_decide_eq_false_2 by done. by intros [= <-].
  - intros env rnd tie c ctx start key ttl fns m t db l fin
      (tok & Htok & ->)%rdb_Obtain_handle.
    revert Htok. unfold rdblock.applyOptions. rewrite foldl_app. simpl.
    intros Htok. split; [done|]. intros Hne. revert Htok.
    unfold rdblock.tokenFor. simpl. rewrite bool_decide_eq_false_2 by done.
    by intros [= <-].
  - intros env rnd tie c ctx start key ttl fns db tok l fin opt Htok
      (tok' & Htok' & ->)%rdb_Obtain_handle.
    unfold opt in Htok. unfold rdblock.applyOptions in Htok'.
    rewrite Htok in Htok'. by injection Htok' as <-.
Qed.

Lemma C9_metadata_roundtrip_witness :
  (exists fin,
     redislock.Obtain None (fun _ => true) context.Background 0 "k" 5000000
       (Some sample.optM) ∅
       = Some (inr {| redislock.Key := "k"; redislock.lvalue := "tokit's {m}";
                      redislock.tokenLen := 3 |}, fin) /\
     redislock.Metadata {| redislock.Key := "k"; redislock.lvalue := "tokit's {m}";
                           redislock.tokenLen := 3 |} = "it's {m}") /\
  (exists fin,
     rdblock.Obtain sample.env None (fun _ => true) sample.client context.Background 0
       "k" 100
       ([] ++ [fun o => {| opt_RetryStrategy := opt_RetryStrategy o;
                           dblock.Meta := "it's {m}"; dblock.Token := "tok" |}]) []
       = Some (inr {| rdblock.lClient := sample.client; rdblock.Key := "k";
                      rdblock.token := "tok"; rdblock.metadata := "it's {m}";
                      rdblock.lUntil := 100 |}, fin) /\
     rdblock.Metadata {| rdblock.lClient := sample.client; rdblock.Key := "k";
                         rdblock.token := "tok"; rdblock.metadata := "it's {m}";
                         rdblock.lUntil := 100 |} = "it's {m}" /\
     rdblock.meta_value <$> acquire.store fin = ["it's {m}"]).
Proof.
  split.
  - assert (Hob : exists fin,
              redislock.Obtain None (fun _ => true) context.Background 0 "k" 5000000
                (Some sample.optM) ∅
              = Some (inr {| redislock.Key := "k"; redislock.lvalue := "tokit's {m}";
                             redislock.tokenLen := 3 |}, fin))
      by (eexists; vm_compute; reflexivity).
    destruct Hob as [fin Hob]. exists fin. split; [exact Hob|].
    exact (proj1 (proj1 C9_metadata_roundtrip None (fun _ => true) context.Background 0
                    "k" 5000000 (Some sample.optM) ∅ "tok" _ fin eq_refl Hob)).
  - assert (Hob : exists fin,
              rdblock.Obtain sample.env None (fun _ => true) sample.client
                context.Background 0 "k" 100
                ([] ++ [fun o => {| opt_RetryStrategy := opt_RetryStrategy o;
                                    dblock.Meta := "it's {m}"; dblock.Token := "tok" |}]) []
              = Some (inr {| rdblock.lClient := sample.client; rdblock.Key := "k";
                             rdblock.token := "tok"; rdblock.metadata := "it's {m}";
                             rdblock.lUntil := 100 |}, fin) /\
              rdblock.meta_value <$> acquire.store fin = ["it's {m}"])
      by (eexists; split; vm_compute; reflexivity).
    destruct Hob as (fin & Hob & Hrow). exists fin. split; [exact Hob|].
    split; [|exact Hrow].
    exact (proj1 (proj1 (proj2 C9_metadata_roundtrip) sample.env None (fun _ => true)
                    sample.client context.Background 0 "k" 100 [] "it's {m}" "tok" []
                    _ fin Hob)).
Defined.

(** ** Claims about the acquisition loop *)

Lemma ctx_err_not_busy {L : Type} (c : context.Context) :
  (inl (context.Err c) : error + L) ≠ inl ErrNotObtained.
Proof.
  unfold context.Err.
  destruct (context.Deadline c), (context.cancel_at c); try case_match; done.
Qed.

(** C6.  [Obtain] of either backend, whose loop has come to an
    iteration in which the attempt finds the lock busy and the strategy
    asks for a backoff of at least one unit: if the context is done
    (cancelled, or past its deadline) before the ticker of that sleep
    fires, [Obtain] returns there, at the instant of the signal, with
    the error of the context, which is not [ErrNotObtained]; the store
    is as the last attempt left it. *)
Theorem C6_cancelled_while_sleeping :
  (forall rnd tie ctx start key ttl opt (s : gmap string redislock.entry) tok st s' b d,
     let o := redislock.orEmpty opt in
     let attempt := redislock.obtain key (tok +:+ dblock.Meta o) (String.length tok)
                      (redislock.ttlVal ttl) in
     let lock := {| redislock.Key := key; redislock.lvalue := tok +:+ dblock.Meta o;
                    redislock.tokenLen := String.length tok |} in
     let ctx' := acquire.bounded ctx (start + ttl) in
     redislock.tokenFor o rnd = inr tok ->
     acquire.reaches attempt lock (GetRetryStrategy o) ctx' tie (acquire.initial start s) st ->
     attempt (acquire.now st) (acquire.store st) = (s', inr false) ->
     NextBackoff (GetRetryStrategy o) (acquire.calls st) = b ->
     1 <= b ->
     context.done_at ctx' = Some d ->
     d < acquire.now st + b ->
     redislock.Obtain rnd tie ctx start key ttl opt s =
       Some (inl (context.Err ctx'),
             {| acquire.now := Z.max (acquire.now st) d; acquire.store := s';
                acquire.calls := S (acquire.calls st);
                acquire.trace := acquire.EvSleep (acquire.now st) b
                                   :: acquire.EvAttempt (acquire.now st)
                                   :: acquire.trace st |}) /\
     context.Err ctx' ≠ ErrNotObtained) /\
  (forall env rnd tie c ctx start key ttl fns (db : list rdblock.Row) tok st db' b d,
     let o := rdblock.applyOptions fns in
     let attempt := rdblock.obtain env (rdblock.withTable c) key tok (dblock.Meta o)
                      (start + ttl) in
     let lock := {| rdblock.lClient := rdblock.withTable c; rdblock.Key := key;
                    rdblock.token := tok; rdblock.metadata := dblock.Meta o;
                    rdblock.lUntil := start + ttl |} in
     let ctx' := acquire.bounded ctx (start + ttl) in
     rdblock.tokenFor o rnd = inr tok ->
     acquire.reaches attempt lock (GetRetryStrategy o) ctx' tie (acquire.initial start db) st ->
     attempt (acquire.now st) (acquire.store st) = (db', inr false) ->
     NextBackoff (GetRetryStrategy o) (acquire.calls st) = b ->
     1 <= b ->
     context.done_at ctx' = Some d ->
     d < acquire.now st + b ->
     rdblock.Obtain env rnd tie c ctx start key ttl fns db =
       Some (inl (context.Err ctx'),
             {| acquire.now := Z.max (acquire.now st) d; acquire.store := db';
                acquire.calls := S (acquire.calls st);
                acquire.trace := acquire.EvSleep (acquire.now st) b
                                   :: acquire.EvAttempt (acquire.now st)
                                   :: acquire.trace st |}) /\
     context.Err ctx' ≠ ErrNotObtained).
Proof.
  assert (Herr : forall c, context.Err c ≠ ErrNotObtained).
  { intros c H. apply (ctx_err_not_busy (L := unit) c). by rewrite H. }
  split.
  - intros rnd tie ctx start key ttl opt s tok st s' b d o attempt lock ctx'
      Htok Hreach Hbusy Hb Hb1 Hd Hlt.
    split; [|apply Herr].
    rewrite (redis_Obtain_run _ _ _ _ _ _ _ _ _ Htok).
    apply (run_reaches _ _ _ _ _ d _ st); [done | done |].
    by apply iter_interrupted.
  - intros env rnd tie c ctx start key ttl fns db tok st db' b d o attempt lock ctx'
      Htok Hreach Hbusy Hb Hb1 Hd Hlt.
    split; [|apply Herr].
    rewrite (rdb_Obtain_run _ _ _ _ _ _ _ _ _ _ _ Htok).
    apply (run_reaches _ _ _ _ _ d _ st); [done | done |].
    by apply iter_interrupted.
Qed.

Lemma C6_cancelled_while_sleeping_witness :
  redislock.Obtain None (fun _ => true) sample.ctxCancelled 0 "k" 2000000
    (Some sample.optB) sample.kvHeld
    = Some (inl Canceled,
            {| acquire.now := 5; acquire.store := sample.kvHeld; acquire.calls := 1;
               acquire.trace := [acquire.EvSleep 0 10; acquire.EvAttempt 0] |}) /\
  rdblock.Obtain sample.env None (fun _ => true) sample.client sample.ctxCancelled 0 "k3" 50
    [fun o => {| opt_RetryStrategy := Some sample.everyTen; dblock.Meta := dblock.Meta o;
                 dblock.Token := "B" |}] sample.held
    = Some (inl Canceled,
            {| acquire.now := 5; acquire.store := sample.held; acquire.calls := 1;
               acquire.trace := [acquire.EvSleep 0 10; acquire.EvAttempt 0] |}).
Proof.
  split.
  - apply (proj1 C6_cancelled_while_sleeping None (fun _ => true) sample.ctxCancelled 0
             "k" 2000000 (Some sample.optB) sample.kvHeld "B"
             (acquire.initial 0 sample.kvHeld) sample.kvHeld 10 5);
      [reflexivity | apply acquire.reach_here | reflexivity | reflexivity | lia
      | reflexivity | simpl; lia].
  - apply (proj2 C6_cancelled_while_sleeping sample.env None (fun _ => true) sample.client
             sample.ctxCancelled 0 "k3" 50
             [fun o => {| opt_RetryStrategy := Some sample.everyTen;
                          dblock.Meta := dblock.Meta o; dblock.Token := "B" |}]
             sample.held "B" (acquire.initial 0 sample.held) sample.held 10 5);
      [reflexivity | apply acquire.reach_here | vm_compute; reflexivity | reflexivity | lia
      | reflexivity | simpl; lia].
Defined.



(** C8.  With no [RetryStrategy] in the options, [Obtain] of either
    backend makes one attempt and, the lock being busy, returns
    [ErrNotObtained] at the instant it was called, without a sleep.  In
    general an iteration whose attempt finds the lock busy and whose
    backoff is below one unit ends the loop with [ErrNotObtained]. *)
Theorem C8_default_no_retry :
  (forall rnd tie ctx start key ttl opt (s s' : gmap string redislock.entry) tok,
     opt_RetryStrategy (redislock.orEmpty opt) = None ->
     redislock.tokenFor (redislock.orEmpty opt) rnd = inr tok ->
     redislock.obtain key (tok +:+ dblock.Meta (redislock.orEmpty opt))
       (String.length tok) (redislock.ttlVal ttl) start s = (s', inr false) ->
     redislock.Obtain rnd tie ctx start key ttl opt s =
       Some (inl ErrNotObtained,
             {| acquire.now := start; acquire.store := s'; acquire.calls := 1;
                acquire.trace := [acquire.EvAttempt start] |})) /\
  (forall env rnd tie c ctx start key ttl fns (db db' : list rdblock.Row) tok,
     opt_RetryStrategy (rdblock.applyOptions fns) = None ->
     rdblock.tokenFor (rdblock.applyOptions fns) rnd = inr tok ->
     rdblock.obtain env (rdblock.withTable c) key tok
       (dblock.Meta (rdblock.applyOptions fns)) (start + ttl) start db = (db', inr false) ->
     rdblock.Obtain env rnd tie c ctx start key ttl fns db =
       Some (inl ErrNotObtained,
             {| acquire.now := start; acquire.store := db'; acquire.calls := 1;
                acquire.trace := [acquire.EvAttempt start] |})) /\
  (forall (Store Lock : Type) (attempt : Z -> Store -> Store * (error + bool))
          (lock : Lock) retry ctx tie (s : acquire.State Store) st,
     attempt (acquire.now s) (acquire.store s) = (st, inr false) ->
     NextBackoff retry (acquire.calls s) < 1 ->
     acquire.iter attempt lock retry ctx tie s =
       inr (inl ErrNotObtained,
            {| acquire.now := acquire.now s; acquire.store := st;
               acquire.calls := S (acquire.calls s);
               acquire.trace := acquire.EvAttempt (acquire.now s) :: acquire.trace s |})).
Proof.
  split_and!.
  - intros rnd tie ctx start key ttl opt s s' tok Hnil Htok Hbusy.
    apply (redis_Obtain_stops _ _ _ _ _ _ _ _ _ tok); [done | done |].
    unfold GetRetryStrategy. rewrite Hnil. simpl. lia.
  - intros env rnd tie c ctx start key ttl fns db db' tok Hnil Htok Hbusy.
    apply (rdb_Obtain_stops _ _ _ _ _ _ _ _ _ _ _ tok); [done | done |].
    unfold GetRetryStrategy. rewrite Hnil. simpl. lia.
  - intros. by apply iter_stop.
Qed.

Lemma C8_default_no_retry_witness :
  redislock.Obtain None (fun _ => true) context.Background 0 "k" 2000000
    (Some {| opt_RetryStrategy := None; dblock.Meta := "m"; dblock.Token := "B" |})
    sample.kvHeld =
  Some (inl ErrNotObtained,
        {| acquire.now := 0; acquire.store := sample.kvHeld; acquire.calls := 1;
           acquire.trace := [acquire.EvAttempt 0] |}).
Proof.
  apply (proj1 C8_default_no_retry None (fun _ => true) context.Background 0 "k" 2000000
           (Some {| opt_RetryStrategy := None; dblock.Meta := "m"; dblock.Token := "B" |})
           sample.kvHeld sample.kvHeld "B"); reflexivity.
Defined.

(** ** Claims about mutual exclusion *)

(** C1.  Two callers on the relational backend, run on the code.  The
    table is empty; A calls [Obtain] for "k3" at instant 0 with a TTL
    of 100 and B at instant 1 with the same TTL, neither with a retry
    strategy.  A's INSERT is accepted and A's lease runs until 100.
    B's INSERT is rejected, and its UPDATE, whose WHERE clause compares
    the row's [lock_until] with B's own new [lock_until] (101) and not
    with the current time, matches A's row although A's lease has not
    expired: it affects one row, [obtain] returns true, [Obtain] hands
    B a handle, and the row now carries B's token. *)
Theorem C1_loser_update_takes_live_row :
  rdblock.obtain sample.env sample.client "k3" "A" "" 100 0 [] = (sample.held, inr true) /\
  rdblock.insert sample.env 1 (rdblock.mkShedLock "shedlock" "k3" 101 "B" "") sample.held
    = (sample.held, false) /\
  rdblock.sem (rdblock.updateStmt sample.env 1 (rdblock.mkShedLock "shedlock" "k3" 101 "B" ""))
    = rdblock.SemClaim "k3" 101
        (rdblock.rowOf sample.env 1 (rdblock.mkShedLock "shedlock" "k3" 101 "B" "")) /\
  rdblock.obtain sample.env sample.client "k3" "B" "" 101 1 sample.held
    = ([rdblock.rowOf sample.env 1 (rdblock.mkShedLock "shedlock" "k3" 101 "B" "")],
       inr true) /\
  rdblock.Obtain sample.env None (fun _ => true) sample.client context.Background 1 "k3" 100
    [fun o => {| opt_RetryStrategy := opt_RetryStrategy o; dblock.Meta := dblock.Meta o;
                 dblock.Token := "B" |}] sample.held
    = Some (inr {| rdblock.lClient := sample.client; rdblock.Key := "k3";
                   rdblock.token := "B"; rdblock.metadata := ""; rdblock.lUntil := 101 |},
            {| acquire.now := 1;
               acquire.store :=
                 [rdblock.rowOf sample.env 1 (rdblock.mkShedLock "shedlock" "k3" 101 "B" "")];
               acquire.calls := 0; acquire.trace := [acquire.EvAttempt 1] |}).
Proof. by split_and!; vm_compute. Qed.

(** C2, as the code has it.  One record per key: the keyspace of the
    key-value store is a map, and [obtain], [Refresh] and [Release] of
    the relational backend keep [lock_name] unique.  In the key-value
    backend, while a key holds a live record written with token A, an
    [obtain], [Refresh], [Release] or [TTL] made with another token of
    the same length leaves the keyspace as it is, and the [obtain] does
    not succeed; so of two [obtain] with distinct tokens of one length,
    the second does not succeed while the lease of the first is live. *)
Theorem C2_exclusion_equal_length_tokens :
  (forall env c key tok meta lockUntil now ttl l (db : list rdblock.Row),
     NoDup (map rdblock.lock_name db) ->
     NoDup (map rdblock.lock_name (rdblock.obtain env c key tok meta lockUntil now db).1) /\
     NoDup (map rdblock.lock_name (rdblock.Refresh env l now ttl db).1) /\
     NoDup (map rdblock.lock_name (rdblock.Release env l now db).1)) /\
  (forall key tokA metaA tokB metaB now (s : gmap string redislock.entry) e,
     redislock.find (redislock.ms_of now) key s = Some e ->
     redislock.value e = tokA +:+ metaA ->
     String.length tokA = String.length tokB ->
     tokA ≠ tokB ->
     let lB := {| redislock.Key := key; redislock.lvalue := tokB +:+ metaB;
                  redislock.tokenLen := String.length tokB |} in
     (forall ttlv,
        (redislock.obtain key (tokB +:+ metaB) (String.length tokB) ttlv now s).1 = s /\
        (redislock.obtain key (tokB +:+ metaB) (String.length tokB) ttlv now s).2
          ≠ inr true) /\
     (forall ttl, redislock.Refresh lB now ttl s = (s, Some ErrNotObtained)) /\
     redislock.Release lB now s = (s, Some ErrLockNotHeld) /\
     redislock.TTL lB now s = (s, inr 0)) /\
  (forall key tokA metaA ttlA tA tokB metaB ttlB tB (s s1 : gmap string redislock.entry),
     redislock.obtain key (tokA +:+ metaA) (String.length tokA) ttlA tA s = (s1, inr true) ->
     String.length tokA = String.length tokB ->
     tokA ≠ tokB ->
     redislock.ms_of tB < redislock.ms_of tA + ttlA ->
     (redislock.obtain key (tokB +:+ metaB) (String.length tokB) ttlB tB s1).1 = s1 /\
     (redislock.obtain key (tokB +:+ metaB) (String.length tokB) ttlB tB s1).2 ≠ inr true).
Proof.
  assert (Hpre : forall tokA metaA tokB, String.length tokA = String.length tokB ->
            tokA ≠ tokB ->
            String.substring 0 (String.length tokB) (tokA +:+ metaA) ≠ tokB).
  { intros tokA metaA tokB <- Hne. by rewrite substring_prefix_append. }
  assert (Hobtain : forall key tokA metaA tokB metaB now (s : gmap string redislock.entry) e ttlv,
            redislock.find (redislock.ms_of now) key s = Some e ->
            redislock.value e = tokA +:+ metaA ->
            String.length tokA = String.length tokB ->
            tokA ≠ tokB ->
            (redislock.obtain key (tokB +:+ metaB) (String.length tokB) ttlv now s).1 = s /\
            (redislock.obtain key (tokB +:+ metaB) (String.length tokB) ttlv now s).2
              ≠ inr true).
  { intros key tokA metaA tokB metaB now s e ttlv He Hv Hlen Hne.
    destruct (Z.le_gt_cases 1 ttlv) as [Httl|Httl].
    - destruct (decide (tokB = EmptyString)) as [->|HB].
      { destruct tokA; [done | simpl in Hlen; lia]. }
      rewrite (obtain_present _ _ _ _ _ _ e) by done.
      rewrite Hv, bool_decide_eq_false_2 by (by apply Hpre). done.
    - unfold redislock.obtain, redislock.luaObtain, redislock.SET.
      by destruct (Z.leb_spec ttlv 0); [|lia]. }
  split_and!.
  - intros env c key tok meta lockUntil now ttl l db Hnd. split_and!.
    + unfold rdblock.obtain, rdblock.insert, rdblock.update.
      pose proof (ExecContext_unique env db
        (rdblock.insertStmt env now (rdblock.mkShedLock (rdblock.cTable c) key lockUntil tok meta))
        Hnd) as H1.
      destruct (rdblock.ExecContext env db _) as [db1 [msg|n]]; [|done].
      pose proof (ExecContext_unique env db1
        (rdblock.updateStmt env now (rdblock.mkShedLock (rdblock.cTable c) key lockUntil tok meta))
        H1) as H2.
      by destruct (rdblock.ExecContext env db1 _) as [db2 [msg'|n]].
    + unfold rdblock.Refresh, rdblock.extend.
      match goal with
      | |- context [rdblock.ExecContext env db ?q] =>
          pose proof (ExecContext_unique env db q Hnd) as H1;
          destruct (rdblock.ExecContext env db q) as [db1 [msg|n]]; [done|]
      end.
      by destruct (0 <? n).
    + unfold rdblock.Release, rdblock.unlock.
      match goal with
      | |- context [rdblock.ExecContext env db ?q] =>
          pose proof (ExecContext_unique env db q Hnd) as H1;
          destruct (rdblock.ExecContext env db q) as [db1 [msg|n]]; [done|]
      end.
      by destruct (0 <? n).
  - intros key tokA metaA tokB metaB now s e He Hv Hlen Hne lB.
    split; [intros ttlv; by apply (Hobtain _ tokA metaA _ _ _ _ e)|].
    assert (Hno : forall e', redislock.find (redislock.ms_of now) (redislock.Key lB) s = Some e' ->
              String.substring 0 (redislock.tokenLen lB) (redislock.value e')
                ≠ redislock.Token lB).
    { intros e'. simpl. rewrite He. intros [= <-]. rewrite Hv.
      unfold redislock.Token. simpl. rewrite substring_prefix_append. by apply Hpre. }
    split; [intros ttl|]; by apply redis_not_owner.
  - intros key tokA metaA ttlA tA tokB metaB ttlB tB s s1 HA Hlen Hne Hlive.
    apply obtain_stores in HA.
    apply (Hobtain _ tokA metaA _ _ _ _
             {| redislock.value := tokA +:+ metaA;
                redislock.expire_at := Some (redislock.ms_of tA + ttlA) |}); try done.
    unfold redislock.find, redislock.live. rewrite HA. simpl.
    by destruct (Z.leb_spec (redislock.ms_of tB) (redislock.ms_of tA + ttlA)); [|lia].
Qed.

Lemma C2_exclusion_equal_length_tokens_witness :
  (redislock.obtain "k" ("B" +:+ "") (String.length "B") 500 0 sample.kvHeld).1
    = sample.kvHeld /\
  (redislock.obtain "k" ("B" +:+ "") (String.length "B") 500 0 sample.kvHeld).2
    ≠ inr true.
Proof.
  apply (proj2 (proj2 C2_exclusion_equal_length_tokens)
           "k" "A" "m" 1000 0 "B" "" 500 0 ∅ sample.kvHeld);
    [reflexivity | reflexivity | discriminate | reflexivity].
Defined.

(** C2 as stated fails in the key-value backend: with the key absent,
    [obtain] with token "ab" succeeds; its lease is live; [obtain] with
    the distinct token "a" then succeeds too, the stored value starting
    with "a". *)
Lemma C2_distinct_tokens_both_obtain :
  "ab" ≠ "a" /\
  redislock.obtain "k" ("ab" +:+ "") (String.length "ab") 1000 0 ∅
    = ({[ "k" := {| redislock.value := "ab"; redislock.expire_at := Some 1000 |} ]},
       inr true) /\
  redislock.GET (redislock.ms_of 0) "k"
    {[ "k" := {| redislock.value := "ab"; redislock.expire_at := Some 1000 |} ]}
    = Some "ab" /\
  redislock.obtain "k" ("a" +:+ "") (String.length "a") 1000 0
    {[ "k" := {| redislock.value := "ab"; redislock.expire_at := Some 1000 |} ]}
    = ({[ "k" := {| redislock.value := "a"; redislock.expire_at := Some 1000 |} ]},
       inr true).
Proof. split_and!; [discriminate | reflexivity | reflexivity | reflexivity]. Qed.

(** ** Claims about the statement texts *)

(** C4 as stated fails: two INSERT statements whose locks differ in the
    key only have different texts, and neither carries a bound
    argument. *)
Lemma C4_text_depends_on_key :
  rdblock.text (rdblock.insertStmt sample.env 0 (rdblock.mkShedLock "shedlock" "a" 1 "A" "m"))
  ≠ rdblock.text (rdblock.insertStmt sample.env 0 (rdblock.mkShedLock "shedlock" "b" 1 "A" "m")) /\
  rdblock.args (rdblock.insertStmt sample.env 0 (rdblock.mkShedLock "shedlock" "a" 1 "A" "m")) = [].
Proof. split; [vm_compute; discriminate | reflexivity]. Qed.

(** C4, as the code has it.  No statement of the relational backend
    carries bound arguments.  Key, token, metadata, host name, process
    id and the formatted times are each passed through [SingleQuote]
    and substituted for their placeholder in the statement text; when
    none of the values substituted before the last placeholder contains
    an opening brace, the four texts are the ones given here. *)
Theorem C4_values_are_interpolated (env : rdblock.Env) (now : Z) (l : rdblock.shedLock) :
  braceFree (rdblock.Table l) = true ->
  braceFree (rdblock.Name l) = true ->
  braceFree (rdblock.Format env (rdblock.Until l)) = true ->
  braceFree (rdblock.Format env now) = true ->
  braceFree (rdblock.Hostname env) = true ->
  braceFree (rdblock.shToken l) = true ->
  braceFree (rdblock.Meta l) = true ->
  (rdblock.text (rdblock.insertStmt env now l) =
     "INSERT INTO " +:+ rdblock.Table l +:+
     " (lock_name, lock_until, locked_at, locked_by, token_value, meta_value, locked_pid) VALUES (" +:+
     rdblock.SingleQuote (rdblock.Name l) +:+ ", " +:+
     rdblock.SingleQuote (rdblock.Format env (rdblock.Until l)) +:+ ", " +:+
     rdblock.SingleQuote (rdblock.Format env now) +:+ ", " +:+
     rdblock.SingleQuote (rdblock.Hostname env) +:+ ", " +:+
     rdblock.SingleQuote (rdblock.shToken l) +:+ ", " +:+
     rdblock.SingleQuote (rdblock.Meta l) +:+ ", " +:+
     rdblock.SingleQuote (rdblock.Pid env) +:+ ")" /\
   rdblock.args (rdblock.insertStmt env now l) = []) /\
  (rdblock.text (rdblock.updateStmt env now l) =
     "UPDATE " +:+ rdblock.Table l +:+
     " SET lock_until = " +:+ rdblock.SingleQuote (rdblock.Format env (rdblock.Until l)) +:+
     ", locked_at = " +:+ rdblock.SingleQuote (rdblock.Format env now) +:+
     ", locked_by = " +:+ rdblock.SingleQuote (rdblock.Hostname env) +:+
     ", token_value = " +:+ rdblock.SingleQuote (rdblock.shToken l) +:+
     ", meta_value = " +:+ rdblock.SingleQuote (rdblock.Meta l) +:+
     ", locked_pid = " +:+ rdblock.SingleQuote (rdblock.Pid env) +:+
     " WHERE lock_name = " +:+ rdblock.SingleQuote (rdblock.Name l) +:+
     " AND lock_until <= " +:+ rdblock.SingleQuote (rdblock.Format env (rdblock.Until l)) /\
   rdblock.args (rdblock.updateStmt env now l) = []) /\
  (rdblock.text (rdblock.extendStmt env l) =
     "UPDATE " +:+ rdblock.Table l +:+
     " SET lock_until = " +:+ rdblock.SingleQuote (rdblock.Format env (rdblock.Until l)) +:+
     " WHERE lock_name = " +:+ rdblock.SingleQuote (rdblock.Name l) +:+
     " AND token_value = " +:+ rdblock.SingleQuote (rdblock.shToken l) /\
   rdblock.args (rdblock.extendStmt env l) = []) /\
  (rdblock.text (rdblock.queryStmt l) =
     "select lock_until, locked_at, locked_by, token_value, meta_value, locked_pid from " +:+
     rdblock.Table l +:+
     " WHERE lock_name = " +:+ rdblock.SingleQuote (rdblock.Name l) +:+
     " AND token_value = " +:+ rdblock.SingleQuote (rdblock.shToken l) /\
   rdblock.args (rdblock.queryStmt l) = []).
Proof.
  intros HT HN HU HA HB HK HM. split_and!; try reflexivity.
  - by apply insertText_eq.
  - by apply updateText_eq.
  - by apply extendText_eq.
  - by apply queryText_eq.
Qed.

Lemma C4_values_are_interpolated_witness :
  rdblock.text (rdblock.extendStmt sample.env (rdblock.mkShedLock "shedlock" "k'3" 100 "A" "")) =
    "UPDATE shedlock SET lock_until = '100' WHERE lock_name = 'k\'3' AND token_value = 'A'" /\
  rdblock.args (rdblock.extendStmt sample.env (rdblock.mkShedLock "shedlock" "k'3" 100 "A" "")) = [].
Proof.
  apply (C4_values_are_interpolated sample.env 0
           (rdblock.mkShedLock "shedlock" "k'3" 100 "A" "")); reflexivity.
Defined.

(** * Further properties of the code *)

(** ** The key-value backend: life of a record *)

(** X1.  After a successful [obtain] the handle's [TTL] reads back the
    lease: the milliseconds left until the expiry the script set, in
    nanoseconds, and zero once that expiry is reached; the keyspace is
    not changed by the query. *)
Theorem kv_obtain_then_TTL (key val : string) (n : nat) (ttlv now t : Z)
    (s s1 : gmap string redislock.entry) :
  redislock.obtain key val n ttlv now s = (s1, inr true) ->
  redislock.TTL {| redislock.Key := key; redislock.lvalue := val; redislock.tokenLen := n |}
    t s1
  = (s1, inr (if redislock.ms_of t <? redislock.ms_of now + ttlv
              then (redislock.ms_of now + ttlv - redislock.ms_of t) * 1000000
              else 0)).
Proof.
  intros Hs%obtain_stores.
  pose proof (find_stored (redislock.ms_of t) _ _ _ _ Hs) as Hf.
  unfold redislock.TTL, redislock.luaPTTL, redislock.GET, redislock.PTTL. simpl.
  rewrite Hf.
  destruct (Z.leb_spec (redislock.ms_of t) (redislock.ms_of now + ttlv)).
  - rewrite bool_decide_eq_true_2 by done. simpl.
    destruct (Z.ltb_spec (redislock.ms_of t) (redislock.ms_of now + ttlv)),
             (Z.ltb_spec 0 (redislock.ms_of now + ttlv - redislock.ms_of t)); (done || lia).
  - rewrite bool_decide_eq_false_2 by done.
    by destruct (Z.ltb_spec (redislock.ms_of t) (redislock.ms_of now + ttlv)); [lia|].
Qed.

Lemma kv_obtain_then_TTL_witness :
  redislock.TTL {| redislock.Key := "k"; redislock.lvalue := "Am"; redislock.tokenLen := 1 |}
    400000000 sample.kvHeld
  = (sample.kvHeld, inr 600000000).
Proof.
  apply (kv_obtain_then_TTL "k" "Am" 1 1000 0 400000000 ∅ sample.kvHeld).
  reflexivity.
Defined.

(** X2.  [Refresh] by the holder, with a TTL of at least one
    millisecond, succeeds, keeps the value and moves the expiry to the
    new TTL from now, whether that is later or earlier than the old
    expiry; [TTL] then reads the new lease. *)
Theorem kv_refresh_by_holder (l : redislock.Lock) (now ttl : Z)
    (s : gmap string redislock.entry) :
  redislock.GET (redislock.ms_of now) (redislock.Key l) s = Some (redislock.lvalue l) ->
  1 <= redislock.ttlVal ttl ->
  let s' := <[redislock.Key l :=
               {| redislock.value := redislock.lvalue l;
                  redislock.expire_at :=
                    Some (redislock.ms_of now + redislock.ttlVal ttl) |}]> s in
  redislock.Refresh l now ttl s = (s', None) /\
  forall t, redislock.ms_of t < redislock.ms_of now + redislock.ttlVal ttl ->
    redislock.TTL l t s'
    = (s', inr ((redislock.ms_of now + redislock.ttlVal ttl - redislock.ms_of t) * 1000000)).
Proof.
  intros Hget Httl s'. split.
  - unfold redislock.Refresh, redislock.luaRefresh, redislock.PEXPIRE.
    rewrite bool_decide_eq_true_2 by done.
    apply GET_owner_find in Hget as (e & Hf & Hv & _). rewrite Hf, Hv.
    by destruct (Z.leb_spec (redislock.ttlVal ttl) 0); [lia|].
  - intros t Ht.
    unfold redislock.TTL, redislock.luaPTTL, redislock.GET, redislock.PTTL.
    unfold s'. rewrite find_written.
    destruct (Z.leb_spec (redislock.ms_of t) (redislock.ms_of now + redislock.ttlVal ttl));
      [|lia]. simpl.
    rewrite bool_decide_eq_true_2 by done.
    by destruct (Z.ltb_spec 0
         (redislock.ms_of now + redislock.ttlVal ttl - redislock.ms_of t)); [|lia].
Qed.

Lemma kv_refresh_by_holder_witness :
  redislock.Refresh fixture.kvLockA 0 5000000 sample.kvHeld
  = (<["k" := {| redislock.value := "Am"; redislock.expire_at := Some 5 |}]> sample.kvHeld,
     None).
Proof.
  apply (kv_refresh_by_holder fixture.kvLockA 0 5000000 sample.kvHeld); [reflexivity|].
  vm_compute. discriminate.
Defined.

(** X3.  [Refresh] by the holder with a TTL below one millisecond (zero
    and negative TTLs included) returns no error although the key is
    removed: the TTL reaches the server as a non-positive number of
    milliseconds, for which [PEXPIRE] deletes the key and answers 1.
    The handle has then lost the lock: its [TTL] is zero. *)
Theorem kv_refresh_below_millisecond (l : redislock.Lock) (now ttl : Z)
    (s : gmap string redislock.entry) :
  redislock.GET (redislock.ms_of now) (redislock.Key l) s = Some (redislock.lvalue l) ->
  ttl < 1000000 ->
  redislock.Refresh l now ttl s = (delete (redislock.Key l) s, None) /\
  forall t, redislock.TTL l t (delete (redislock.Key l) s)
            = (delete (redislock.Key l) s, inr 0).
Proof.
  intros Hget Httl%ttlVal_small. split.
  - unfold redislock.Refresh, redislock.luaRefresh, redislock.PEXPIRE.
    rewrite bool_decide_eq_true_2 by done.
    apply GET_owner_find in Hget as (e & Hf & Hv & _). rewrite Hf.
    by destruct (Z.leb_spec (redislock.ttlVal ttl) 0); [|lia].
  - intros t. apply redis_no_match; [exact 0|].
    unfold redislock.GET. by rewrite find_deleted.
Qed.

Lemma kv_refresh_below_millisecond_witness :
  redislock.Refresh fixture.kvLockA 0 999999 sample.kvHeld = (delete "k" sample.kvHeld, None).
Proof.
  apply (kv_refresh_below_millisecond fixture.kvLockA 0 999999 sample.kvHeld);
    [reflexivity | lia].
Defined.

(** X4.  [Release] by the holder succeeds and deletes the key.  From
    then on the handle's [TTL] is zero, and an [obtain] by any caller
    with a TTL of at least one millisecond succeeds. *)
Theorem kv_release_by_holder (l : redislock.Lock) (now : Z)
    (s : gmap string redislock.entry) :
  redislock.GET (redislock.ms_of now) (redislock.Key l) s = Some (redislock.lvalue l) ->
  let s' := delete (redislock.Key l) s in
  redislock.Release l now s = (s', None) /\
  (forall t, redislock.TTL l t s' = (s', inr 0)) /\
  (forall val n ttlv t, 1 <= ttlv ->
     redislock.obtain (redislock.Key l) val n ttlv t s'
     = (<[redislock.Key l :=
           {| redislock.value := val;
              redislock.expire_at := Some (redislock.ms_of t + ttlv) |}]> s',
        inr true)).
Proof.
  intros Hget s'. split_and!.
  - unfold redislock.Release, redislock.luaRelease, redislock.DEL.
    rewrite bool_decide_eq_true_2 by done.
    apply GET_owner_find in Hget as (e & Hf & _). by rewrite Hf.
  - intros t. apply redis_no_match; [exact 0|].
    unfold redislock.GET, s'. by rewrite find_deleted.
  - intros val n ttlv t Httl. apply obtain_absent; [done|]. apply find_deleted.
Qed.

Lemma kv_release_by_holder_witness :
  redislock.Release fixture.kvLockA 0 sample.kvHeld = (delete "k" sample.kvHeld, None).
Proof.
  apply (kv_release_by_holder fixture.kvLockA 0 sample.kvHeld). reflexivity.
Defined.

(** X5.  Once the expiry of a record is past the record counts for
    nothing: an [obtain] by any caller (TTL of at least one
    millisecond) succeeds and overwrites it, while [Refresh],
    [Release] and [TTL] of every handle for the key, the former
    holder's included, return [ErrNotObtained], [ErrLockNotHeld] and
    zero. *)
Theorem kv_expired_record (key : string) (e : redislock.entry) (x now : Z)
    (s : gmap string redislock.entry) :
  s !! key = Some e ->
  redislock.expire_at e = Some x ->
  x < redislock.ms_of now ->
  (forall val n ttlv, 1 <= ttlv ->
     redislock.obtain key val n ttlv now s
     = (<[key := {| redislock.value := val;
                    redislock.expire_at := Some (redislock.ms_of now + ttlv) |}]> s,
        inr true)) /\
  (forall l ttl, redislock.Key l = key ->
     redislock.Refresh l now ttl s = (s, Some ErrNotObtained) /\
     redislock.Release l now s = (s, Some ErrLockNotHeld) /\
     redislock.TTL l now s = (s, inr 0)).
Proof.
  intros Hk Hx Hle.
  assert (Hnone : redislock.find (redislock.ms_of now) key s = None).
  { unfold redislock.find, redislock.live. rewrite Hk, Hx.
    by destruct (Z.leb_spec (redislock.ms_of now) x); [lia|]. }
  split.
  - intros val n ttlv Httl. by apply obtain_absent.
  - intros l ttl <-. apply redis_no_match.
    unfold redislock.GET. by rewrite Hnone.
Qed.

Lemma kv_expired_record_witness :
  redislock.obtain "k" "Bm" 1 500 1001000000 sample.kvHeld
  = (<["k" := {| redislock.value := "Bm"; redislock.expire_at := Some 1501 |}]> sample.kvHeld,
     inr true).
Proof.
  apply (kv_expired_record "k"
           {| redislock.value := "Am"; redislock.expire_at := Some 1000 |}
           1000 1001000000 sample.kvHeld); [reflexivity | reflexivity | reflexivity | lia].
Defined.

(** X6.  [Refresh], [Release] and [TTL] compare the whole stored value,
    token and metadata, with the handle's.  So when the same token
    obtains the key again with other metadata, the earlier handle stops
    matching: its [Refresh] returns [ErrNotObtained], its [Release]
    [ErrLockNotHeld], its [TTL] zero, and none of them touches the
    record. *)
Theorem kv_reclaim_stales_earlier_handle (key tok metaA metaB : string) (n : nat)
    (ttlv now : Z) (s s1 : gmap string redislock.entry) :
  redislock.obtain key (tok +:+ metaB) n ttlv now s = (s1, inr true) ->
  metaA ≠ metaB ->
  let lA := {| redislock.Key := key; redislock.lvalue := tok +:+ metaA;
               redislock.tokenLen := String.length tok |} in
  forall t ttl,
    redislock.Refresh lA t ttl s1 = (s1, Some ErrNotObtained) /\
    redislock.Release lA t s1 = (s1, Some ErrLockNotHeld) /\
    redislock.TTL lA t s1 = (s1, inr 0).
Proof.
  intros Hs%obtain_stores Hne lA t ttl. apply redis_no_match. simpl.
  unfold redislock.GET.
  rewrite (find_stored _ _ _ _ _ Hs).
  destruct (_ <=? _); [|done]. simpl.
  intros [= H%append_inv_head]. by apply Hne.
Qed.

Lemma kv_reclaim_stales_earlier_handle_witness :
  redislock.Release
    {| redislock.Key := "k"; redislock.lvalue := "A" +:+ "old";
       redislock.tokenLen := String.length "A" |} 0 sample.kvHeld
  = (sample.kvHeld, Some ErrLockNotHeld).
Proof.
  apply (kv_reclaim_stales_earlier_handle "k" "A" "old" "m" 1 1000 0 ∅ sample.kvHeld);
    [reflexivity | discriminate | exact 0].
Defined.

Lemma obtain_frame (key val : string) (n : nat) (ttlv now : Z)
    (s : gmap string redislock.entry) (k' : string) :
  k' ≠ key ->
  (redislock.obtain key val n ttlv now s).1 !! k' = s !! k'.
Proof.
  intros Hne.
  unfold redislock.obtain, redislock.luaObtain, redislock.SET.
  destruct (ttlv <=? 0); [done|].
  destruct (true && bool_decide (is_Some (redislock.find (redislock.ms_of now) key s)));
    [case_bool_decide|]; simpl; by rewrite ?lookup_insert_ne.
Qed.

(** X7.  Every operation works on its own key only: [obtain],
    [Refresh], [Release] and [TTL] for one key leave the record of
    every other key as it was. *)
Theorem kv_other_keys_untouched (l : redislock.Lock) (n : nat) (val k' : string)
    (ttlv ttl now : Z) (s : gmap string redislock.entry) :
  k' ≠ redislock.Key l ->
  (redislock.obtain (redislock.Key l) val n ttlv now s).1 !! k' = s !! k' /\
  (redislock.Refresh l now ttl s).1 !! k' = s !! k' /\
  (redislock.Release l now s).1 !! k' = s !! k' /\
  (redislock.TTL l now s).1 !! k' = s !! k'.
Proof.
  intros Hne. split_and!.
  - by apply obtain_frame.
  - unfold redislock.Refresh, redislock.luaRefresh, redislock.PEXPIRE.
    case_bool_decide; [|done].
    destruct (redislock.find _ _ s); [|done].
    destruct (redislock.ttlVal ttl <=? 0); simpl;
      by rewrite ?lookup_delete_ne, ?lookup_insert_ne.
  - unfold redislock.Release, redislock.luaRelease, redislock.DEL.
    case_bool_decide; [|done].
    destruct (redislock.find _ _ s); simpl; by rewrite ?lookup_delete_ne.
  - unfold redislock.TTL, redislock.luaPTTL.
    case_bool_decide; [|done]. by destruct (0 <? _).
Qed.

Lemma kv_other_keys_untouched_witness :
  (redislock.Release fixture.kvLockA 0
     (<["other" := {| redislock.value := "Zz"; redislock.expire_at := None |}]>
        sample.kvHeld)).1 !! "other"
  = (<["other" := {| redislock.value := "Zz"; redislock.expire_at := None |}]>
       sample.kvHeld) !! "other".
Proof.
  apply (kv_other_keys_untouched fixture.kvLockA 0 "" "other" 1 1 0). discriminate.
Defined.

Lemma iter_error {Store Lock : Type} (attempt : Z -> Store -> Store * (error + bool))
    (lock : Lock) (retry : RetryStrategy) (ctx : context.Context) (tie : nat -> bool)
    (s : acquire.State Store) (st : Store) (err : error) :
  attempt (acquire.now s) (acquire.store s) = (st, inl err) ->
  acquire.iter attempt lock retry ctx tie s =
    inr (inl err,
         {| acquire.now := acquire.now s; acquire.store := st;
            acquire.calls := acquire.calls s;
            acquire.trace := acquire.EvAttempt (acquire.now s) :: acquire.trace s |}).
Proof. intros Ha. unfold acquire.iter. by rewrite Ha. Qed.

(** X8.  [Obtain] of the key-value backend with a TTL below one
    millisecond cannot succeed: the TTL reaches the server as zero or
    less, the server rejects the [SET], and [Obtain] returns that error
    after its first attempt, whatever the retry strategy and whether or
    not the key is free, with the keyspace unchanged. *)
Theorem kv_Obtain_below_millisecond (rnd : option string) (tie : nat -> bool)
    (ctx : context.Context) (start : Z) (key : string) (ttl : Z) (opt : option Options)
    (s : gmap string redislock.entry) (tok : string) :
  ttl < 1000000 ->
  redislock.tokenFor (redislock.orEmpty opt) rnd = inr tok ->
  redislock.Obtain rnd tie ctx start key ttl opt s =
    Some (inl (ErrBackend "ERR invalid expire time in 'set' command"),
          {| acquire.now := start; acquire.store := s; acquire.calls := 0;
             acquire.trace := [acquire.EvAttempt start] |}).
Proof.
  intros Httl%ttlVal_small Htok. rewrite (redis_Obtain_run _ _ _ _ _ _ _ _ _ Htok).
  destruct (bounded_done_at ctx (start + ttl)) as [d Hd].
  apply (run_one _ _ _ _ _ d); [done|].
  apply iter_error. simpl.
  unfold redislock.obtain, redislock.luaObtain, redislock.SET.
  by destruct (Z.leb_spec (redislock.ttlVal ttl) 0); [|lia].
Qed.

Lemma kv_Obtain_below_millisecond_witness :
  redislock.Obtain None (fun _ => true) sample.ctxCancelled 0 "free" 999999
    (Some sample.optB) ∅ =
    Some (inl (ErrBackend "ERR invalid expire time in 'set' command"),
          {| acquire.now := 0; acquire.store := ∅; acquire.calls := 0;
             acquire.trace := [acquire.EvAttempt 0] |}).
Proof.
  apply (kv_Obtain_below_millisecond None (fun _ => true) sample.ctxCancelled 0 "free"
           999999 (Some sample.optB) ∅ "B"); [lia | reflexivity].
Defined.

(** ** The acquisition loop: why it ends *)

Section LoopEnds.
Context {Store Lock : Type}.
Variable attempt : Z -> Store -> Store * (error + bool).
Variable lock : Lock.
Variable retry : RetryStrategy.
Variable ctx : context.Context.
Variable tie : nat -> bool.

Lemma loop_not_obtained (fuel : nat) (s fin : acquire.State Store) :
  (forall t st st', attempt t st ≠ (st', inl ErrNotObtained)) ->
  acquire.loop attempt lock retry ctx tie fuel s = Some (inl ErrNotObtained, fin) ->
  exists k, acquire.calls fin = S k /\ NextBackoff retry k < 1.
Proof.
  intros Hback. revert s. induction fuel as [|fuel IH]; intros s; [done|].
  simpl. destruct (acquire.iter attempt lock retry ctx tie s) as [s'|out] eqn:Hit;
    [apply IH|].
  intros [= ->]. revert Hit. unfold acquire.iter.
  destruct (attempt (acquire.now s) (acquire.store s)) as [st [err|[|]]] eqn:Ha.
  - intros [= -> _]. by apply Hback in Ha.
  - done.
  - destruct (Z.ltb_spec (NextBackoff retry (acquire.calls s)) 1).
    + intros [= <-]. by exists (acquire.calls s).
    + destruct (acquire.select ctx _ _ _); [done|].
      intros [= Herr _]. exfalso.
      by apply (ctx_err_not_busy (L := Lock) ctx); rewrite Herr.
Qed.

(** Busy once, free at the second attempt: two attempts, one sleep. *)
Lemma run_second_attempt (d b : Z) (s : acquire.State Store) (st1 st2 : Store) :
  context.done_at ctx = Some d ->
  attempt (acquire.now s) (acquire.store s) = (st1, inr false) ->
  NextBackoff retry (acquire.calls s) = b ->
  1 <= b ->
  acquire.now s + b < d ->
  attempt (acquire.now s + b) st1 = (st2, inr true) ->
  acquire.run attempt lock retry ctx tie s =
    Some (inr lock,
          {| acquire.now := acquire.now s + b; acquire.store := st2;
             acquire.calls := S (acquire.calls s);
             acquire.trace :=
               acquire.EvAttempt (acquire.now s + b)
                 :: acquire.EvSleep (acquire.now s) b
                 :: acquire.EvAttempt (acquire.now s) :: acquire.trace s |}).
Proof.
  intros Hd H1 Hb Hb1 Hlt H2. unfold acquire.run, acquire.budget. rewrite Hd.
  replace (Z.to_nat (d - acquire.now s) + 2)%nat
    with (S (S (Z.to_nat (d - acquire.now s)))) by lia.
  cbn [acquire.loop]. unfold acquire.iter at 1. rewrite H1, Hb.
  destruct (Z.ltb_spec b 1); [lia|].
  unfold acquire.select. rewrite Hd.
  destruct (Z.ltb_spec d (acquire.now s + b)); [lia|].
  destruct (Z.ltb_spec (acquire.now s + b) d); [|lia].
  unfold acquire.iter. simpl. by rewrite H2.
Qed.

End LoopEnds.

Lemma redis_obtain_error (key val : string) (n : nat) (ttlv now : Z)
    (s s' : gmap string redislock.entry) :
  redislock.obtain key val n ttlv now s ≠ (s', inl ErrNotObtained).
Proof.
  unfold redislock.obtain.
  destruct (redislock.luaObtain _ _ _ _ _ _) as [s1 [| | |]]; congruence.
Qed.

(** X9.  [Obtain] of either backend returns [ErrNotObtained] only
    because its retry strategy said stop: when it does, the last call
    of [NextBackoff] returned less than one.  Under a strategy that
    never stops [Obtain] therefore ends with the lock, with an error of
    the backend, or with the error of the context. *)
Theorem not_obtained_only_when_strategy_stops :
  (forall rnd tie ctx start key ttl opt (s : gmap string redislock.entry) fin,
     redislock.Obtain rnd tie ctx start key ttl opt s = Some (inl ErrNotObtained, fin) ->
     exists k, acquire.calls fin = S k /\
               NextBackoff (GetRetryStrategy (redislock.orEmpty opt)) k < 1) /\
  (forall env rnd tie c ctx start key ttl fns (db : list rdblock.Row) fin,
     rdblock.Obtain env rnd tie c ctx start key ttl fns db = Some (inl ErrNotObtained, fin) ->
     exists k, acquire.calls fin = S k /\
               NextBackoff (GetRetryStrategy (rdblock.applyOptions fns)) k < 1).
Proof.
  split.
  - intros rnd tie ctx start key ttl opt s fin.
    destruct (redislock.tokenFor (redislock.orEmpty opt) rnd) as [err|tok] eqn:Htok.
    + unfold redislock.Obtain. rewrite Htok. intros [= -> _].
      revert Htok. unfold redislock.tokenFor, redislock.randomToken, dblock.RandomToken.
      case_bool_decide; [by destruct rnd | done].
    + rewrite (redis_Obtain_run _ _ _ _ _ _ _ _ _ Htok). unfold acquire.run.
      apply loop_not_obtained. intros t st st'. apply redis_obtain_error.
  - intros env rnd tie c ctx start key ttl fns db fin.
    destruct (rdblock.tokenFor (rdblock.applyOptions fns) rnd) as [err|tok] eqn:Htok.
    + unfold rdblock.Obtain. rewrite Htok. intros [= -> _].
      revert Htok. unfold rdblock.tokenFor, dblock.RandomToken.
      case_bool_decide; [by destruct rnd | done].
    + rewrite (rdb_Obtain_run _ _ _ _ _ _ _ _ _ _ _ Htok). unfold acquire.run.
      apply loop_not_obtained. intros t st st'. apply rdb_obtain_error.
Qed.

Lemma not_obtained_only_when_strategy_stops_witness :
  exists k,
    acquire.calls
      {| acquire.now := 0; acquire.store := sample.kvHeld; acquire.calls := 1;
         acquire.trace := [acquire.EvAttempt 0] |} = S k /\
    NextBackoff
      (GetRetryStrategy
         (redislock.orEmpty
            (Some {| opt_RetryStrategy := None; dblock.Meta := "m"; dblock.Token := "B" |})))
      k < 1.
Proof.
  apply (proj1 not_obtained_only_when_strategy_stops None (fun _ => true)
           sample.ctxCancelled 0 "k" 2000000
           (Some {| opt_RetryStrategy := None; dblock.Meta := "m"; dblock.Token := "B" |})
           sample.kvHeld).
  reflexivity.
Defined.

(** X10.  A retry obtains the lock that became free in the meantime.
    The TTL is at least one millisecond; the key holds a value that
    does not begin with the caller's token, live at the call and
    expired by the end of the first backoff, which ends before the
    context is done: [Obtain] of the key-value backend makes a first
    attempt, sleeps the backoff, and its second attempt writes the
    caller's value with the TTL counted from that second instant and
    returns the handle. *)
Theorem kv_retry_after_expiry (rnd : option string) (tie : nat -> bool)
    (ctx : context.Context) (start : Z) (key : string) (ttl : Z) (opt : option Options)
    (s : gmap string redislock.entry) (tok : string) (e : redislock.entry) (x d : Z) :
  redislock.tokenFor (redislock.orEmpty opt) rnd = inr tok ->
  tok ≠ EmptyString ->
  1 <= redislock.ttlVal ttl ->
  s !! key = Some e ->
  redislock.expire_at e = Some x ->
  String.substring 0 (String.length tok) (redislock.value e) ≠ tok ->
  redislock.ms_of start <= x ->
  let b := NextBackoff (GetRetryStrategy (redislock.orEmpty opt)) 0 in
  1 <= b ->
  x < redislock.ms_of (start + b) ->
  context.done_at (acquire.bounded ctx (start + ttl)) = Some d ->
  start + b < d ->
  redislock.Obtain rnd tie ctx start key ttl opt s =
    Some (inr {| redislock.Key := key;
                 redislock.lvalue := tok +:+ dblock.Meta (redislock.orEmpty opt);
                 redislock.tokenLen := String.length tok |},
          {| acquire.now := start + b;
             acquire.store :=
               <[key := {| redislock.value := tok +:+ dblock.Meta (redislock.orEmpty opt);
                           redislock.expire_at :=
                             Some (redislock.ms_of (start + b) + redislock.ttlVal ttl) |}]> s;
             acquire.calls := 1;
             acquire.trace := [acquire.EvAttempt (start + b); acquire.EvSleep start b;
                               acquire.EvAttempt start] |}).
Proof.
  intros Htok Hne Httl Hk Hx Hpre Hlive b Hb Hexp Hd Hlt.
  rewrite (redis_Obtain_run _ _ _ _ _ _ _ _ _ Htok).
  apply (run_second_attempt _ _ _ _ _ d b (acquire.initial start s) s); try done.
  - simpl. rewrite (obtain_present _ _ _ _ _ _ e); [by rewrite bool_decide_eq_false_2|done..|].
    unfold redislock.find, redislock.live. rewrite Hk, Hx.
    by destruct (Z.leb_spec (redislock.ms_of start) x); [|lia].
  - simpl. apply obtain_absent; [done|].
    unfold redislock.find, redislock.live. rewrite Hk, Hx.
    by destruct (Z.leb_spec (redislock.ms_of (start + b)) x); [lia|].
Qed.

Lemma kv_retry_after_expiry_witness :
  redislock.Obtain None (fun _ => true)
    {| context.Deadline := Some 1002000000; context.cancel_at := None |}
    999000000 "k" 2000000
    (Some {| opt_RetryStrategy := Some {| NextBackoff := fun _ => 2000000 |};
             dblock.Meta := "m"; dblock.Token := "B" |}) sample.kvHeld =
    Some (inr {| redislock.Key := "k"; redislock.lvalue := "Bm"; redislock.tokenLen := 1 |},
          {| acquire.now := 1001000000;
             acquire.store :=
               <["k" := {| redislock.value := "Bm"; redislock.expire_at := Some 1003 |}]>
                 sample.kvHeld;
             acquire.calls := 1;
             acquire.trace := [acquire.EvAttempt 1001000000;
                               acquire.EvSleep 999000000 2000000;
                               acquire.EvAttempt 999000000] |}).
Proof.
  apply (kv_retry_after_expiry None (fun _ => true)
           {| context.Deadline := Some 1002000000; context.cancel_at := None |}
           999000000 "k" 2000000
           (Some {| opt_RetryStrategy := Some {| NextBackoff := fun _ => 2000000 |};
                    dblock.Meta := "m"; dblock.Token := "B" |}) sample.kvHeld "B"
           {| redislock.value := "Am"; redislock.expire_at := Some 1000 |} 1000 1002000000);
    try reflexivity; try discriminate; vm_compute; discriminate.
Defined.

(** ** The relational backend: life of a row *)

Lemma iter_obtained_at {Store Lock : Type} (attempt : Z -> Store -> Store * (error + bool))
    (lock : Lock) (retry : RetryStrategy) (ctx : context.Context) (tie : nat -> bool)
    (s : acquire.State Store) (st : Store) :
  attempt (acquire.now s) (acquire.store s) = (st, inr true) ->
  acquire.iter attempt lock retry ctx tie s =
    inr (inr lock,
         {| acquire.now := acquire.now s; acquire.store := st;
            acquire.calls := acquire.calls s;
            acquire.trace := acquire.EvAttempt (acquire.now s) :: acquire.trace s |}).
Proof. intros Ha. unfold acquire.iter. by rewrite Ha. Qed.

(** X11.  [obtain] with plain values, for a key that has no row,
    inserts one and succeeds: the table is the old one followed by a
    row with the key, the new expiry, the time of the call, the host
    name, the token, the metadata and the process id. *)
Theorem rdb_obtain_new_key (env : rdblock.Env) (c : rdblock.Client) (key tok meta : string)
    (until now : Z) (db : list rdblock.Row) :
  plainObtain env c key tok meta until now ->
  (forall r, r ∈ db -> rdblock.lock_name r ≠ key) ->
  rdblock.obtain env c key tok meta until now db =
    (db ++ [ {| rdblock.lock_name := key; rdblock.lock_until := until;
                rdblock.locked_at := now; rdblock.locked_by := rdblock.Hostname env;
                rdblock.token_value := tok; rdblock.meta_value := meta;
                rdblock.locked_pid := rdblock.Pid env |} ],
     inr true).
Proof. intros Hp Hno. by rewrite rdb_obtain_fresh. Qed.

Lemma rdb_obtain_new_key_witness :
  rdblock.obtain sample.env sample.client "other" "B" "mb" 7 3 sample.held =
    (sample.held ++ [ {| rdblock.lock_name := "other"; rdblock.lock_until := 7;
                rdblock.locked_at := 3; rdblock.locked_by := rdblock.Hostname sample.env;
                rdblock.token_value := "B"; rdblock.meta_value := "mb";
                rdblock.locked_pid := rdblock.Pid sample.env |} ],
     inr true).
Proof.
  apply (rdb_obtain_new_key sample.env sample.client "other" "B" "mb" 7 3 sample.held).
  - by repeat split.
  - intros r [->|[]%elem_of_nil]%elem_of_cons. discriminate.
Defined.

(** X12.  [obtain] with plain values leaves alone a row whose lease
    ends after the lease asked for: when every row of the key has a
    [lock_until] later than the new one, the INSERT is rejected, the
    UPDATE matches nothing, [obtain] reports that the lock was not
    obtained and the table is unchanged. *)
Theorem rdb_longer_lease_is_kept (env : rdblock.Env) (c : rdblock.Client)
    (key tok meta : string) (until now : Z) (db : list rdblock.Row) (r : rdblock.Row) :
  plainObtain env c key tok meta until now ->
  r ∈ db -> rdblock.lock_name r = key ->
  (forall r', r' ∈ db -> rdblock.lock_name r' = key -> until < rdblock.lock_until r') ->
  rdblock.obtain env c key tok meta until now db = (db, inr false).
Proof.
  intros Hp Hin Hname Hlater. rewrite (rdb_obtain_taken _ _ _ _ _ _ _ _ r) by done.
  assert (Hnone : forall x, x ∈ db -> rdblock.claimable key until x = false).
  { intros x Hx. unfold rdblock.claimable, rdblock.named.
    case_bool_decide as Hn; [|done]. simpl.
    specialize (Hlater x Hx Hn). by destruct (Z.leb_spec (rdblock.lock_until x) until); [lia|]. }
  by rewrite map_untouched, count_none.
Qed.

Lemma rdb_longer_lease_is_kept_witness :
  rdblock.obtain sample.env sample.client "k3" "B" "" 99 1 sample.held
  = (sample.held, inr false).
Proof.
  apply (rdb_longer_lease_is_kept sample.env sample.client "k3" "B" "" 99 1 sample.held
           (sample.rowA 100)); [by repeat split | apply list_elem_of_here | reflexivity |].
  intros r' [->|[]%elem_of_nil]%elem_of_cons _. simpl. lia.
Defined.

(** X13.  Expiry in the relational backend, for plain values: when the
    row of the key has a [lock_until] that is not after the instant of
    the call and the TTL is not negative, [Obtain] gets the lock at its
    first attempt, whatever the row's token: every row of the key whose
    lease ends by the new expiry is rewritten with the caller's token,
    metadata and expiry. *)
Theorem rdb_Obtain_after_expiry (env : rdblock.Env) (rnd : option string)
    (tie : nat -> bool) (c : rdblock.Client) (ctx : context.Context) (start : Z)
    (key : string) (ttl : Z) (fns : list (Options -> Options)) (db : list rdblock.Row)
    (tok : string) (r : rdblock.Row) :
  rdblock.tokenFor (rdblock.applyOptions fns) rnd = inr tok ->
  let meta := dblock.Meta (rdblock.applyOptions fns) in
  plainObtain env (rdblock.withTable c) key tok meta (start + ttl) start ->
  r ∈ db -> rdblock.lock_name r = key ->
  rdblock.lock_until r <= start ->
  0 <= ttl ->
  let new := rdblock.rowOf env start
               (rdblock.mkShedLock (rdblock.cTable (rdblock.withTable c)) key
                  (start + ttl) tok meta) in
  rdblock.Obtain env rnd tie c ctx start key ttl fns db =
    Some (inr {| rdblock.lClient := rdblock.withTable c; rdblock.Key := key;
                 rdblock.token := tok; rdblock.metadata := meta;
                 rdblock.lUntil := start + ttl |},
          {| acquire.now := start;
             acquire.store :=
               map (fun x => if rdblock.claimable key (start + ttl) x
                             then rdblock.setClaim new x else x) db;
             acquire.calls := 0;
             acquire.trace := [acquire.EvAttempt start] |}).
Proof.
  intros Htok meta Hp Hin Hname Hexp Httl new.
  rewrite (rdb_Obtain_run _ _ _ _ _ _ _ _ _ _ _ Htok).
  destruct (bounded_done_at ctx (start + ttl)) as [d Hd].
  apply (run_one _ _ _ _ _ d); [done|].
  apply iter_obtained_at. simpl.
  rewrite (rdb_obtain_taken _ _ _ _ _ _ _ _ r) by done.
  replace (0 <? rdblock.count (rdblock.claimable key (start + ttl)) db) with true; [done|].
  symmetry. apply Z.ltb_lt, count_pos. exists r. split; [done|].
  unfold rdblock.claimable, rdblock.named. rewrite bool_decide_eq_true_2 by done.
  simpl. apply Z.leb_le. lia.
Qed.

Lemma rdb_Obtain_after_expiry_witness :
  exists fin,
    rdblock.Obtain sample.env None (fun _ => true) sample.client
      {| context.Deadline := Some 1000; context.cancel_at := None |} 200
      "k3" 100
      [fun o => {| opt_RetryStrategy := opt_RetryStrategy o; dblock.Meta := dblock.Meta o;
                   dblock.Token := "B" |}] sample.held
    = Some (inr fixture.lockB, fin).
Proof.
  eexists.
  apply (rdb_Obtain_after_expiry sample.env None (fun _ => true) sample.client
           {| context.Deadline := Some 1000; context.cancel_at := None |} 200 "k3" 100
           [fun o => {| opt_RetryStrategy := opt_RetryStrategy o; dblock.Meta := dblock.Meta o;
                        dblock.Token := "B" |}] sample.held "B" (sample.rowA 100));
    [reflexivity | by repeat split | apply list_elem_of_here | reflexivity | simpl; lia | lia].
Defined.

Lemma TTL_found (l : rdblock.Lock) (t : Z) (db : list rdblock.Row) (r : rdblock.Row) :
  plainLock l ->
  List.find (rdblock.owned (rdblock.Key l) (rdblock.token l)) db = Some r ->
  rdblock.TTL l t db =
    (withUntil l (rdblock.lock_until r),
     inr (if 0 <? rdblock.lock_until r - t then rdblock.lock_until r - t else 0)).
Proof. intros Hl Hf. by rewrite TTL_plain, Hf. Qed.

(** X14.  In a table with one row per name, for a handle with plain
    key and token and an [obtain] with plain values, the handle's [TTL]
    after the successful [obtain] reads the lease back: the handle's
    [Until] becomes the expiry written, and the result is the time left
    to it, or zero from the expiry on. *)
Theorem rdb_obtain_then_TTL (env : rdblock.Env) (c : rdblock.Client) (l : rdblock.Lock)
    (meta : string) (until now t : Z) (db db' : list rdblock.Row) :
  plainLock l ->
  plainObtain env c (rdblock.Key l) (rdblock.token l) meta until now ->
  NoDup (map rdblock.lock_name db) ->
  rdblock.obtain env c (rdblock.Key l) (rdblock.token l) meta until now db = (db', inr true) ->
  rdblock.TTL l t db' =
    (withUntil l until, inr (if 0 <? until - t then until - t else 0)).
Proof.
  intros Hl Hp Hnd Hob.
  set (new := rdblock.rowOf env now
                (rdblock.mkShedLock (rdblock.cTable c) (rdblock.Key l) until
                   (rdblock.token l) meta)).
  assert (Hrow : exists r, r ∈ db' /\ NoDup (map rdblock.lock_name db') /\
            rdblock.owned (rdblock.Key l) (rdblock.token l) r = true /\
            rdblock.lock_until r = until).
  { destruct (rdb_named_or_not (rdblock.Key l) db) as [Hno|(r & Hin & Hn)].
    - rewrite rdb_obtain_fresh in Hob by done. injection Hob as <-.
      exists new. split_and!.
      + apply elem_of_app. right. apply list_elem_of_here.
      + rewrite map_app. apply NoDup_app. split_and!; [done | | apply NoDup_singleton].
        intros x Hx ->%list_elem_of_singleton.
        apply list_elem_of_In, in_map_iff in Hx as (r & Hr & Hin).
        by apply (Hno r); [apply list_elem_of_In|].
      + unfold rdblock.owned, rdblock.named, new. simpl.
        by rewrite !bool_decide_eq_true_2.
      + done.
    - rewrite (rdb_obtain_taken _ _ _ _ _ _ _ _ r) in Hob by done.
      injection Hob as <- Hpos.
      apply Z.ltb_lt, count_pos in Hpos as (r0 & Hin0 & Hcl).
      exists (rdblock.setClaim new r0). split_and!.
      + apply list_elem_of_In, in_map_iff. exists r0.
        rewrite Hcl. split; [done | by apply list_elem_of_In].
      + by rewrite names_setClaim.
      + unfold rdblock.claimable in Hcl. apply andb_true_iff in Hcl as [Hn0 _].
        unfold rdblock.owned, rdblock.named in *. simpl.
        rewrite Hn0. simpl. by apply bool_decide_eq_true_2.
      + done. }
  destruct Hrow as (r & Hin & Hnd' & Hown & <-).
  apply TTL_found; [done|]. by apply find_owned_unique.
Qed.

Lemma rdb_obtain_then_TTL_witness :
  rdblock.TTL sample.lockA 40 sample.held = (withUntil sample.lockA 100, inr 60).
Proof.
  apply (rdb_obtain_then_TTL sample.env sample.client sample.lockA "" 100 0 40 []
           sample.held); [by repeat split | by repeat split | apply NoDup_nil_2 | reflexivity].
Defined.

(** X15.  [Refresh] by the holder, with plain key and token, succeeds
    and sets the expiry of the holder's rows to the new TTL from now,
    later or earlier than before; the other columns stay.  [TTL] then
    reads the new lease. *)
Theorem rdb_refresh_by_holder (env : rdblock.Env) (l : rdblock.Lock) (now ttl : Z)
    (db : list rdblock.Row) (r : rdblock.Row) :
  plainLock l ->
  readable env (now + ttl) ->
  r ∈ db ->
  rdblock.owned (rdblock.Key l) (rdblock.token l) r = true ->
  let db' := map (fun x => if rdblock.owned (rdblock.Key l) (rdblock.token l) x
                           then rdblock.setUntil (now + ttl) x else x) db in
  rdblock.Refresh env l now ttl db = (db', None) /\
  forall t, rdblock.TTL l t db' =
    (withUntil l (now + ttl), inr (if 0 <? now + ttl - t then now + ttl - t else 0)).
Proof.
  intros Hl Hr Hin Hown db'. split.
  - rewrite Refresh_plain by done. by rewrite (count_owned _ _ _ r).
  - intros t.
    destruct (find_owned_some _ _ _ _ Hin Hown) as (r0 & Hf & _).
    rewrite (TTL_found l t db' (rdblock.setUntil (now + ttl) r0)); [done | done |].
    unfold db'. by rewrite find_setUntil, Hf.
Qed.

Lemma rdb_refresh_by_holder_witness :
  rdblock.Refresh sample.env sample.lockA 50 10 sample.held = ([sample.rowA 60], None).
Proof.
  apply (rdb_refresh_by_holder sample.env sample.lockA 50 10 sample.held (sample.rowA 100));
    [by repeat split | by split | apply list_elem_of_here | reflexivity].
Defined.

(** X16.  [Release] by the holder, with plain key and token, succeeds
    and puts the expiry of the holder's rows one second before the
    release.  From that instant on the handle's [TTL] is zero, and an
    [obtain] with plain values by any caller whose new expiry is not
    before that instant takes the row. *)
Theorem rdb_release_by_holder (env : rdblock.Env) (l : rdblock.Lock) (now : Z)
    (db : list rdblock.Row) (r : rdblock.Row) :
  plainLock l ->
  readable env (now - 1000000000) ->
  r ∈ db ->
  rdblock.owned (rdblock.Key l) (rdblock.token l) r = true ->
  let db' := map (fun x => if rdblock.owned (rdblock.Key l) (rdblock.token l) x
                           then rdblock.setUntil (now - 1000000000) x else x) db in
  rdblock.Release env l now db = (db', None) /\
  (forall t, now - 1000000000 <= t ->
     rdblock.TTL l t db' = (withUntil l (now - 1000000000), inr 0)) /\
  (forall env' c tok meta until t,
     plainObtain env' c (rdblock.Key l) tok meta until t ->
     now - 1000000000 <= until ->
     (rdblock.obtain env' c (rdblock.Key l) tok meta until t db').2 = inr true).
Proof.
  intros Hl Hr Hin Hown db'. split_and!.
  - rewrite Release_plain by done. by rewrite (count_owned _ _ _ r).
  - intros t Ht.
    destruct (find_owned_some _ _ _ _ Hin Hown) as (r0 & Hf & _).
    rewrite (TTL_found l t db' (rdblock.setUntil (now - 1000000000) r0)).
    + simpl. by destruct (Z.ltb_spec 0 (now - 1000000000 - t)); [lia|].
    + done.
    + unfold db'. by rewrite find_setUntil, Hf.
  - intros env' c tok meta until t Hp Hu.
    assert (Hr' : rdblock.setUntil (now - 1000000000) r ∈ db').
    { apply list_elem_of_In, in_map_iff. exists r. rewrite Hown.
      split; [done | by apply list_elem_of_In]. }
    assert (Hname : rdblock.lock_name r = rdblock.Key l) by (by apply owned_named in Hown).
    rewrite (rdb_obtain_taken _ _ _ _ _ _ _ _ _ Hp Hr') by done. simpl. f_equal.
    apply Z.ltb_lt, count_pos. exists (rdblock.setUntil (now - 1000000000) r).
    split; [done|]. unfold rdblock.claimable, rdblock.named. simpl.
    rewrite bool_decide_eq_true_2 by done. simpl. apply Z.leb_le. lia.
Qed.

Lemma rdb_release_by_holder_witness :
  rdblock.Release sample.env sample.lockA 5 sample.held = (sample.released 5, None).
Proof.
  apply (rdb_release_by_holder sample.env sample.lockA 5 sample.held (sample.rowA 100));
    [by repeat split | by split | apply list_elem_of_here | reflexivity].
Defined.

Lemma filter_other_map (key : string) (p : rdblock.Row -> bool)
    (f : rdblock.Row -> rdblock.Row) (t : list rdblock.Row) :
  (forall x, p x = true -> rdblock.lock_name x = key) ->
  (forall x, rdblock.lock_name (f x) = rdblock.lock_name x) ->
  filter (fun r => rdblock.lock_name r ≠ key) (map (fun x => if p x then f x else x) t)
  = filter (fun r => rdblock.lock_name r ≠ key) t.
Proof.
  intros Hp Hf. induction t as [|x t IH]; [done|]. simpl.
  destruct (p x) eqn:Hx.
  - rewrite !filter_cons_False; [done | |].
    + intros Hn. apply Hn. by apply Hp.
    + intros Hn. apply Hn. rewrite Hf. by apply Hp.
  - destruct (decide (rdblock.lock_name x ≠ key)).
    + rewrite !filter_cons_True by done. by rewrite IH.
    + by rewrite !filter_cons_False.
Qed.

(** X17.  With plain values the statements for one key work on the
    rows of that key only: after [obtain], [Refresh] or [Release] the
    rows of all other names are the same rows in the same order. *)
Theorem rdb_other_rows_untouched (env : rdblock.Env) (c : rdblock.Client)
    (l : rdblock.Lock) (tok meta : string) (until now ttl : Z) (db : list rdblock.Row) :
  plainLock l ->
  plainObtain env c (rdblock.Key l) tok meta until now ->
  readable env (now + ttl) ->
  readable env (now - 1000000000) ->
  filter (fun r => rdblock.lock_name r ≠ rdblock.Key l)
    (rdblock.obtain env c (rdblock.Key l) tok meta until now db).1
  = filter (fun r => rdblock.lock_name r ≠ rdblock.Key l) db /\
  filter (fun r => rdblock.lock_name r ≠ rdblock.Key l) (rdblock.Refresh env l now ttl db).1
  = filter (fun r => rdblock.lock_name r ≠ rdblock.Key l) db /\
  filter (fun r => rdblock.lock_name r ≠ rdblock.Key l) (rdblock.Release env l now db).1
  = filter (fun r => rdblock.lock_name r ≠ rdblock.Key l) db.
Proof.
  intros Hl Hp Hr1 Hr2. split_and!.
  - destruct (rdb_named_or_not (rdblock.Key l) db) as [Hno|(r & Hin & Hn)].
    + rewrite rdb_obtain_fresh by done. simpl.
      rewrite filter_app, filter_cons_False, filter_nil, app_nil_r; [done|].
      intros Hne. by apply Hne.
    + rewrite (rdb_obtain_taken _ _ _ _ _ _ _ _ r) by done. simpl.
      apply filter_other_map; [apply claimable_named | done].
  - rewrite Refresh_plain by done. simpl.
    apply filter_other_map; [apply owned_named | done].
  - rewrite Release_plain by done. simpl.
    apply filter_other_map; [apply owned_named | done].
Qed.

Lemma rdb_other_rows_untouched_witness :
  filter (fun r => rdblock.lock_name r ≠ "other")
    (rdblock.obtain sample.env sample.client "other" "B" "mb" 7 3 sample.held).1
  = filter (fun r => rdblock.lock_name r ≠ "other") sample.held.
Proof.
  apply (rdb_other_rows_untouched sample.env sample.client
           {| rdblock.lClient := sample.client; rdblock.Key := "other";
              rdblock.token := "B"; rdblock.metadata := "mb"; rdblock.lUntil := 7 |}
           "B" "mb" 7 3 10 sample.held);
    [by repeat split | by repeat split | by split | by split].
Defined.

(** ** [SingleQuote] *)

Lemma quoteBytes_head (s x : string) :
  quoteBytes s = String rdblock.quote x -> s = EmptyString /\ x = EmptyString.
Proof.
  destruct s as [|c s]; simpl; [by intros [= <-]|].
  destruct (Ascii.eqb_spec c rdblock.quote) as [->|Hc]; [done|].
  intros [= -> _]. done.
Qed.

Lemma quoteBytes_nonempty (s : string) : quoteBytes s ≠ EmptyString.
Proof. destruct s as [|c s]; simpl; [done|]. by destruct (Ascii.eqb c rdblock.quote). Qed.

Lemma quoteBytes_inj (s1 s2 : string) :
  quoteBytes s1 = quoteBytes s2 -> s1 = s2.
Proof.
  revert s2. induction s1 as [|a s1 IH]; intros [|c s2]; simpl.
  - done.
  - destruct (Ascii.eqb_spec c rdblock.quote) as [->|Hc]; [done|].
    intros [= <- _]. done.
  - destruct (Ascii.eqb_spec a rdblock.quote) as [->|Ha]; [done|].
    intros [= -> _]. done.
  - destruct (Ascii.eqb_spec a rdblock.quote) as [->|Ha],
             (Ascii.eqb_spec c rdblock.quote) as [->|Hc].
    + intros [= H]. by rewrite (IH _ H).
    + intros [= <- H]. symmetry in H. apply quoteBytes_head in H as [_ H].
      by apply quoteBytes_nonempty in H.
    + intros [= -> H]. apply quoteBytes_head in H as [_ H].
      by apply quoteBytes_nonempty in H.
    + intros [= -> H]. by rewrite (IH _ H).
Qed.

(** X18.  On ASCII strings [SingleQuote] is injective: two different
    strings never get the same literal, also when they contain quotes
    or backslashes.  On byte strings in general it is not: every byte
    that is not part of well-formed UTF-8 is written as U+FFFD. *)
Theorem SingleQuote_injective :
  (forall s1 s2 : string,
     isASCII s1 = true -> isASCII s2 = true ->
     rdblock.SingleQuote s1 = rdblock.SingleQuote s2 -> s1 = s2) /\
  rdblock.SingleQuote (String "255" EmptyString)
    = rdblock.SingleQuote (String "254" EmptyString) /\
  rdblock.SingleQuote (String "255" EmptyString)
    = String "'" (String "239" (String "191" (String "189" (String "'" EmptyString)))).
Proof.
  split_and!; [|done..].
  intros s1 s2 H1 H2. rewrite !SingleQuote_ASCII by done.
  intros [= H]. by apply quoteBytes_inj.
Qed.

Lemma SingleQuote_injective_witness :
  "a\'b" = String "a" (String "\" (String "'" (String "b" EmptyString))).
Proof.
  apply (proj1 SingleQuote_injective "a\'b"
           (String "a" (String "\" (String "'" (String "b" EmptyString)))));
    reflexivity.
Defined.

(** X19.  An ASCII string without a single quote is only wrapped: its
    literal is the string between two quotes, every other character,
    the backslash too, being copied as it is. *)
Theorem SingleQuote_wraps_quote_free (s : string) :
  isASCII s = true ->
  quoteFree s = true ->
  rdblock.SingleQuote s = String rdblock.quote (s +:+ String rdblock.quote EmptyString).
Proof. intros Ha Hq. by rewrite SingleQuote_ASCII, quoteBytes_free. Qed.

Lemma SingleQuote_wraps_quote_free_witness :
  rdblock.SingleQuote "a\b" = String rdblock.quote ("a\b" +:+ String rdblock.quote EmptyString).
Proof. apply (SingleQuote_wraps_quote_free "a\b"); reflexivity. Defined.

(** ** The random token *)

Lemma list_ind3 (P : list Z -> Prop) :
  P [] -> (forall a, P [a]) -> (forall a b, P [a; b]) ->
  (forall a b c rest, P rest -> P (a :: b :: c :: rest)) ->
  forall l, P l.
Proof.
  intros H0 H1 H2 H3 l.
  assert (H : P l /\ (forall a, P (a :: l)) /\ (forall a b, P (a :: b :: l))).
  { induction l as [|x l (IH0 & IH1 & IH2)]; [done|].
    split_and!; [apply IH1 | intros a; apply IH2 | intros a b; by apply H3]. }
  apply H.
Qed.

Lemma EncodeToString_length (src : list Z) :
  String.length (util.EncodeToString src) = ((4 * length src + 2) / 3)%nat.
Proof.
  induction src as [| | |a b c rest IH] using list_ind3; try reflexivity.
  cbn [util.EncodeToString String.length length]. rewrite IH.
  replace (4 * S (S (S (length rest))) + 2)%nat
    with (4 * length rest + 2 + 4 * 3)%nat by lia.
  rewrite Nat.div_add by lia. lia.
Qed.

(** The characters of the alphabet are ASCII, and neither quotes nor
    braces. *)
Lemma encodeChar_plain (v : Z) :
  Ascii.eqb (util.encodeChar (Z.land v 63)) rdblock.quote = false /\
  Ascii.eqb (util.encodeChar (Z.land v 63)) "{"%char = false /\
  (utf8.code (util.encodeChar (Z.land v 63)) <? 128) = true.
Proof.
  change 63 with (Z.ones 6). rewrite Z.land_ones by lia.
  pose proof (Z.mod_pos_bound v (2 ^ 6) ltac:(lia)) as Hb.
  unfold util.encodeChar.
  assert (Hn : (Z.to_nat (v mod 2 ^ 6) < 64)%nat) by lia.
  revert Hn. generalize (Z.to_nat (v mod 2 ^ 6)). intros n Hn.
  do 64 (destruct n as [|n]; [done|]). lia.
Qed.

Lemma EncodeToString_plain (src : list Z) :
  quoteFree (util.EncodeToString src) = true /\
  braceFree (util.EncodeToString src) = true /\
  isASCII (util.EncodeToString src) = true.
Proof.
  induction src as [|a|a b|a b c rest (IHq & IHb & IHa)] using list_ind3;
    cbn [util.EncodeToString quoteFree braceFree isASCII];
    repeat match goal with
           | |- context [Ascii.eqb (util.encodeChar (Z.land ?v 63)) _] =>
               let Hq := fresh in let Hb := fresh in let Ha := fresh in
               destruct (encodeChar_plain v) as (Hq & Hb & Ha);
               rewrite ?Hq, ?Hb, ?Ha; clear Hq Hb Ha
           end; simpl; rewrite ?IHq, ?IHb, ?IHa; done.
Qed.

(** X20.  When the random source delivers, [RandomToken] returns the
    unpadded URL-safe base64 text of the bytes read: its length is
    a third more than the number of bytes, rounded up, so sixteen
    bytes give a token of 22 characters, which is never empty; it has
    neither a single quote nor an opening brace, so [SingleQuote] just
    wraps it and no placeholder of a statement template occurs in it. *)
Theorem RandomToken_shape (tmp : list Z) :
  let tok := util.EncodeToString tmp in
  util.RandomToken (Some tmp) = inr tok /\
  redislock.randomToken (Some tok) = util.RandomToken (Some tmp) /\
  String.length tok = ((4 * length tmp + 2) / 3)%nat /\
  (length tmp = 16%nat -> String.length tok = 22%nat /\ tok ≠ EmptyString) /\
  braceFree tok = true /\
  rdblock.SingleQuote tok = String rdblock.quote (tok +:+ String rdblock.quote EmptyString).
Proof.
  intros tok. split_and!.
  - done.
  - done.
  - apply EncodeToString_length.
  - intros Hlen.
    assert (H22 : String.length tok = 22%nat)
      by (unfold tok; by rewrite EncodeToString_length, Hlen).
    split; [done|]. intros Hempty. by rewrite Hempty in H22.
  - apply EncodeToString_plain.
  - rewrite SingleQuote_ASCII, quoteBytes_free; [done | |]; apply EncodeToString_plain.
Qed.

Lemma RandomToken_shape_witness :
  String.length (util.EncodeToString fixture.entropy) = 22%nat /\
  util.EncodeToString fixture.entropy ≠ EmptyString.
Proof.
  apply (RandomToken_shape fixture.entropy). reflexivity.
Defined.

(** ** Placeholders inside values *)

Lemma quoteFree_app (a b : string) :
  quoteFree a = true -> quoteFree b = true -> quoteFree (a +:+ b) = true.
Proof.
  intros Ha Hb. induction a as [|c a IH]; [done|].
  change (quoteFree (String c (a +:+ b)) = true). simpl in *.
  apply andb_true_iff in Ha as [-> Ha]. by rewrite IH.
Qed.

Lemma isASCII_app (a b : string) :
  isASCII a = true -> isASCII b = true -> isASCII (a +:+ b) = true.
Proof.
  intros Ha Hb. induction a as [|c a IH]; [done|].
  change (isASCII (String c (a +:+ b)) = true). cbn [isASCII] in *.
  apply andb_true_iff in Ha as [-> Ha]. by rewrite IH.
Qed.

Lemma String_append (c : ascii) (x rest : string) :
  String c x +:+ rest = String c EmptyString +:+ (x +:+ rest).
Proof. done. Qed.

(** X21.  The placeholders are substituted one after the other, so a
    placeholder inside a value is substituted too.  For a key of the
    form a{Token}b (a and b ASCII without quote and brace) the SELECT
    that [query] builds does not compare [lock_name] with the key: the
    token's literal is spliced into the key's literal. *)
Theorem queryText_key_with_placeholder (l : rdblock.shedLock) (a b : string) :
  rdblock.Name l = a +:+ "{Token}" +:+ b ->
  braceFree (rdblock.Table l) = true ->
  isASCII a = true -> isASCII b = true ->
  braceFree a = true -> braceFree b = true ->
  quoteFree a = true -> quoteFree b = true ->
  rdblock.queryText l =
    "select lock_until, locked_at, locked_by, token_value, meta_value, locked_pid from " +:+
    rdblock.Table l +:+
    " WHERE lock_name = " +:+ "'" +:+ a +:+ rdblock.SingleQuote (rdblock.shToken l) +:+
    b +:+ "'" +:+
    " AND token_value = " +:+ rdblock.SingleQuote (rdblock.shToken l).
Proof.
  intros HName HT Haa Hab Ha Hb Hqa Hqb. unfold rdblock.queryText, rdblock.ReplaceAll.
  change ("select lock_until, locked_at, locked_by, token_value, meta_value, locked_pid from {Table} " +:+
          "WHERE lock_name = {Name} AND token_value = {Token}")
    with ("select lock_until, locked_at, locked_by, token_value, meta_value, locked_pid from " +:+
          "{Table}" +:+ " WHERE lock_name = " +:+ "{Name}" +:+
          " AND token_value = " +:+ "{Token}" +:+ "").
  pass. cbn [rdblock.replaceFrom].
  pass. cbn [rdblock.replaceFrom].
  rewrite HName.
  assert (HSQ : rdblock.SingleQuote (a +:+ "{Token}" +:+ b) =
                String rdblock.quote ((a +:+ "{Token}" +:+ b) +:+ "'")).
  { rewrite SingleQuote_ASCII, quoteBytes_free; [done | |].
    - apply quoteFree_app; [done | by apply quoteFree_app].
    - apply isASCII_app; [done | by apply isASCII_app]. }
  rewrite HSQ, (String_append rdblock.quote), !append_assoc.
  change (String rdblock.quote EmptyString) with "'".
  pass. cbn [rdblock.replaceFrom].
  by rewrite append_empty_r.
Qed.

Lemma queryText_key_with_placeholder_witness :
  rdblock.queryText (rdblock.mkShedLock "shedlock" "x{Token}y" 0 "A" "") =
    "select lock_until, locked_at, locked_by, token_value, meta_value, locked_pid from " +:+
    "shedlock" +:+ " WHERE lock_name = " +:+ "'" +:+ "x" +:+ rdblock.SingleQuote "A" +:+
    "y" +:+ "'" +:+ " AND token_value = " +:+ rdblock.SingleQuote "A".
Proof.
  apply (queryText_key_with_placeholder (rdblock.mkShedLock "shedlock" "x{Token}y" 0 "A" "")
           "x" "y"); reflexivity.
Defined.

(** ** What a failed [Obtain] leaves behind *)

Lemma loop_failed_store {Store Lock : Type}
    (attempt : Z -> Store -> Store * (error + bool)) (lock : Lock)
    (retry : RetryStrategy) (ctx : context.Context) (tie : nat -> bool)
    (fuel : nat) (s fin : acquire.State Store) (err : error) :
  (forall t st st' r, attempt t st = (st', r) -> r ≠ inr true -> st' = st) ->
  acquire.loop attempt lock retry ctx tie fuel s = Some (inl err, fin) ->
  acquire.store fin = acquire.store s.
Proof.
  intros Hkeep. revert s. induction fuel as [|fuel IH]; intros s; [done|].
  simpl. destruct (acquire.iter attempt lock retry ctx tie s) as [s'|out] eqn:Hit.
  - intros Hl. rewrite (IH _ Hl).
    apply iter_continue in Hit as (st & Ha & _ & _ & _ & -> & _).
    by apply (Hkeep _ _ _ _ Ha).
  - intros [= ->]. revert Hit. unfold acquire.iter.
    destruct (attempt (acquire.now s) (acquire.store s)) as [st [e|[|]]] eqn:Ha.
    + intros [= _ <-]. simpl. by apply (Hkeep _ _ _ _ Ha).
    + done.
    + assert (st = acquire.store s) as -> by by apply (Hkeep _ _ _ _ Ha).
      destruct (NextBackoff retry (acquire.calls s) <? 1); [by intros [= _ <-]|].
      destruct (acquire.select ctx _ _ _); [done | by intros [= _ <-]].
Qed.

Lemma redis_obtain_failed_unchanged (key val : string) (n : nat) (ttlv now : Z)
    (s s' : gmap string redislock.entry) (r : error + bool) :
  redislock.obtain key val n ttlv now s = (s', r) -> r ≠ inr true -> s' = s.
Proof.
  unfold redislock.obtain, redislock.luaObtain, redislock.SET.
  destruct (ttlv <=? 0); [by intros [= <- _]|].
  destruct (true && bool_decide (is_Some (redislock.find (redislock.ms_of now) key s))).
  - case_bool_decide; simpl; [by intros [= _ <-] | by intros [= <- _]].
  - simpl. by intros [= _ <-].
Qed.

(** X22.  An [Obtain] that does not return a handle has changed
    nothing: whether it ends with [ErrNotObtained], with the error of
    the context after any number of retries, or with an error of the
    store, the keyspace or table it returns is the one it started
    from. *)
Theorem failed_Obtain_changes_nothing :
  (forall rnd tie ctx start key ttl opt (s : gmap string redislock.entry) err fin,
     redislock.Obtain rnd tie ctx start key ttl opt s = Some (inl err, fin) ->
     acquire.store fin = s) /\
  (forall env rnd tie c ctx start key ttl fns (db : list rdblock.Row) err fin,
     rdblock.Obtain env rnd tie c ctx start key ttl fns db = Some (inl err, fin) ->
     acquire.store fin = db).
Proof.
  split.
  - intros rnd tie ctx start key ttl opt s err fin.
    destruct (redislock.tokenFor (redislock.orEmpty opt) rnd) as [e|tok] eqn:Htok.
    + unfold redislock.Obtain. rewrite Htok. by intros [= _ <-].
    + rewrite (redis_Obtain_run _ _ _ _ _ _ _ _ _ Htok). unfold acquire.run.
      intros Hl. apply loop_failed_store in Hl; [done|].
      intros t st st' r. apply redis_obtain_failed_unchanged.
  - intros env rnd tie c ctx start key ttl fns db err fin.
    destruct (rdblock.tokenFor (rdblock.applyOptions fns) rnd) as [e|tok] eqn:Htok.
    + unfold rdblock.Obtain. rewrite Htok. by intros [= _ <-].
    + rewrite (rdb_Obtain_run _ _ _ _ _ _ _ _ _ _ _ Htok). unfold acquire.run.
      intros Hl. apply loop_failed_store in Hl; [done|].
      intros t st st' r. apply rdb_obtain_failed_unchanged.
Qed.

Lemma failed_Obtain_changes_nothing_witness :
  acquire.store
    {| acquire.now := 5; acquire.store := sample.kvHeld; acquire.calls := 1;
       acquire.trace := [acquire.EvSleep 0 10; acquire.EvAttempt 0] |}
  = sample.kvHeld.
Proof.
  apply (proj1 failed_Obtain_changes_nothing None (fun _ => true) sample.ctxCancelled 0
           "k" 2000000 (Some sample.optB) sample.kvHeld Canceled).
  reflexivity.
Defined.

(** X23.  A handle of the key-value backend whose token length does not
    exceed its value (the slices would panic otherwise) splits the
    value without loss: [Token] has the token length, and [Token]
    followed by [Metadata] is the value. *)
Theorem kv_handle_splits_value (l : redislock.Lock) :
  (redislock.tokenLen l <= String.length (redislock.lvalue l))%nat ->
  String.length (redislock.Token l) = redislock.tokenLen l /\
  redislock.Token l +:+ redislock.Metadata l = redislock.lvalue l.
Proof.
  unfold redislock.Token, redislock.Metadata.
  generalize (redislock.tokenLen l) as n, (redislock.lvalue l) as v.
  induction n as [|n IH]; intros [|c v] Hle; simpl in *; try lia.
  - done.
  - split; [done|]. by rewrite substring_all.
  - destruct (IH v ltac:(lia)) as [Hlen Happ]. split; [by rewrite Hlen|].
    change (String c (String.substring 0 n v +:+
              String.substring n (String.length v - n) v) = String c v).
    by rewrite Happ.
Qed.

Lemma kv_handle_splits_value_witness :
  String.length (redislock.Token fixture.kvLockA) = redislock.tokenLen fixture.kvLockA /\
  redislock.Token fixture.kvLockA +:+ redislock.Metadata fixture.kvLockA
  = redislock.lvalue fixture.kvLockA.
Proof. apply (kv_handle_splits_value fixture.kvLockA). simpl. lia. Defined.
